(** * Verification of the [misc-scripts] utilities

    Two independent programs are embedded here:

    - [jsondiff.py]: the recursive structural diff [difference] and the
      flattening traversal [list_differences] (module [JsonDiff]);
    - [skmeans.py]: the class [IterativeSphericalKMeans] (module [SKMeans]).

    Python dictionaries are finite maps ([gmap string json]), Python lists are
    lists, Python integers are [Z].  The floats of a JSON document are
    IEEE 754 values ([spec_float]); the [float64] entries of the NumPy arrays
    of [skmeans.py] are the primitive binary64 floats, so that sums, dot
    products, norms and divisions round as they do in the program. *)

From Stdlib Require Import ZArith Floats.
From stdpp Require Import gmap strings list fin_maps pretty.

Set Warnings "-register-all".

Module JsonDiff.

(** ** Data model: what [json.load] produces *)

(** [json.load] yields [None], [bool], [int], [float], [str], [list] and
    [dict] (with [str] keys).  Floats are IEEE 754 values; [json.load] also
    accepts the literals [NaN] and [Infinity]. *)
Inductive json :=
  | JNull
  | JBool (b : bool)
  | JInt (n : Z)
  | JFloat (f : spec_float)
  | JStr (s : string)
  | JList (l : list json)
  | JDict (m : gmap string json).

(** The result of Python's [type(x)] on such a value. *)
Inductive pytype := NoneType | TBool | TInt | TFloat | TStr | TList | TDict.

Global Instance pytype_eq_dec : EqDecision pytype.
Proof. solve_decision. Defined.

Definition type (x : json) : pytype :=
  match x with
  | JNull => NoneType
  | JBool _ => TBool
  | JInt _ => TInt
  | JFloat _ => TFloat
  | JStr _ => TStr
  | JList _ => TList
  | JDict _ => TDict
  end.

Definition A_SIDE : string := "A_SIDE".
Definition B_SIDE : string := "B_SIDE".

(** [x is None] *)
Definition is_None (x : json) : bool :=
  match x with JNull => true | _ => false end.

(** [d.get(key)]: the value stored under [key], [None] when there is none. *)
Definition get (d : gmap string json) (key : string) : json :=
  default JNull (d !! key).

(** [key in d] *)
Definition contains (d : gmap string json) (key : string) : bool :=
  bool_decide (is_Some (d !! key)).

(** [a == b] where [difference] evaluates it: both operands have the same
    [type], are not [None], and are neither [dict] nor [list].  Floats compare
    as IEEE 754 values, so a NaN differs from itself.  The remaining
    combinations are not reached by [difference]. *)
Definition py_eq (a b : json) : bool :=
  match a, b with
  | JBool x, JBool y => bool_decide (x = y)
  | JInt x, JInt y => (x =? y)%Z
  | JFloat x, JFloat y => SFeqb x y
  | JStr x, JStr y => bool_decide (x = y)
  | _, _ => false
  end.

(** [itertools.zip_longest(a, b)]: the shorter list is padded with [None]. *)
Fixpoint zip_longest (a b : list json) : list (json * json) :=
  match a with
  | [] => (λ y, (JNull, y)) <$> b
  | x :: a' =>
      match b with
      | [] => (x, JNull) :: zip_longest a' []
      | y :: b' => (x, y) :: zip_longest a' b'
      end
  end.

(** Nesting depth of a value; scalars have depth 0.  It bounds the recursion
    depth of [difference], which only descends into its first argument. *)
Fixpoint height (x : json) : nat :=
  match x with
  | JList l => S (foldr (λ v acc, height v `max` acc) 0 l)
  | JDict m => S (map_fold (λ _ v acc, height v `max` acc) 0 m)
  | _ => 0
  end.

(** ** [difference] *)

(** The three dictionaries that [difference] builds at a point of divergence. *)
Definition only_a (a_side : json) : json := JDict {[ A_SIDE := a_side ]}.
Definition only_b (b_side : json) : json := JDict {[ B_SIDE := b_side ]}.
Definition both_sides (a_side b_side : json) : json :=
  JDict (<[ B_SIDE := b_side ]> {[ A_SIDE := a_side ]}).

(** The body of [difference], with the recursion bounded by [fuel].  The
    branches are tested in the order of the source. *)
Fixpoint difference_fuel (fuel : nat) (a_side b_side : json) : json :=
  match fuel with
  | 0 => JNull
  | S fuel' =>
      if is_None b_side then only_a a_side
      else if is_None a_side then only_b b_side
      else if bool_decide (type a_side ≠ type b_side) then both_sides a_side b_side
      else
        match a_side, b_side with
        | JDict a, JDict b =>
            JDict (set_to_map
                     (λ key, (key, difference_fuel fuel' (get a key) (get b key)))
                     (dom a ∪ dom b))
        | JList a, JList b =>
            JList ((λ p, difference_fuel fuel' p.1 p.2) <$> zip_longest a b)
        | _, _ =>
            if py_eq a_side b_side then a_side
            else both_sides a_side b_side
        end
  end.

Definition difference (a_side b_side : json) : json :=
  difference_fuel (S (height a_side)) a_side b_side.

(** ** [list_differences] *)

(** One printed line: the key stack at the time of printing, then
    [diff.get(B_SIDE)] and [diff.get(A_SIDE)]. *)
Record row := Row { row_keys : list string; row_b : json; row_a : json }.

(** What the traversal mutates: the list [key_stack], shared by all the
    recursive calls, and the lines printed so far. *)
Record printer := Printer { key_stack : list string; printed : list row }.

(** [key_stack.append(key)] *)
Definition append (key : string) (st : printer) : printer :=
  Printer (key_stack st ++ [key]) (printed st).

(** [key_stack.pop()] *)
Definition pop (st : printer) : printer :=
  Printer (removelast (key_stack st)) (printed st).

(** [print(":".join(key_stack) + ...)], keeping the stack as it is printed. *)
Definition print (b_value a_value : json) (st : printer) : printer :=
  Printer (key_stack st) (printed st ++ [Row (key_stack st) b_value a_value]).

(** ["List[{0}]".format(i)] *)
Definition list_key (i : nat) : string := "List[" +:+ pretty i +:+ "]".

(** [":".join(key_stack)], the first column of a printed line. *)
Definition breadcrumb (key_stack : list string) : string :=
  String.concat ":" key_stack.

(** The loop [for i, v in enumerate(l): body], counting from [i], as a
    transformer of the state [st] that the body updates. *)
Definition for_enumerate {St : Type} (body : nat → json → St → St) :
    list json → nat → St → St :=
  fix loop (l : list json) (i : nat) (st : St) : St :=
    match l with
    | [] => st
    | v :: l' => loop l' (S i) (body i v st)
    end.

(** [list_differences(diff, key_stack)] as a transformer of the printer
    state.  Python iterates a dictionary in its insertion order, which for
    the dictionaries built by [difference] is the iteration order of a set;
    here the keys are visited in the order of [map_fold].  The model thus
    fixes which lines are printed and the key stack of each, not the order in
    which the lines of the keys of one dictionary follow each other; the
    theorems below count the lines of a key stack and do not depend on it. *)
Fixpoint list_differences (diff : json) (st : printer) : printer :=
  match diff with
  | JDict d =>
      if contains d B_SIDE || contains d A_SIDE
      then print (get d B_SIDE) (get d A_SIDE) st
      else map_fold (λ key v st, pop (list_differences v (append key st))) st d
  | JList l =>
      for_enumerate
        (λ i v st, pop (list_differences v (append (list_key i) st))) l 0 st
  | _ => st
  end.

(** A call without [key_stack] starts from a fresh empty list. *)
Definition list_differences_main (diff : json) : list row :=
  printed (list_differences diff (Printer [] [])).

(** ** Vocabulary of the specifications *)

(** The test by which [list_differences] recognises a difference marker. *)
Definition is_marker (d : gmap string json) : bool :=
  contains d B_SIDE || contains d A_SIDE.

(** No dictionary anywhere in [x] has the key [A_SIDE] or [B_SIDE]: [x]
    contains no difference marker and no reserved key. *)
Fixpoint marker_free (x : json) : bool :=
  match x with
  | JDict d =>
      negb (is_marker d) && map_fold (λ _ v acc, marker_free v && acc) true d
  | JList l => forallb marker_free l
  | _ => true
  end.

Definition is_nan (f : spec_float) : bool :=
  match f with S754_nan => true | _ => false end.

(** [x] contains no [None] and no NaN, at any depth. *)
Fixpoint null_free (x : json) : bool :=
  match x with
  | JNull => false
  | JFloat f => negb (is_nan f)
  | JDict d => map_fold (λ _ v acc, null_free v && acc) true d
  | JList l => forallb null_free l
  | _ => true
  end.

(** The element of [l] whose key, counting from [i], is [seg]. *)
Fixpoint list_child (l : list json) (i : nat) (seg : string) : option json :=
  match l with
  | [] => None
  | v :: l' => if decide (list_key i = seg) then Some v else list_child l' (S i) seg
  end.

(** The component of [x] that [list_differences] visits under the key [seg]. *)
Definition child (x : json) (seg : string) : option json :=
  match x with
  | JDict d => d !! seg
  | JList l => list_child l 0 seg
  | _ => None
  end.

(** The node of [x] reached by following [path] from the root. *)
Fixpoint node_at (x : json) (path : list string) : option json :=
  match path with
  | [] => Some x
  | seg :: path' => child x seg ≫= λ y, node_at y path'
  end.

(** There is a difference marker at [path] in [x]. *)
Definition marker_at (x : json) (path : list string) : bool :=
  match node_at x path with
  | Some (JDict d) => is_marker d
  | _ => false
  end.

(** The lines printed for [diff], with key stacks relative to [diff]: the
    functional reading of [list_differences]. *)
Definition under (key : string) (r : row) : row :=
  Row (key :: row_keys r) (row_b r) (row_a r).

Fixpoint rows_of (diff : json) : list row :=
  match diff with
  | JDict d =>
      if is_marker d then [Row [] (get d B_SIDE) (get d A_SIDE)]
      else map_fold (λ key v acc, acc ++ (under key <$> rows_of v)) [] d
  | JList l =>
      for_enumerate (λ i v acc, acc ++ (under (list_key i) <$> rows_of v)) l 0 []
  | _ => []
  end.

(** The shape of the values built by [difference] from inputs without
    reserved keys: below a marker there is no further marker. *)
Fixpoint well_marked (x : json) : bool :=
  match x with
  | JDict d =>
      if is_marker d then map_fold (λ _ v acc, marker_free v && acc) true d
      else map_fold (λ _ v acc, well_marked v && acc) true d
  | JList l => forallb well_marked l
  | _ => true
  end.

(** How many of the printed lines carry the key stack [path]. *)
Definition rows_at (path : list string) (rows : list row) : nat :=
  length (filter (λ r, row_keys r = path) rows).

(** ** Sample documents *)

(** [1.0] as a binary64 value. *)
Definition float_one : spec_float := S754_finite false 4503599627370496 (-52).

(** [{"name": "x", "tags": [1, true, 1.0]}] *)
Definition sample_doc : json :=
  JDict (<["name" := JStr "x"]>
           {[ "tags" := JList [JInt 1; JBool true; JFloat float_one] ]}).

(** [{"a": [1, 2]}] and [{"a": [1, 3]}] *)
Definition sample_a : json := JDict {[ "a" := JList [JInt 1; JInt 2] ]}.
Definition sample_b : json := JDict {[ "a" := JList [JInt 1; JInt 3] ]}.

(** ** Vocabulary of further specifications *)

(** [a] and [b] have the same type at every position, the same keys in
    every dictionary, the same length in every list, and leaves that [==]
    finds equal. *)
Inductive same_value : json → json → Prop :=
  | same_leaf a b :
      type a = type b → type a ≠ TList → type a ≠ TDict →
      py_eq a b = true → same_value a b
  | same_list la lb :
      Forall2 same_value la lb → same_value (JList la) (JList lb)
  | same_dict da db :
      (∀ key, option_Forall2 same_value (da !! key) (db !! key)) →
      same_value (JDict da) (JDict db).

(** What [difference] returns when its first argument is [None]. *)
Definition missing_a (b_side : json) : json :=
  if is_None b_side then only_a JNull else only_b b_side.

(** [{"A_SIDE": 1}], a document with a reserved key. *)
Definition sample_reserved : gmap string json := {[ A_SIDE := JInt 1 ]}.

End JsonDiff.

Module SKMeans.

Local Open Scope Z_scope.

(** ** Exceptions *)

(** The exceptions NumPy and scikit-learn raise on the paths modelled here.
    [LoopBound] is not a Python exception: it marks a [while] loop of the
    model that used up its iteration budget; on a well-shaped instance
    [set_k] never does (see [set_k_spec]). *)
Inductive exn := ValueError | IndexError | LoopBound.

Inductive result (A : Type) :=
  | Ok (a : A)
  | Raise (e : exn).
Global Arguments Ok {A} a.
Global Arguments Raise {A} e.

Global Instance result_ret : MRet result := λ A a, Ok a.
Global Instance result_bind : MBind result := λ A B f r,
  match r with
  | Ok a => f a
  | Raise e => Raise e
  end.

(** ** The NumPy and scikit-learn operations used by the class *)

(** A row of a [float64] array.  NumPy's [float64] is IEEE 754 binary64,
    the primitive type [float]: every operation below rounds as the
    hardware does, to nearest with ties to even, and overflows to an
    infinity. *)
Abbreviation vec := (list float).

(** A sum of floats, taken in index order from 0; every partial sum is
    rounded. *)
Definition fsum (xs : list float) : float := foldl PrimFloat.add 0%float xs.

(** One entry of [records.dot(medoids.transpose())]: the products are
    rounded and summed in index order. *)
Definition dot (u v : vec) : float := fsum (zip_with PrimFloat.mul u v).

(** The L2 norm of a row as scikit-learn's [row_norms] computes it: the
    square root of the sum of the squares. *)
Definition sq_norm (v : vec) : float := dot v v.
Definition norm (v : vec) : float := PrimFloat.sqrt (sq_norm v).

(** [(v == 0).all()]; [-0.0 == 0] holds, [nan == 0] does not. *)
Definition all_zero (v : vec) : bool :=
  forallb (λ x, PrimFloat.eqb x 0%float) v.

(** [np.isfinite(v).all()]: no entry is a NaN or an infinity. *)
Definition finite_row (v : vec) : bool := forallb PrimFloat.is_finite v.

(** The machine epsilon of [float64], 2^-52, and the threshold
    [10 * eps] below which scikit-learn takes a norm for zero. *)
Definition eps : float := 0x1p-52%float.
Definition tiny : float := (10 * eps)%float.

(** scikit-learn's [_handle_zeros_in_scale]: a norm below [10 * eps] is
    replaced by one. *)
Definition handle_zeros_in_scale (n : float) : float :=
  if PrimFloat.ltb n tiny then 1%float else n.

(** What [sklearn.preprocessing.normalize] does to the single row of a
    1 x n array: the row is divided by its L2 norm, a norm below
    [10 * eps] being replaced by one, so that a zero row, or a row that
    small, is returned as it is. *)
Definition normalize_row (v : vec) : vec :=
  let n := handle_zeros_in_scale (norm v) in
  (λ x, PrimFloat.div x n) <$> v.

(** [normalize(x.reshape(1, -1))]: the input validation of scikit-learn
    rejects an array with no feature, and an array with a NaN or an
    infinity. *)
Definition normalize (v : vec) : result vec :=
  match v with
  | [] => Raise ValueError
  | _ => if finite_row v then Ok (normalize_row v) else Raise ValueError
  end.

(** [a[:n]] *)
Definition slice_to {A} (n : Z) (a : list A) : list A :=
  if bool_decide (0 ≤ n) then take (Z.to_nat n) a
  else take (length a - Z.to_nat (- n)) a.

(** The position that the index [i] denotes in an array of [len] rows;
    negative indices count from the end. *)
Definition py_index (len : nat) (i : Z) : result nat :=
  if bool_decide (0 ≤ i < Z.of_nat len) then Ok (Z.to_nat i)
  else if bool_decide (- Z.of_nat len ≤ i < 0) then Ok (Z.to_nat (Z.of_nat len + i))
  else Raise IndexError.

(** Broadcasting the 1 x n array [value] to a row of [width] entries. *)
Definition broadcast_row (width : nat) (value : vec) : result vec :=
  if bool_decide (length value = width) then Ok value
  else match value with
       | [x] => Ok (replicate width x)
       | _ => Raise ValueError
       end.

(** [a[j] = value] for a row position [j]: also [row[...] = value] where
    [row] is the [j]-th row of a view on the first rows of [a]. *)
Definition assign_row (a : list vec) (j : nat) (value : vec) : result (list vec) :=
  match a !! j with
  | None => Raise IndexError
  | Some old => row ← broadcast_row (length old) value; Ok (<[j := row]> a)
  end.

(** [a[i] = value] for a Python index [i]. *)
Definition set_item (a : list vec) (i : Z) (value : vec) : result (list vec) :=
  j ← py_index (length a) i; assign_row a j value.

(** [a[:n][...] = values] for a one-dimensional array [a]. *)
Definition assign_prefix (a : list Z) (n : Z) (values : list Z) : result (list Z) :=
  let view := slice_to n a in
  if bool_decide (length values = length view) then Ok (values ++ drop (length view) a)
  else match values with
       | [x] => Ok (replicate (length view) x ++ drop (length view) a)
       | _ => Raise ValueError
       end.

(** [scores.argmax()], the loop of NumPy over one row: the position of
    the first maximum; a NaN counts as the maximum and ends the scan. *)
Fixpoint argmax_from (best : float) (best_i i : nat) (scores : list float) : nat :=
  match scores with
  | [] => best_i
  | x :: scores' =>
      if PrimFloat.is_nan best then best_i
      else if negb (PrimFloat.leb x best) then argmax_from x i (S i) scores'
      else argmax_from best best_i (S i) scores'
  end.

Definition argmax (scores : list float) : result nat :=
  match scores with
  | [] => Raise ValueError
  | x :: scores' => Ok (argmax_from x 0 1 scores')
  end.

(** [rows.sum(axis=0)] for an array with [ncols] columns: the rows are
    added one after the other, in their order, to a row of zeros. *)
Definition sum_axis0 (ncols : nat) (rows : list vec) : vec :=
  foldl (zip_with PrimFloat.add) (replicate ncols 0%float) rows.

(** [for x in xs: body], each iteration updating the state or raising. *)
Definition for_each {A St : Type} (body : A → St → result St) :
    list A → St → result St :=
  fix loop (xs : list A) (st : St) : result St :=
    match xs with
    | [] => Ok st
    | x :: xs' => st' ← body x st; loop xs' st'
    end.

(** ** The class [IterativeSphericalKMeans] *)

(** A sample of [np.random.randn]: a float that is neither a NaN nor an
    infinity. *)
Record sample := Sample {
  sample_value : float;
  sample_finite : PrimFloat.is_finite sample_value = true
}.

Section Clusterer.

(** The samples that [np.random.randn] hands out, in the order in which the
    generator produces them. *)
Variable randn_stream : nat → sample.

(** The contents that [np.empty] finds in the memory it allocates. *)
Variable uninitialized : nat → nat → float.

(** The attributes of an instance, and the number of samples the random
    generator has handed out so far. *)
Record state := State {
  k : Z;
  num_records : Z;
  next_to_replace : Z;
  num_features : Z;
  max_records : Z;
  max_k : Z;
  _records : list vec;
  _medoids : list vec;
  _classes : list Z;
  drawn : nat
}.

Definition set_k_field (v : Z) (st : state) : state :=
  State v (num_records st) (next_to_replace st) (num_features st)
        (max_records st) (max_k st) (_records st) (_medoids st) (_classes st)
        (drawn st).
Definition set_medoids (v : list vec) (st : state) : state :=
  State (k st) (num_records st) (next_to_replace st) (num_features st)
        (max_records st) (max_k st) (_records st) v (_classes st) (drawn st).
Definition set_classes (v : list Z) (st : state) : state :=
  State (k st) (num_records st) (next_to_replace st) (num_features st)
        (max_records st) (max_k st) (_records st) (_medoids st) v (drawn st).
Definition set_drawn (v : nat) (st : state) : state :=
  State (k st) (num_records st) (next_to_replace st) (num_features st)
        (max_records st) (max_k st) (_records st) (_medoids st) (_classes st) v.

(** [classes()], [records()] and [medoids()]: views on the active rows. *)
Definition classes (st : state) : list Z := slice_to (num_records st) (_classes st).
Definition records (st : state) : list vec := slice_to (num_records st) (_records st).
Definition medoids (st : state) : list vec := slice_to (k st) (_medoids st).

(** [np.random.randn(n)] when [pos] samples have been handed out. *)
Definition randn (pos n : nat) : vec :=
  (λ i, sample_value (randn_stream i)) <$> seq pos n.

(** The value of [_random_angle()] when [pos] samples have been handed out
    and rows have [n] features. *)
Definition random_angle_at (pos n : nat) : vec :=
  normalize_row (PrimFloat.abs <$> randn pos n).

(** [_random_angle()]: the row it returns and the state of the generator. *)
Definition _random_angle (st : state) : result (vec * state) :=
  if bool_decide (num_features st < 0) then Raise ValueError
  else
    let n := Z.to_nat (num_features st) in
    v ← normalize (PrimFloat.abs <$> randn (drawn st) n);
    Ok (v, set_drawn (drawn st + n)%nat st).

(** [medoid[...] = self._random_angle()] for the [i]-th row of [medoids()]. *)
Definition randomize_medoid (i : nat) (st : state) : result state :=
  '(v, st) ← _random_angle st;
  m ← assign_row (_medoids st) i v;
  Ok (set_medoids m st).

(** [for medoid in self.medoids(): medoid[...] = self._random_angle()] *)
Definition randomize_medoids (st : state) : result state :=
  for_each randomize_medoid (seq 0 (length (medoids st))) st.

(** The clamping of the number of clusters, written out in [__init__] for
    [initial_k] and again in [set_k] for [new_k]. *)
Definition clamp_k (max_k new_k : Z) : Z :=
  if bool_decide (new_k > max_k) then max_k
  else if bool_decide (new_k < 1) then 1 else new_k.

(** [__init__(initial_k, num_features, max_k, max_records)].  NumPy rejects
    a negative dimension. *)
Definition init (initial_k num_features max_k max_records : Z) : result state :=
  let k := clamp_k max_k initial_k in
  if bool_decide (max_records < 0 ∨ num_features < 0 ∨ max_k < 0)
  then Raise ValueError
  else
    let rows := Z.to_nat max_records in
    let cols := Z.to_nat num_features in
    randomize_medoids
      (State k 0 0 num_features max_records max_k
         ((λ i, uninitialized i <$> seq 0 cols) <$> seq 0 rows)
         (replicate (Z.to_nat max_k) (replicate cols 0%float))
         (replicate rows 0)
         0).

(** [records.dot(medoids.transpose()).argmax(axis=1).astype(int)] *)
Definition classify (records medoids : list vec) : result (list Z) :=
  match medoids with
  | [] => Raise ValueError
  | _ => mapM (λ r, i ← argmax (dot r <$> medoids); Ok (Z.of_nat i)) records
  end.

(** [((classes == i).reshape(-1, 1) * records).sum(axis=0)]: every record
    is multiplied by 1.0 when its class is [i] and by 0.0 otherwise, and the
    products are summed. *)
Definition cluster_sum (ncols : nat) (i : nat) (classes : list Z)
    (records : list vec) : vec :=
  sum_axis0 ncols
    (zip_with
       (λ c r, (λ x, PrimFloat.mul
                       (if bool_decide (c = Z.of_nat i) then 1%float else 0%float) x)
               <$> r)
       classes records).

(** The body of the loop of [iterate] over [enumerate(self.medoids())]. *)
Definition update_medoid (classes : list Z) (records : list vec)
    (i : nat) (st : state) : result state :=
  v ← normalize (cluster_sum (Z.to_nat (num_features st)) i classes records);
  m ← assign_row (_medoids st) i v;
  let st := set_medoids m st in
  if all_zero (default [] (_medoids st !! i)) then randomize_medoid i st
  else Ok st.

Definition iterate (st : state) : result state :=
  new_classes ← classify (records st) (medoids st);
  c ← assign_prefix (_classes st) (num_records st) new_classes;
  let st := set_classes c st in
  for_each (update_medoid (classes st) (records st))
           (seq 0 (length (medoids st))) st.

(** The two [while] loops of [set_k], each with an iteration budget. *)
Fixpoint set_k_grow (budget : nat) (new_k : Z) (st : state) : result state :=
  if bool_decide (new_k > k st) then
    match budget with
    | O => Raise LoopBound
    | S budget' =>
        '(v, st) ← _random_angle st;
        m ← set_item (_medoids st) (k st) v;
        set_k_grow budget' new_k (set_k_field (k st + 1) (set_medoids m st))
    end
  else Ok st.

Fixpoint set_k_shrink (budget : nat) (new_k : Z) (st : state) : result state :=
  if bool_decide (new_k < k st) then
    match budget with
    | O => Raise LoopBound
    | S budget' => set_k_shrink budget' new_k (set_k_field (k st - 1) st)
    end
  else Ok st.

Definition set_k (st : state) (new_k : Z) : result state :=
  let new_k := clamp_k (max_k st) new_k in
  st ← set_k_grow (Z.to_nat (new_k - k st)) new_k st;
  set_k_shrink (Z.to_nat (k st - new_k)) new_k st.

Definition shuffle (st : state) : result state := randomize_medoids st.

Definition add_record (st : state) (record : vec) : result state :=
  nrecord ← normalize record;
  r ← set_item (_records st) (next_to_replace st) nrecord;
  let next := next_to_replace st + 1 in
  let next := if bool_decide (next >= max_records st) then 0 else next in
  let n := if bool_decide (num_records st < max_records st)
           then num_records st + 1 else num_records st in
  Ok (State (k st) n next (num_features st) (max_records st) (max_k st)
            r (_medoids st) (_classes st) (drawn st)).

Definition add_records (st : state) (records : list vec) : result state :=
  for_each (λ record st, add_record st record) records st.

End Clusterer.

(** ** Vocabulary of the specifications *)

(** The shape of the states that [__init__] and the methods produce. *)
Record wf (st : state) : Prop := Wf {
  wf_features : 1 ≤ num_features st;
  wf_k : 1 ≤ k st ≤ max_k st;
  wf_num_records : 0 ≤ num_records st ≤ max_records st;
  wf_next : 0 ≤ next_to_replace st < Z.max 1 (max_records st);
  wf_records : length (_records st) = Z.to_nat (max_records st);
  wf_record_rows :
    Forall (λ r : vec, length r = Z.to_nat (num_features st)) (_records st);
  wf_medoids : length (_medoids st) = Z.to_nat (max_k st);
  wf_medoid_rows :
    Forall (λ r : vec, length r = Z.to_nat (num_features st)) (_medoids st);
  wf_classes : length (_classes st) = Z.to_nat (max_records st);
  wf_inactive :
    Forall (λ c, c = 0) (drop (Z.to_nat (num_records st)) (_classes st))
}.

(** Every active record is assigned to an active centroid. *)
Definition classes_ok (st : state) : Prop :=
  Forall (λ c, 0 ≤ c < k st) (classes st).

(** [st'] differs from [st] at most in the centroids and in the state of
    the random generator. *)
Definition same_data (st st' : state) : Prop :=
  st' = set_medoids (_medoids st') (set_drawn (drawn st') st).

(** The state after [medoid[...] = self._random_angle()] for row [i]. *)
Definition randomized (randn_stream : nat → sample) (i : nat) (st : state) : state :=
  let n := Z.to_nat (num_features st) in
  set_medoids
    (<[i := random_angle_at randn_stream (drawn st) n]> (_medoids st))
    (set_drawn (drawn st + n)%nat st).

(** The methods that change an instance. *)
Inductive call :=
  | Iterate
  | SetK (new_k : Z)
  | Shuffle
  | AddRecord (record : vec)
  | AddRecords (records : list vec).

Definition run (randn_stream : nat → sample) (c : call) (st : state) : result state :=
  match c with
  | Iterate => iterate randn_stream st
  | SetK new_k => set_k randn_stream st new_k
  | Shuffle => shuffle randn_stream st
  | AddRecord record => add_record st record
  | AddRecords records => add_records st records
  end.

(** The states an instance goes through, from the state [st0] in which
    [__init__] leaves it, by calls that return. *)
Inductive reachable (randn_stream : nat → sample) (st0 : state) : state → Prop :=
  | reachable_init : reachable randn_stream st0 st0
  | reachable_call st c st' :
      reachable randn_stream st0 st →
      run randn_stream c st = Ok st' →
      reachable randn_stream st0 st'.

(** [0 <= x]; it does not hold of a NaN. *)
Definition nonneg (x : float) : bool := PrimFloat.leb 0%float x.

(** The number of centroids among the first [i] that [iterate] finds all
    zero after the assignment of the normalized sum of their cluster, and
    for which it draws a random angle. *)
Definition empty_clusters (ncols : nat) (classes : list Z) (records : list vec)
    (i : nat) : nat :=
  length (filter (λ j, all_zero (normalize_row (cluster_sum ncols j classes records))
                       = true)
            (seq 0 i)).

(** *** Classes of binary64 values *)

(** Neither a NaN nor an infinity. *)
Definition SFfinite (s : spec_float) : bool :=
  match s with
  | S754_zero _ | S754_finite _ _ _ => true
  | _ => false
  end.

(** A zero of either sign, a positive float or the positive infinity. *)
Definition SFnonneg (s : spec_float) : bool :=
  match s with
  | S754_zero _ | S754_infinity false | S754_finite false _ _ => true
  | _ => false
  end.

(** A positive float or the positive infinity. *)
Definition SFpositive (s : spec_float) : bool :=
  match s with
  | S754_infinity false | S754_finite false _ _ => true
  | _ => false
  end.

(** The place of a float that is not a NaN in the order of binary64: first
    its class (negative infinity, negative, zero, positive, positive
    infinity), then its exponent and its mantissa, counted downwards for a
    negative float. *)
Definition SFkey (s : spec_float) : Z * Z * Z :=
  match s with
  | S754_zero _ | S754_nan => (0, 0, 0)
  | S754_infinity true => (-2, 0, 0)
  | S754_infinity false => (2, 0, 0)
  | S754_finite true m e => (-1, - e, - Z.pos m)
  | S754_finite false m e => (1, e, Z.pos m)
  end.

Definition key_lt (a b : Z * Z * Z) : Prop :=
  a.1.1 < b.1.1 ∨
  (a.1.1 = b.1.1 ∧ (a.1.2 < b.1.2 ∨ (a.1.2 = b.1.2 ∧ a.2 < b.2))).

(** ** Sample runs *)

(** A generator that hands out 1, 0, then 0, 1, then 1, 0, and ones from
    there on. *)
Definition sample_stream (i : nat) : sample :=
  match i with
  | 1%nat | 2%nat | 5%nat => Sample 0%float eq_refl
  | _ => Sample 1%float eq_refl
  end.

(** A generator that hands out ones only. *)
Definition ones_stream (i : nat) : sample := Sample 1%float eq_refl.


(** Memory in which [np.empty] finds zeros. *)
Definition zero_memory (i j : nat) : float := 0%float.

(** An instance for rows of two features with room for two records and two
    centroids, the first of which is active; it holds no record. *)
Definition sample_state : state :=
  State 1 0 0 2 2 2
        [[0; 0]; [0; 0]]%float
        [[1; 0]; [0; 0]]%float
        [0; 0]
        2%nat.

(** An instance with the centroids (1, 0) and (0, 1) that holds the record
    (0, 1), not yet classified, and has room for another one. *)
Definition sample_half : state :=
  State 2 1 1 2 2 2
        [[0; 1]; [0; 0]]%float
        [[1; 0]; [0; 1]]%float
        [0; 0]
        4%nat.

(** An instance with the centroids (1, 0) and (0, 1) whose ring is full:
    the record (1, 0) is in class 0 and the record (0, 1) in class 1. *)
Definition sample_full : state :=
  State 2 2 0 2 2 2
        [[1; 0]; [0; 1]]%float
        [[1; 0]; [0; 1]]%float
        [0; 1]
        4%nat.

(** Three rows for a ring of two. *)
Definition sample_rows : list vec :=
  [[3; 4]; [0; 2]; [1; 0]]%float.


End SKMeans.

Module JsonDiffProofs.
Import JsonDiff.

(** *** Depth of the components of a value *)

Lemma height_lookup (m : gmap string json) k v :
  m !! k = Some v → height v < height (JDict m).
Proof.
  simpl. intros Hk. apply Nat.lt_succ_r. revert k v Hk.
  apply (map_fold_weak_ind
           (λ r (m' : gmap string json), ∀ k v, m' !! k = Some v → height v ≤ r)).
  - intros k v. by rewrite lookup_empty.
  - intros i x m' r _ IH k v. rewrite lookup_insert.
    case_decide; intros Hv; simplify_eq; [lia|].
    specialize (IH _ _ Hv). lia.
Qed.

Lemma height_get (m : gmap string json) k : height (get m k) < height (JDict m).
Proof.
  unfold get. destruct (m !! k) as [v|] eqn:Hk; simpl.
  - by apply (height_lookup m k).
  - lia.
Qed.

Lemma height_elem_of (l : list json) v : v ∈ l → height v < height (JList l).
Proof.
  simpl. intros Hv. apply Nat.lt_succ_r.
  induction Hv as [|? ? ? _ IH]; simpl; lia.
Qed.

(** Structural induction on values, through lists and dictionaries. *)
Lemma json_rect' (P : json → Prop) :
  P JNull → (∀ b, P (JBool b)) → (∀ n, P (JInt n)) → (∀ f, P (JFloat f)) →
  (∀ s, P (JStr s)) →
  (∀ l, Forall P l → P (JList l)) →
  (∀ m, map_Forall (λ _ v, P v) m → P (JDict m)) →
  ∀ x, P x.
Proof.
  intros HN HB HI HF HS HL HD x.
  remember (S (height x)) as n eqn:Hn.
  assert (Hlt : height x < n) by lia. clear Hn. revert x Hlt.
  induction n as [|n IH]; intros x Hlt; [lia|].
  destruct x as [| | | | |l|m]; auto.
  - apply HL, Forall_forall. intros v Hv. apply IH.
    pose proof (height_elem_of l v Hv). lia.
  - apply HD. intros k v Hk. apply IH.
    pose proof (height_lookup m k v Hk). lia.
Qed.

(** *** [zip_longest] *)

Lemma zip_longest_fst (a b : list json) p :
  p ∈ zip_longest a b → p.1 = JNull ∨ p.1 ∈ a.
Proof.
  revert b. induction a as [|x a IH]; intros b; simpl.
  - intros (y & -> & _)%list_elem_of_fmap. by left.
  - destruct b as [|y b]; intros [->|Hp]%elem_of_cons; simpl.
    + right. left.
    + destruct (IH _ Hp); [by left|right; by right].
    + right. left.
    + destruct (IH _ Hp); [by left|right; by right].
Qed.

Lemma zip_longest_diag (l : list json) : zip_longest l l = (λ x, (x, x)) <$> l.
Proof. induction l as [|x l IH]; simpl; [done|]. by rewrite IH. Qed.

(** *** The recursion of [difference] does not depend on the fuel *)

Lemma height_zip_longest (a b : list json) p :
  p ∈ zip_longest a b → height p.1 < height (JList a).
Proof.
  intros Hp. destruct (zip_longest_fst _ _ _ Hp) as [->|Hin].
  - simpl. lia.
  - by apply height_elem_of.
Qed.

Lemma difference_fuel_irrel n m a b :
  height a < n → height a < m → difference_fuel n a b = difference_fuel m a b.
Proof.
  revert m a b. induction n as [|n IH]; intros m a b Hn Hm; [lia|].
  destruct m as [|m]; [lia|]. cbn [difference_fuel].
  destruct (is_None b); [done|]. destruct (is_None a); [done|].
  case_bool_decide; [done|].
  destruct a as [| | | | |la|ma], b as [| | | | |lb|mb]; try done.
  - f_equal. apply Forall_fmap_ext_1, Forall_forall. intros p Hp.
    pose proof (height_zip_longest _ _ _ Hp). apply IH; lia.
  - f_equal. unfold set_to_map. f_equal.
    apply Forall_fmap_ext_1, Forall_forall. intros key _. f_equal.
    pose proof (height_get ma key). apply IH; lia.
Qed.

(** [difference] satisfies the recursive equation of the source. *)
Lemma difference_unfold a_side b_side :
  difference a_side b_side =
    if is_None b_side then only_a a_side
    else if is_None a_side then only_b b_side
    else if bool_decide (type a_side ≠ type b_side) then both_sides a_side b_side
    else
      match a_side, b_side with
      | JDict a, JDict b =>
          JDict (set_to_map (λ key, (key, difference (get a key) (get b key)))
                            (dom a ∪ dom b))
      | JList a, JList b =>
          JList ((λ p, difference p.1 p.2) <$> zip_longest a b)
      | _, _ =>
          if py_eq a_side b_side then a_side else both_sides a_side b_side
      end.
Proof.
  unfold difference at 1. cbn [difference_fuel].
  destruct (is_None b_side); [done|]. destruct (is_None a_side); [done|].
  case_bool_decide; [done|].
  destruct a_side as [| | | | |la|ma], b_side as [| | | | |lb|mb]; try done.
  - f_equal. apply Forall_fmap_ext_1, Forall_forall. intros p Hp.
    pose proof (height_zip_longest _ _ _ Hp).
    apply difference_fuel_irrel; lia.
  - f_equal. unfold set_to_map. f_equal.
    apply Forall_fmap_ext_1, Forall_forall. intros key _. f_equal.
    pose proof (height_get ma key).
    apply difference_fuel_irrel; lia.
Qed.

(** *** Folds of conjunctions over a dictionary *)

Lemma map_fold_andb (f : json → bool) (m : gmap string json) :
  map_fold (λ _ v acc, f v && acc) true m = true ↔
  map_Forall (λ _ v, f v = true) m.
Proof.
  apply (map_fold_weak_ind
           (λ r (m' : gmap string json),
              r = true ↔ map_Forall (λ _ v, f v = true) m')).
  - split; [intros _; apply map_Forall_empty|done].
  - intros i x m' r Hi IH. rewrite map_Forall_insert by done.
    rewrite andb_true_iff. by rewrite IH.
Qed.

Lemma forallb_Forall (f : json → bool) (l : list json) :
  forallb f l = true ↔ Forall (λ v, f v = true) l.
Proof.
  induction l as [|x l IH]; simpl.
  - split; [constructor|done].
  - rewrite andb_true_iff, Forall_cons. by rewrite IH.
Qed.

Lemma SFeqb_refl f : is_nan f = false → SFeqb f f = true.
Proof.
  destruct f as [s|s| |s m e]; try done; intros _; unfold SFeqb; simpl.
  - by destruct s.
  - destruct s; rewrite Z.compare_refl, Pos.compare_cont_refl; done.
Qed.

Lemma py_eq_refl x :
  null_free x = true → type x ≠ TList → type x ≠ TDict → py_eq x x = true.
Proof.
  destruct x as [|b|n|f|s|l|m]; simpl; try done; intros Hx _ _.
  - by apply bool_decide_eq_true.
  - apply Z.eqb_refl.
  - apply SFeqb_refl. by destruct (is_nan f).
  - by apply bool_decide_eq_true.
Qed.

Lemma not_None_null_free x : null_free x = true → is_None x = false.
Proof. by destruct x. Qed.

(** The dictionary built by the comprehension of [difference]. *)
Lemma lookup_difference_dict (g : string → json) (X : gset string) key :
  (set_to_map (λ key, (key, g key)) X : gmap string json) !! key =
    if decide (key ∈ X) then Some (g key) else None.
Proof.
  case_decide as Hin.
  - apply lookup_set_to_map; [naive_solver|]. by exists key.
  - apply eq_None_not_Some. intros [v Hv].
    apply lookup_set_to_map in Hv as (y & Hy & Heq); [|naive_solver].
    by simplify_eq.
Qed.

(** *** Reflexivity on values without [None] and NaN *)

Lemma difference_diag x : null_free x = true → difference x x = x.
Proof.
  induction x as [| | | | |l IH|m IH] using json_rect'; try done.
  all: intros Hx; rewrite difference_unfold.
  all: rewrite (not_None_null_free _ Hx).
  all: rewrite bool_decide_eq_false_2 by (intros Hne; by apply Hne).
  all: try (rewrite py_eq_refl; done).
  - f_equal. rewrite zip_longest_diag, <-list_fmap_compose.
    simpl in Hx. apply forallb_Forall in Hx.
    rewrite <-(list_fmap_id l) at 2.
    apply Forall_fmap_ext_1. rewrite Forall_forall in *. naive_solver.
  - f_equal. simpl in Hx. apply map_fold_andb in Hx.
    apply map_eq. intros key. rewrite lookup_difference_dict.
    case_decide as Hin.
    + assert (is_Some (m !! key)) as [v Hv].
      { apply elem_of_dom. by apply elem_of_union in Hin as [?|?]. }
      unfold get. rewrite Hv. simpl. f_equal. by eapply IH, Hx.
    + symmetry. apply not_elem_of_dom. set_solver.
Qed.

(** *** Keys *)

Lemma contains_true (d : gmap string json) key :
  contains d key = true ↔ is_Some (d !! key).
Proof. unfold contains. by rewrite bool_decide_eq_true. Qed.

Lemma contains_false (d : gmap string json) key :
  contains d key = false ↔ d !! key = None.
Proof.
  unfold contains. rewrite bool_decide_eq_false. by rewrite eq_None_not_Some.
Qed.

Lemma is_marker_false (d : gmap string json) :
  is_marker d = false ↔ d !! B_SIDE = None ∧ d !! A_SIDE = None.
Proof.
  unfold is_marker. rewrite orb_false_iff.
  by rewrite (contains_false d B_SIDE), (contains_false d A_SIDE).
Qed.

Lemma is_marker_only_a x : is_marker {[ A_SIDE := x ]} = true.
Proof. done. Qed.

Lemma append_cancel_r (s1 s2 t : string) : s1 +:+ t = s2 +:+ t → s1 = s2.
Proof.
  assert (Hlen : ∀ s u : string,
             String.length (s +:+ u) = String.length s + String.length u).
  { intros s u. induction s as [|c s IH]; simpl; [done|]. by rewrite IH. }
  revert s2. induction s1 as [|c s1 IH]; intros [|c' s2] Heq.
  - done.
  - apply (f_equal String.length) in Heq. rewrite !Hlen in Heq. simpl in Heq. lia.
  - apply (f_equal String.length) in Heq. rewrite !Hlen in Heq. simpl in Heq. lia.
  - simpl in Heq. injection Heq as -> Heq. f_equal. by apply IH.
Qed.

Lemma list_key_inj i j : list_key i = list_key j → i = j.
Proof.
  unfold list_key. intros Heq%(inj (String.app _))%append_cancel_r.
  by apply (inj pretty).
Qed.

(** *** The traversal leaves the key stack as it found it *)

Lemma foldr_under r ks :
  foldr under r ks = Row (ks ++ row_keys r) (row_b r) (row_a r).
Proof.
  induction ks as [|k ks IH]; simpl; [by destruct r|]. by rewrite IH.
Qed.

Lemma removelast_snoc (ks : list string) key : removelast (ks ++ [key]) = ks.
Proof. rewrite removelast_app by done. simpl. apply app_nil_r. Qed.

Lemma pop_append_rows key st rows :
  pop (Printer (key_stack (append key st))
         (printed (append key st) ++
            ((λ r, foldr under r (key_stack (append key st))) <$> rows))) =
  Printer (key_stack st)
    (printed st ++ ((λ r, foldr under r (key_stack st)) <$> (under key <$> rows))).
Proof.
  unfold pop, append. simpl. rewrite removelast_snoc. f_equal. f_equal.
  rewrite <-list_fmap_compose. apply list_fmap_ext. intros _ r _. simpl.
  by rewrite foldr_app.
Qed.

Lemma for_enumerate_rows_acc (g : nat → json → list row) l : ∀ i acc,
  for_enumerate (λ i v acc, acc ++ g i v) l i acc =
    acc ++ for_enumerate (λ i v acc, acc ++ g i v) l i [].
Proof.
  induction l as [|v l IH]; intros i acc; simpl.
  - by rewrite app_nil_r.
  - rewrite (IH _ (acc ++ _)), (IH _ (g i v)). by rewrite app_assoc.
Qed.

(** [list_differences] prints the lines of [rows_of], each under the key
    stack it was called with, and restores that stack. *)
Lemma list_differences_rows diff : ∀ st,
  list_differences diff st =
    Printer (key_stack st)
      (printed st ++ ((λ r, foldr under r (key_stack st)) <$> rows_of diff)).
Proof.
  induction diff as [| | | | |l IH|d IH] using json_rect'; intros st;
    try (destruct st; simpl; by rewrite app_nil_r).
  - cbn [list_differences rows_of]. generalize 0. revert st.
    induction IH as [|v l Hv _ IHl]; intros st i; simpl.
    + destruct st; simpl; by rewrite app_nil_r.
    + rewrite Hv, pop_append_rows, IHl. simpl. f_equal.
      rewrite (for_enumerate_rows_acc _ l (S i) (under _ <$> _)).
      by rewrite fmap_app, app_assoc.
  - cbn [list_differences rows_of]. fold (is_marker d).
    destruct (is_marker d).
    + unfold print. simpl. by rewrite foldr_under, app_nil_r.
    + rewrite !map_fold_foldr. apply map_Forall_to_list in IH.
      induction IH as [|[key v] kvs Hv _ IHl]; simpl.
      * destruct st; simpl; by rewrite app_nil_r.
      * rewrite IHl. simpl in Hv. rewrite Hv, pop_append_rows. simpl. f_equal.
        by rewrite fmap_app, app_assoc.
Qed.

Lemma list_differences_main_rows diff : list_differences_main diff = rows_of diff.
Proof.
  unfold list_differences_main. rewrite list_differences_rows. simpl.
  rewrite <-(list_fmap_id (rows_of diff)) at 2.
  apply list_fmap_ext. intros _ r _. by destruct r.
Qed.

(** *** Counting the lines of a path *)

Lemma rows_at_app p r1 r2 : rows_at p (r1 ++ r2) = rows_at p r1 + rows_at p r2.
Proof. unfold rows_at. by rewrite filter_app, length_app. Qed.

Lemma rows_at_under_nil key rows : rows_at [] (under key <$> rows) = 0.
Proof.
  unfold rows_at. induction rows as [|r rows IH]; [done|].
  rewrite fmap_cons, filter_cons_False; done.
Qed.

Lemma rows_at_under_cons key seg p rows :
  rows_at (seg :: p) (under key <$> rows) =
    if decide (key = seg) then rows_at p rows else 0.
Proof.
  unfold rows_at. induction rows as [|r rows IH]; [by case_decide|].
  rewrite fmap_cons. destruct (decide (row_keys r = p)) as [Hr|Hr].
  - case_decide as Hk.
    + rewrite !filter_cons_True; simpl; [|done|by subst]. by rewrite IH.
    + rewrite filter_cons_False by (simpl; congruence). done.
  - rewrite (filter_cons_False _ r) by done.
    rewrite filter_cons_False by (simpl; congruence). done.
Qed.

(** *** Components of values without markers *)

Lemma list_child_elem_of l i seg v : list_child l i seg = Some v → v ∈ l.
Proof.
  revert i. induction l as [|x l IH]; intros i; simpl; [done|].
  case_decide; intros Hv; simplify_eq; [left|right; by eapply IH].
Qed.

Lemma marker_free_child x seg v :
  marker_free x = true → child x seg = Some v → marker_free v = true.
Proof.
  destruct x as [| | | | |l|d]; simpl; try done.
  - intros Hl%forallb_Forall Hv%list_child_elem_of.
    rewrite Forall_forall in Hl. by apply Hl.
  - intros [_ Hd%map_fold_andb]%andb_true_iff Hv. by apply (Hd seg).
Qed.

Lemma marker_free_no_marker x path :
  marker_free x = true → marker_at x path = false.
Proof.
  unfold marker_at. revert x. induction path as [|seg path IH]; intros x Hx; simpl.
  - destruct x; try done. simpl in Hx.
    apply andb_true_iff in Hx as [Hm _]. by apply negb_true_iff.
  - destruct (child x seg) as [v|] eqn:Hv; simpl; [|done].
    eapply IH, marker_free_child; done.
Qed.

(** *** One line per marker *)

Lemma well_marked_child x seg v :
  well_marked x = true → child x seg = Some v →
  match x with
  | JDict d => if is_marker d then marker_free v = true else well_marked v = true
  | _ => well_marked v = true
  end.
Proof.
  destruct x as [| | | | |l|d]; simpl; try done.
  - intros Hl%forallb_Forall Hv%list_child_elem_of.
    rewrite Forall_forall in Hl. by apply Hl.
  - destruct (is_marker d); intros Hd%map_fold_andb Hv; by apply (Hd seg).
Qed.

Local Abbreviation list_rows :=
  (for_enumerate (λ i v acc, acc ++ (under (list_key i) <$> rows_of v))).

Lemma list_rows_cons v l i :
  list_rows (v :: l) i [] = (under (list_key i) <$> rows_of v) ++ list_rows l (S i) [].
Proof. simpl. apply for_enumerate_rows_acc. Qed.

Lemma rows_at_enumerate_nil (l : list json) i : rows_at [] (list_rows l i []) = 0.
Proof.
  revert i. induction l as [|v l IH]; intros i; [done|].
  by rewrite list_rows_cons, rows_at_app, rows_at_under_nil, IH.
Qed.

Lemma rows_at_enumerate_none seg p (l : list json) : ∀ i,
  (∀ j, i ≤ j → list_key j ≠ seg) → rows_at (seg :: p) (list_rows l i []) = 0.
Proof.
  induction l as [|v l IH]; intros i Hi; [done|].
  rewrite list_rows_cons, rows_at_app, rows_at_under_cons, IH.
  - rewrite decide_False; [done|]. by apply Hi.
  - intros j Hj. apply Hi. lia.
Qed.

Lemma rows_at_enumerate_child seg path (l : list json) :
  Forall (λ v, ∀ p, rows_at p (rows_of v) = if marker_at v p then 1 else 0) l →
  ∀ i, rows_at (seg :: path) (list_rows l i []) =
         match list_child l i seg with
         | Some v => if marker_at v path then 1 else 0
         | None => 0
         end.
Proof.
  induction 1 as [|v l Hv _ IHl]; intros i; [reflexivity|].
  rewrite list_rows_cons, rows_at_app, rows_at_under_cons. cbn [list_child].
  case_decide as Hi.
  - rewrite rows_at_enumerate_none; [rewrite Hv; lia|].
    intros j Hj Hseg. rewrite <-Hi in Hseg. apply list_key_inj in Hseg. lia.
  - by rewrite IHl.
Qed.

Lemma rows_at_marker x :
  well_marked x = true →
  ∀ path, rows_at path (rows_of x) = if marker_at x path then 1 else 0.
Proof.
  induction x as [| | | | |l IH|d IH] using json_rect'; intros Hx path;
    try (unfold marker_at; by destruct path).
  - (* lists *)
    cbn [rows_of]. destruct path as [|seg path]; unfold marker_at.
    { apply rows_at_enumerate_nil. }
    simpl in Hx. apply forallb_Forall in Hx.
    rewrite rows_at_enumerate_child.
    + cbn [node_at child]. by destruct (list_child l 0 seg).
    + rewrite Forall_forall in *. intros v Hv. by apply IH, Hx.
  - (* dictionaries *)
    cbn [rows_of]. simpl in Hx. destruct (is_marker d) eqn:Hm.
    + apply map_fold_andb in Hx. destruct path as [|seg path].
      * unfold marker_at. simpl. by rewrite Hm.
      * unfold rows_at. rewrite filter_cons_False by done.
        unfold marker_at. simpl.
        destruct (d !! seg) as [v|] eqn:Hv; simpl; [|done].
        pose proof (marker_free_no_marker v path (Hx _ _ Hv)) as Hno.
        unfold marker_at in Hno. by rewrite Hno.
    + apply map_fold_andb in Hx. destruct path as [|seg path].
      * unfold marker_at. simpl. rewrite Hm. clear.
        apply (map_fold_weak_ind (λ r (_ : gmap string json), rows_at [] r = 0));
          [done|].
        intros i v m r _ Hr. by rewrite rows_at_app, Hr, rows_at_under_nil.
      * unfold marker_at. cbn [node_at child].
        revert IH Hx. clear Hm.
        apply (map_fold_weak_ind
          (λ r (m : gmap string json),
             map_Forall (λ _ v, well_marked v = true →
               ∀ path, rows_at path (rows_of v) = if marker_at v path then 1 else 0) m →
             map_Forall (λ _ v, well_marked v = true) m →
             rows_at (seg :: path) r =
               if match m !! seg ≫= λ y, node_at y path with
                  | Some (JDict d) => is_marker d
                  | _ => false
                  end then 1 else 0)).
        { intros _ _. by rewrite lookup_empty. }
        intros i v m r Hi Hr IH Hx.
        apply map_Forall_insert in IH as [IHv IH]; [|done].
        apply map_Forall_insert in Hx as [Hv Hx]; [|done].
        rewrite rows_at_app, rows_at_under_cons, (Hr IH Hx), lookup_insert.
        case_decide as Hk; simpl.
        -- subst. rewrite Hi. simpl. rewrite IHv by done. done.
        -- done.
Qed.

Lemma marker_below_marker x path below :
  well_marked x = true → marker_at x path = true → below ≠ [] →
  marker_at x (path ++ below) = false.
Proof.
  revert x. induction path as [|seg path IH]; intros x Hx Hm Hb.
  - destruct below as [|seg below]; [done|].
    unfold marker_at in *. simpl in *.
    destruct x as [| | | | | |d]; try done.
    destruct (child (JDict d) seg) as [v|] eqn:Hv; simpl; [|done].
    pose proof (well_marked_child _ _ _ Hx Hv) as Hc. simpl in Hc.
    rewrite Hm in Hc.
    by apply (marker_free_no_marker v below).
  - unfold marker_at in *. simpl in *.
    destruct (child x seg) as [v|] eqn:Hv; simpl in *; [|done].
    pose proof (well_marked_child _ _ _ Hx Hv) as Hc.
    destruct x as [| | | | |l|d]; try done.
    + by apply IH.
    + destruct (is_marker d).
      * pose proof (marker_free_no_marker v path Hc) as Hno.
        unfold marker_at in Hno. congruence.
      * by apply IH.
Qed.

(** *** The values built by [difference] *)

Lemma zip_longest_snd (a b : list json) p :
  p ∈ zip_longest a b → p.2 = JNull ∨ p.2 ∈ b.
Proof.
  revert b. induction a as [|x a IH]; intros b; simpl.
  - intros (y & -> & Hy)%list_elem_of_fmap. by right.
  - destruct b as [|y b]; intros [->|Hp]%elem_of_cons; simpl.
    + by left.
    + destruct (IH _ Hp) as [?|Hin]; [by left|by apply elem_of_nil in Hin].
    + right. left.
    + destruct (IH _ Hp); [by left|right; by right].
Qed.

Lemma well_marked_only_a x : marker_free x = true → well_marked (only_a x) = true.
Proof.
  intros Hx. unfold only_a. cbn [well_marked]. rewrite is_marker_only_a.
  apply map_fold_andb. by apply map_Forall_singleton.
Qed.

Lemma well_marked_only_b x : marker_free x = true → well_marked (only_b x) = true.
Proof.
  intros Hx. unfold only_b. cbn [well_marked].
  replace (is_marker {[B_SIDE := x]}) with true by done.
  apply map_fold_andb. by apply map_Forall_singleton.
Qed.

Lemma well_marked_both_sides x y :
  marker_free x = true → marker_free y = true →
  well_marked (both_sides x y) = true.
Proof.
  intros Hx Hy. unfold both_sides. cbn [well_marked].
  replace (is_marker (<[B_SIDE:=y]> {[A_SIDE := x]})) with true by done.
  apply map_fold_andb. apply map_Forall_insert; [done|].
  split; [done|]. by apply map_Forall_singleton.
Qed.

Lemma marker_free_get (d : gmap string json) key :
  marker_free (JDict d) = true → marker_free (get d key) = true.
Proof.
  simpl. intros [_ Hd%map_fold_andb]%andb_true_iff. unfold get.
  destruct (d !! key) as [v|] eqn:Hv; simpl; [|done]. by apply (Hd key).
Qed.

Lemma well_marked_difference_None b :
  marker_free b = true → well_marked (difference JNull b) = true.
Proof.
  intros Hb. rewrite difference_unfold. destruct (is_None b) eqn:Hn.
  - by apply well_marked_only_a.
  - by apply well_marked_only_b.
Qed.

Lemma well_marked_difference a : ∀ b_side,
  marker_free a = true → marker_free b_side = true →
  well_marked (difference a b_side) = true.
Proof.
  induction a as [| | | | |la IH|da IH] using json_rect'; intros b_side Ha Hb.
  1: by apply well_marked_difference_None.
  all: rewrite difference_unfold.
  all: destruct (is_None b_side) eqn:Hn; [by apply well_marked_only_a|].
  all: cbn [is_None].
  all: case_bool_decide; [by apply well_marked_both_sides|].
  all: destruct b_side as [| | | | |lb|db]; try done.
  1-4: by (case_match; [|apply well_marked_both_sides]).
  - (* lists *)
    cbn [well_marked]. apply forallb_Forall, Forall_fmap, Forall_forall.
    intros p Hp. simpl.
    simpl in Ha, Hb. apply forallb_Forall in Ha, Hb.
    rewrite Forall_forall in IH, Ha, Hb.
    assert (marker_free p.2 = true) as Hp2.
    { destruct (zip_longest_snd _ _ _ Hp) as [->|Hin]; [done|by apply Hb]. }
    destruct (zip_longest_fst _ _ _ Hp) as [->|Hin].
    + by apply well_marked_difference_None.
    + apply IH; [done| |done]. by apply Ha.
  - (* dictionaries *)
    pose proof Ha as Ha'. pose proof Hb as Hb'. simpl in Ha', Hb'.
    apply andb_true_iff in Ha' as [[HaB HaA]%negb_true_iff%is_marker_false _].
    apply andb_true_iff in Hb' as [[HbB HbA]%negb_true_iff%is_marker_false _].
    cbn [well_marked].
    assert (∀ key, key ∈ dom da ∪ dom db →
              is_Some (da !! key) ∨ is_Some (db !! key)) as Hdom.
    { intros key [?%elem_of_dom|?%elem_of_dom]%elem_of_union; auto. }
    rewrite (proj2 (is_marker_false _)).
    2:{ rewrite !lookup_difference_dict. split; case_decide as Hin; try done.
        - destruct (Hdom _ Hin) as [[? ?]|[? ?]]; congruence.
        - destruct (Hdom _ Hin) as [[? ?]|[? ?]]; congruence. }
    apply map_fold_andb. intros key v. rewrite lookup_difference_dict.
    case_decide; [|done]. intros [= <-].
    pose proof (marker_free_get db key Hb) as Hgb.
    unfold get at 1. destruct (da !! key) as [va|] eqn:Hva; simpl.
    + apply (IH key va Hva); [|done].
      pose proof (marker_free_get da key Ha) as Hga. unfold get in Hga.
      by rewrite Hva in Hga.
    + by apply well_marked_difference_None.
Qed.

(** ** Properties of [difference] and [list_differences] *)

(** The two sides can be read back from a two-sided marker. *)
Lemma both_sides_lookup x y :
  ∃ d, both_sides x y = JDict d ∧ d !! A_SIDE = Some x ∧ d !! B_SIDE = Some y ∧
       is_marker d = true.
Proof. by eexists. Qed.

(** C1, as stated, fails: [None] stands for a missing value, so
    [difference(None, None)] takes the first branch and returns the marker
    [{A_SIDE: None}] instead of [None]. *)
Lemma difference_None_None :
  difference JNull JNull = only_a JNull ∧
  difference JNull JNull ≠ JNull ∧
  marker_free (difference JNull JNull) = false.
Proof. by vm_compute. Qed.

(** C1, amended: for every value [x] that contains no [None] and no NaN,
    [difference(x, x)] returns [x] unchanged; if no dictionary of [x] has a
    reserved key, the result contains no difference marker. *)
Theorem difference_reflexive x :
  null_free x = true →
  difference x x = x ∧
  (marker_free x = true → marker_free (difference x x) = true).
Proof.
  intros Hx. pose proof (difference_diag x Hx) as Heq.
  split; [done|]. by rewrite Heq.
Qed.

Lemma difference_reflexive_witness :
  null_free sample_doc = true ∧
  difference sample_doc sample_doc = sample_doc ∧
  (marker_free sample_doc = true →
   marker_free (difference sample_doc sample_doc) = true).
Proof.
  split; [reflexivity|]. apply (difference_reflexive sample_doc). reflexivity.
Defined.

(** C2, as stated, fails: the integer [1] and the float [1.0] have different
    types, so [difference] wraps them in a two-sided marker and never
    compares their values. *)
Lemma difference_int_float_marker :
  difference (JInt 1) (JFloat float_one) = both_sides (JInt 1) (JFloat float_one) ∧
  difference (JInt 1) (JFloat float_one) ≠ JInt 1 ∧
  difference (JInt 1) (JFloat float_one) ≠ JFloat float_one.
Proof. by vm_compute. Qed.

(** C2, amended: an integer and a float are values of different types and
    yield a marker with both [A_SIDE] and [B_SIDE], whatever their numeric
    values; so do a string and a number.  Two integers are compared by
    value, and so are two floats (by [==] of binary64, under which a NaN
    differs from itself): equal ones yield the scalar, unequal ones a
    two-sided marker. *)
Theorem difference_scalar_kinds (n k : Z) (f g : spec_float) (s : string) :
  difference (JInt n) (JFloat f) = both_sides (JInt n) (JFloat f) ∧
  difference (JFloat f) (JInt n) = both_sides (JFloat f) (JInt n) ∧
  difference (JInt n) (JStr s) = both_sides (JInt n) (JStr s) ∧
  difference (JStr s) (JInt n) = both_sides (JStr s) (JInt n) ∧
  difference (JFloat f) (JStr s) = both_sides (JFloat f) (JStr s) ∧
  difference (JStr s) (JFloat f) = both_sides (JStr s) (JFloat f) ∧
  difference (JInt n) (JInt k) =
    (if (n =? k)%Z then JInt n else both_sides (JInt n) (JInt k)) ∧
  difference (JFloat f) (JFloat g) =
    (if SFeqb f g then JFloat f else both_sides (JFloat f) (JFloat g)) ∧
  (∀ x y, ∃ d, both_sides x y = JDict d ∧
               d !! A_SIDE = Some x ∧ d !! B_SIDE = Some y).
Proof.
  repeat split; try done.
  intros x y. destruct (both_sides_lookup x y) as (d & ? & ? & ? & _). eauto.
Qed.

(** C4: for inputs without reserved keys, [difference(a, b)] has a
    difference marker at a path exactly when [list_differences] prints one
    line for that path, and no line is printed for a path that continues
    below a marker. *)
Theorem marker_iff_one_row a b :
  marker_free a = true → marker_free b = true →
  (∀ path, marker_at (difference a b) path = true ↔
           rows_at path (list_differences_main (difference a b)) = 1) ∧
  (∀ path below, marker_at (difference a b) path = true → below ≠ [] →
           rows_at (path ++ below) (list_differences_main (difference a b)) = 0).
Proof.
  intros Ha Hb. pose proof (well_marked_difference a b Ha Hb) as Hwm.
  rewrite list_differences_main_rows. split.
  - intros path. rewrite rows_at_marker by done.
    destruct (marker_at (difference a b) path); split; done.
  - intros path below Hm Hbelow. rewrite rows_at_marker by done.
    by rewrite marker_below_marker.
Qed.

Lemma marker_iff_one_row_witness :
  marker_free sample_a = true ∧ marker_free sample_b = true ∧
  (∀ path, marker_at (difference sample_a sample_b) path = true ↔
           rows_at path (list_differences_main (difference sample_a sample_b)) = 1) ∧
  (∀ path below, marker_at (difference sample_a sample_b) path = true →
           below ≠ [] →
           rows_at (path ++ below)
             (list_differences_main (difference sample_a sample_b)) = 0).
Proof.
  split; [reflexivity|]. split; [reflexivity|].
  apply (marker_iff_one_row sample_a sample_b); reflexivity.
Defined.

(** The example of the usage text: one line, for the path [a:List[1]]. *)
Example list_differences_sample :
  list_differences_main (difference sample_a sample_b) =
    [Row ["a"; "List[1]"] (JInt 3) (JInt 2)] ∧
  breadcrumb ["a"; "List[1]"] = "a:List[1]".
Proof. by vm_compute. Qed.

(** ** Further properties of [difference] and [list_differences] *)

Lemma difference_None_r x : difference x JNull = only_a x.
Proof. by rewrite difference_unfold. Qed.

Lemma difference_None_l y : difference JNull y = missing_a y.
Proof. rewrite difference_unfold. unfold missing_a. by destruct (is_None y). Qed.

Lemma zip_longest_lookup (a b : list json) i :
  zip_longest a b !! i =
    match a !! i, b !! i with
    | None, None => None
    | x, y => Some (default JNull x, default JNull y)
    end.
Proof.
  revert b i. induction a as [|x a IH]; intros b i.
  - simpl. rewrite list_lookup_fmap. by destruct (b !! i).
  - destruct b as [|y b]; destruct i as [|i]; simpl; try done;
      rewrite IH; simpl; by destruct (a !! i).
Qed.

Lemma length_zip_longest (a b : list json) :
  length (zip_longest a b) = length a `max` length b.
Proof.
  revert b. induction a as [|x a IH]; intros b; simpl.
  - by rewrite length_fmap.
  - destruct b as [|y b]; simpl; rewrite IH; simpl; lia.
Qed.

(** X1: the difference of two dictionaries is a dictionary over the union
    of their keys; a key of both holds the difference of the two values, a
    key of [a] only holds a marker with [A_SIDE] alone, and a key of [b]
    only holds a marker with [B_SIDE] alone, unless its value is [None],
    which is reported under [A_SIDE]. *)
Theorem difference_dicts (a b : gmap string json) :
  ∃ m, difference (JDict a) (JDict b) = JDict m ∧
    dom m = dom a ∪ dom b ∧
    (∀ key x y, a !! key = Some x → b !! key = Some y →
                m !! key = Some (difference x y)) ∧
    (∀ key x, a !! key = Some x → b !! key = None →
              m !! key = Some (only_a x)) ∧
    (∀ key y, a !! key = None → b !! key = Some y →
              m !! key = Some (if is_None y then only_a JNull else only_b y)).
Proof.
  rewrite difference_unfold. cbn [is_None type].
  rewrite bool_decide_eq_false_2 by (intros Hne; by apply Hne).
  eexists. split; [done|].
  assert (∀ key, is_Some (a !! key) ∨ is_Some (b !! key) → key ∈ dom a ∪ dom b)
    as Hin.
  { intros key [?|?]; apply elem_of_union; [left|right]; by apply elem_of_dom. }
  split; [|split; [|split]].
  - apply set_eq. intros key. rewrite elem_of_dom, lookup_difference_dict.
    case_decide; split; intros Hk; try done; by destruct Hk.
  - intros key x y Ha Hb. rewrite lookup_difference_dict, decide_True by eauto.
    unfold get. by rewrite Ha, Hb.
  - intros key x Ha Hb. rewrite lookup_difference_dict, decide_True by eauto.
    unfold get. rewrite Ha, Hb. simpl. by rewrite difference_None_r.
  - intros key y Ha Hb. rewrite lookup_difference_dict, decide_True by eauto.
    unfold get. rewrite Ha, Hb. simpl. by rewrite difference_None_l.
Qed.

(** X2: the difference of two lists is a list as long as the longer one;
    a position of both holds the difference of the two elements, a position
    of [a] only a marker with [A_SIDE] alone, and a position of [b] only a
    marker with [B_SIDE] alone (with [A_SIDE] alone if the element is
    [None]). *)
Theorem difference_lists (a b : list json) :
  ∃ l, difference (JList a) (JList b) = JList l ∧
    length l = length a `max` length b ∧
    ∀ i, l !! i =
      match a !! i, b !! i with
      | Some x, Some y => Some (difference x y)
      | Some x, None => Some (only_a x)
      | None, Some y => Some (if is_None y then only_a JNull else only_b y)
      | None, None => None
      end.
Proof.
  rewrite difference_unfold. cbn [is_None type].
  rewrite bool_decide_eq_false_2 by (intros Hne; by apply Hne).
  eexists. split; [done|]. split.
  - by rewrite length_fmap, length_zip_longest.
  - intros i. rewrite list_lookup_fmap, zip_longest_lookup.
    destruct (a !! i) as [x|], (b !! i) as [y|]; simpl;
      rewrite ?difference_None_r, ?difference_None_l; done.
Qed.

(** X3: a key whose value is [None] counts as a missing key: when the
    other dictionary has the key, storing [None] under it and removing it
    give the same difference. *)
Theorem difference_None_value (a b : gmap string json) key :
  is_Some (b !! key) →
  difference (JDict (<[key := JNull]> a)) (JDict b) =
    difference (JDict (delete key a)) (JDict b) ∧
  difference (JDict b) (JDict (<[key := JNull]> a)) =
    difference (JDict b) (JDict (delete key a)).
Proof.
  intros Hb. rewrite !difference_unfold. cbn [is_None type].
  rewrite !bool_decide_eq_false_2 by (intros Hne; by apply Hne).
  assert (∀ k, get (<[key := JNull]> a) k = get (delete key a) k) as Hget.
  { intros k. unfold get. destruct (decide (key = k)) as [->|Hne].
    - by rewrite lookup_insert_eq, lookup_delete_eq.
    - by rewrite lookup_insert_ne, lookup_delete_ne. }
  assert (dom (<[key := JNull]> a) ∪ dom b = dom (delete key a) ∪ dom b) as Hdom.
  { apply elem_of_dom in Hb. rewrite dom_insert_L, dom_delete_L.
    apply set_eq. intros k. rewrite !elem_of_union, elem_of_difference,
      !elem_of_singleton.
    destruct (decide (k = key)) as [->|Hne]; [|tauto].
    split; intros _; by right. }
  split; f_equal; apply map_eq; intros k; rewrite !lookup_difference_dict.
  - rewrite Hdom, Hget. done.
  - rewrite (union_comm_L (dom b)), Hdom, (union_comm_L _ (dom b)), Hget. done.
Qed.

Lemma difference_None_value_witness :
  is_Some (({[ "a" := JInt 1 ]} : gmap string json) !! "a") ∧
  difference (JDict (<["a" := JNull]> ∅)) (JDict {[ "a" := JInt 1 ]}) =
    difference (JDict (delete "a" ∅)) (JDict {[ "a" := JInt 1 ]}) ∧
  difference (JDict {[ "a" := JInt 1 ]}) (JDict (<["a" := JNull]> ∅)) =
    difference (JDict {[ "a" := JInt 1 ]}) (JDict (delete "a" ∅)).
Proof.
  split; [by eexists|].
  apply (difference_None_value ∅ {[ "a" := JInt 1 ]} "a"). by eexists.
Defined.

(** X4: [list_differences] leaves the key stack as it found it, keeps the
    lines printed before, and prints lines whose key stacks extend the one
    it was called with. *)
Theorem list_differences_stack diff st :
  key_stack (list_differences diff st) = key_stack st ∧
  ∃ new, printed (list_differences diff st) = printed st ++ new ∧
         Forall (λ r, key_stack st `prefix_of` row_keys r) new.
Proof.
  rewrite list_differences_rows. simpl. split; [done|].
  eexists. split; [done|]. apply Forall_fmap, Forall_forall.
  intros r _. simpl. rewrite foldr_under. simpl. by eexists.
Qed.

(** *** The lines printed below a dictionary or a list *)

Lemma elem_of_dict_rows (d : gmap string json) r :
  r ∈ map_fold (λ key v acc, acc ++ (under key <$> rows_of v)) [] d ↔
  ∃ key v r', d !! key = Some v ∧ r' ∈ rows_of v ∧ r = under key r'.
Proof.
  revert r.
  apply (map_fold_weak_ind
    (λ acc (m : gmap string json), ∀ r,
       r ∈ acc ↔ ∃ key v r', m !! key = Some v ∧ r' ∈ rows_of v ∧ r = under key r')).
  - intros r. split; [by intros ?%elem_of_nil|].
    intros (key & v & r' & Hk & _). by rewrite lookup_empty in Hk.
  - intros i x m acc Hi IH r. rewrite elem_of_app, IH, list_elem_of_fmap. split.
    + intros [(key & v & r' & Hk & Hr & ->)|(r' & -> & Hr)].
      * exists key, v, r'. split; [|done].
        rewrite lookup_insert_ne; [done|]. intros ->. congruence.
      * exists i, x, r'. by rewrite lookup_insert_eq.
    + intros (key & v & r' & Hk & Hr & ->).
      destruct (decide (i = key)) as [->|Hne].
      * rewrite lookup_insert_eq in Hk. injection Hk as <-. right. by exists r'.
      * rewrite lookup_insert_ne in Hk by done. left. by exists key, v, r'.
Qed.

Lemma elem_of_list_rows (l : list json) r : ∀ i,
  r ∈ list_rows l i [] ↔
  ∃ j v r', l !! j = Some v ∧ r' ∈ rows_of v ∧ r = under (list_key (i + j)) r'.
Proof.
  induction l as [|x l IH]; intros i.
  - split; [by intros ?%elem_of_nil|]. by intros (j & v & r' & Hj & _).
  - rewrite list_rows_cons, elem_of_app, IH, list_elem_of_fmap. split.
    + intros [(r' & -> & Hr)|(j & v & r' & Hj & Hr & ->)].
      * exists 0, x, r'. by rewrite Nat.add_0_r.
      * exists (S j), v, r'. split; [done|]. split; [done|].
        by replace (i + S j) with (S i + j) by lia.
    + intros ([|j] & v & r' & Hj & Hr & ->); simpl in Hj.
      * injection Hj as <-. left. exists r'. by rewrite Nat.add_0_r.
      * right. exists j, v, r'. split; [done|]. split; [done|].
        by replace (i + S j) with (S i + j) by lia.
Qed.

Lemma list_child_lookup (l : list json) v : ∀ i j,
  l !! j = Some v → list_child l i (list_key (i + j)) = Some v.
Proof.
  induction l as [|x l IH]; intros i j Hj; [done|]. simpl.
  destruct j as [|j]; simpl in Hj.
  - injection Hj as <-. by rewrite Nat.add_0_r, decide_True.
  - rewrite decide_False.
    + replace (i + S j) with (S i + j) by lia. by apply IH.
    + intros Heq%list_key_inj. lia.
Qed.

Lemma rows_of_marker diff : ∀ r,
  r ∈ rows_of diff →
  ∃ d, node_at diff (row_keys r) = Some (JDict d) ∧ is_marker d = true ∧
       row_b r = get d B_SIDE ∧ row_a r = get d A_SIDE.
Proof.
  induction diff as [| | | | |l IH|d IH] using json_rect'; intros r;
    try by intros ?%elem_of_nil.
  - cbn [rows_of]. intros (j & v & r' & Hj & Hr & ->)%elem_of_list_rows.
    rewrite Forall_forall in IH.
    destruct (IH v (list_elem_of_lookup_2 _ _ _ Hj) r' Hr) as (m & Hm & ?).
    exists m. split; [|done].
    pose proof (list_child_lookup l v 0 j Hj) as Hc.
    change (0 + j) with j in *. cbn [under row_keys node_at child].
    by rewrite Hc.
  - cbn [rows_of]. destruct (is_marker d) eqn:Hmark.
    + intros ->%list_elem_of_singleton. by exists d.
    + intros (key & v & r' & Hk & Hr & ->)%elem_of_dict_rows.
      destruct (IH key v Hk r' Hr) as (m & Hm & ?).
      exists m. split; [|done]. cbn [under row_keys node_at child].
      by rewrite Hk.
Qed.

(** X5: every line that [list_differences] prints stands for a marker of
    the value: its key stack leads to a dictionary with a reserved key, its
    second column is what that dictionary holds under [B_SIDE] and its
    third what it holds under [A_SIDE], [None] standing for a missing side. *)
Theorem printed_row_marker diff r :
  r ∈ list_differences_main diff →
  ∃ d, node_at diff (row_keys r) = Some (JDict d) ∧ is_marker d = true ∧
       row_b r = get d B_SIDE ∧ row_a r = get d A_SIDE.
Proof. rewrite list_differences_main_rows. apply rows_of_marker. Qed.

Lemma printed_row_marker_witness :
  Row ["a"; "List[1]"] (JInt 3) (JInt 2)
    ∈ list_differences_main (difference sample_a sample_b) ∧
  ∃ d, node_at (difference sample_a sample_b) ["a"; "List[1]"] = Some (JDict d) ∧
       is_marker d = true ∧ JInt 3 = get d B_SIDE ∧ JInt 2 = get d A_SIDE.
Proof.
  assert (Row ["a"; "List[1]"] (JInt 3) (JInt 2)
            ∈ list_differences_main (difference sample_a sample_b)) as Hin
    by (vm_compute; left).
  split; [done|].
  apply (printed_row_marker (difference sample_a sample_b)
           (Row ["a"; "List[1]"] (JInt 3) (JInt 2)) Hin).
Defined.

(** *** When nothing is printed *)

Lemma list_nil_iff {A} (l : list A) : l = [] ↔ ∀ x, x ∉ l.
Proof.
  split; [intros -> x; apply not_elem_of_nil|].
  destruct l as [|x l]; [done|]. intros Hall. destruct (Hall x). left.
Qed.

Lemma list_rows_nil (l : list json) :
  list_rows l 0 [] = [] ↔ Forall (λ v, rows_of v = []) l.
Proof.
  rewrite list_nil_iff, Forall_lookup. split.
  - intros Hnone j v Hj. apply list_nil_iff. intros r' Hr.
    apply (Hnone (under (list_key (0 + j)) r')), elem_of_list_rows.
    by exists j, v, r'.
  - intros Hall r (j & v & r' & Hj & Hr & _)%elem_of_list_rows.
    rewrite (Hall j v Hj) in Hr. by apply elem_of_nil in Hr.
Qed.

Lemma dict_rows_nil (d : gmap string json) :
  map_fold (λ key v acc, acc ++ (under key <$> rows_of v)) [] d = [] ↔
  map_Forall (λ _ v, rows_of v = []) d.
Proof.
  rewrite list_nil_iff. split.
  - intros Hnone key v Hk. apply list_nil_iff. intros r' Hr.
    apply (Hnone (under key r')), elem_of_dict_rows. by exists key, v, r'.
  - intros Hall r (key & v & r' & Hk & Hr & _)%elem_of_dict_rows.
    rewrite (Hall key v Hk) in Hr. by apply elem_of_nil in Hr.
Qed.

Lemma rows_of_both_sides x y : rows_of (both_sides x y) ≠ [].
Proof. done. Qed.

Lemma rows_of_only_a x : rows_of (only_a x) ≠ [].
Proof. done. Qed.

Lemma rows_of_missing_a y : rows_of (missing_a y) ≠ [].
Proof. unfold missing_a. by destruct (is_None y). Qed.

Lemma same_value_type a b : same_value a b → type a = type b.
Proof. by destruct 1. Qed.

Lemma null_free_lookup (d : gmap string json) key v :
  null_free (JDict d) = true → d !! key = Some v → null_free v = true.
Proof. simpl. intros Hd%map_fold_andb Hk. by apply (Hd key). Qed.

Lemma marker_free_lookup (d : gmap string json) key v :
  marker_free (JDict d) = true → d !! key = Some v → marker_free v = true.
Proof. intros Hd Hk. by apply (marker_free_child (JDict d) key). Qed.

Lemma null_free_elem (l : list json) i v :
  null_free (JList l) = true → l !! i = Some v → null_free v = true.
Proof.
  simpl. intros Hl%forallb_Forall Hi. rewrite Forall_lookup in Hl. by eapply Hl.
Qed.

Lemma marker_free_elem (l : list json) i v :
  marker_free (JList l) = true → l !! i = Some v → marker_free v = true.
Proof.
  simpl. intros Hl%forallb_Forall Hi. rewrite Forall_lookup in Hl. by eapply Hl.
Qed.

Lemma rows_of_difference_nil a : ∀ b_side,
  null_free a = true → null_free b_side = true →
  marker_free a = true → marker_free b_side = true →
  rows_of (difference a b_side) = [] ↔ same_value a b_side.
Proof.
  induction a as [| | | | |la IH|da IH] using json_rect';
    intros b_side Ha Hb Hma Hmb; try done.
  all: rewrite difference_unfold, (not_None_null_free _ Hb).
  all: cbn [is_None].
  all: case_bool_decide as Hty;
    [split; [by intros ?%rows_of_both_sides|
             by intros ?%same_value_type]|].
  all: destruct b_side as [| | | | |lb|db]; try discriminate Hty.
  1-4: destruct (py_eq _ _) eqn:Heq;
    [split; [intros _; by apply same_leaf|done]|
     split; [by intros ?%rows_of_both_sides|
             inversion 1; congruence]].
  - (* lists *)
    cbn [rows_of]. rewrite list_rows_nil, Forall_lookup.
    setoid_rewrite list_lookup_fmap. setoid_rewrite zip_longest_lookup.
    rewrite Forall_lookup in IH. split.
    + intros Hnil. apply same_list, Forall2_same_length_lookup_2.
      * destruct (decide (length la = length lb)) as [|Hne]; [done|].
        exfalso. destruct (decide (length la < length lb)).
        -- destruct (lookup_lt_is_Some_2 lb (length la)) as [y Hy]; [lia|].
           apply (rows_of_missing_a y), (Hnil (length la)).
           rewrite (lookup_ge_None_2 la) by lia. rewrite Hy.
           change (Some (difference JNull y) = Some (missing_a y)).
           by rewrite difference_None_l.
        -- destruct (lookup_lt_is_Some_2 la (length lb)) as [x Hx]; [lia|].
           apply (rows_of_only_a x), (Hnil (length lb)).
           rewrite (lookup_ge_None_2 lb) by lia. rewrite Hx.
           change (Some (difference x JNull) = Some (only_a x)).
           by rewrite difference_None_r.
      * intros i x y Hx Hy. apply (IH i x Hx).
        -- apply (null_free_elem la i x Ha Hx).
        -- apply (null_free_elem lb i y Hb Hy).
        -- apply (marker_free_elem la i x Hma Hx).
        -- apply (marker_free_elem lb i y Hmb Hy).
        -- apply (Hnil i). by rewrite Hx, Hy.
    + inversion 1 as [? ? _ Hnl| ? ? Hall|]; subst; [by destruct Hnl|].
      intros i v Hv.
      destruct (la !! i) as [x|] eqn:Hx, (lb !! i) as [y|] eqn:Hy;
        simpl in Hv; try done.
      * injection Hv as <-. apply (IH i x Hx).
        -- apply (null_free_elem la i x Ha Hx).
        -- apply (null_free_elem lb i y Hb Hy).
        -- apply (marker_free_elem la i x Hma Hx).
        -- apply (marker_free_elem lb i y Hmb Hy).
        -- apply (Forall2_lookup_lr _ _ _ _ _ _ Hall Hx Hy).
      * apply Forall2_length in Hall. apply lookup_lt_Some in Hx.
        apply lookup_ge_None in Hy. lia.
      * apply Forall2_length in Hall. apply lookup_lt_Some in Hy.
        apply lookup_ge_None in Hx. lia.
  - (* dictionaries *)
    pose proof Hma as Hma'. pose proof Hmb as Hmb'. simpl in Hma', Hmb'.
    apply andb_true_iff in Hma' as [[HaB HaA]%negb_true_iff%is_marker_false _].
    apply andb_true_iff in Hmb' as [[HbB HbA]%negb_true_iff%is_marker_false _].
    assert (∀ key, key ∈ dom da ∪ dom db ↔
              is_Some (da !! key) ∨ is_Some (db !! key)) as Hdom.
    { intros key. by rewrite elem_of_union, !elem_of_dom. }
    cbn [rows_of]. rewrite (proj2 (is_marker_false _)).
    2:{ rewrite !lookup_difference_dict. split; case_decide as Hin; try done.
        - apply Hdom in Hin as [[? ?]|[? ?]]; congruence.
        - apply Hdom in Hin as [[? ?]|[? ?]]; congruence. }
    rewrite dict_rows_nil. split.
    + intros Hnil. apply same_dict. intros key.
      pose proof (Hnil key) as Hkey. rewrite lookup_difference_dict in Hkey.
      destruct (da !! key) as [x|] eqn:Hx, (db !! key) as [y|] eqn:Hy.
      * constructor. apply (IH key x Hx).
        -- apply (null_free_lookup da key x Ha Hx).
        -- apply (null_free_lookup db key y Hb Hy).
        -- apply (marker_free_lookup da key x Hma Hx).
        -- apply (marker_free_lookup db key y Hmb Hy).
        -- rewrite decide_True in Hkey by (apply Hdom; rewrite Hx; eauto).
           specialize (Hkey _ eq_refl). unfold get in Hkey.
           by rewrite Hx, Hy in Hkey.
      * exfalso. rewrite decide_True in Hkey by (apply Hdom; rewrite Hx; eauto).
        specialize (Hkey _ eq_refl). unfold get in Hkey.
        rewrite Hx, Hy in Hkey. change (rows_of (difference x JNull) = []) in Hkey.
        rewrite difference_None_r in Hkey. by apply rows_of_only_a in Hkey.
      * exfalso. rewrite decide_True in Hkey by (apply Hdom; rewrite Hy; eauto).
        specialize (Hkey _ eq_refl). unfold get in Hkey.
        rewrite Hx, Hy in Hkey. change (rows_of (difference JNull y) = []) in Hkey.
        rewrite difference_None_l in Hkey. by apply rows_of_missing_a in Hkey.
      * constructor.
    + inversion 1 as [? ? _ _ Hnd| |? ? Hall]; subst; [by destruct Hnd|].
      intros key v. rewrite lookup_difference_dict.
      case_decide as Hin; [|done]. intros [= <-].
      specialize (Hall key). unfold get.
      destruct (da !! key) as [x|] eqn:Hx, (db !! key) as [y|] eqn:Hy;
        inversion Hall; subst; simpl.
      * apply (IH key x Hx); [..|done].
        -- apply (null_free_lookup da key x Ha Hx).
        -- apply (null_free_lookup db key y Hb Hy).
        -- apply (marker_free_lookup da key x Hma Hx).
        -- apply (marker_free_lookup db key y Hmb Hy).
      * apply Hdom in Hin as [[? ?]|[? ?]]; congruence.
Qed.

(** X6: for documents without [None], NaN and reserved keys, list mode
    prints no line exactly when the two documents have the same keys, the
    same lengths and the same types throughout, and leaves that [==] finds
    equal. *)
Theorem no_row_iff_same_value a b :
  null_free a = true → null_free b = true →
  marker_free a = true → marker_free b = true →
  list_differences_main (difference a b) = [] ↔ same_value a b.
Proof.
  intros. rewrite list_differences_main_rows. by apply rows_of_difference_nil.
Qed.

Lemma no_row_iff_same_value_witness :
  null_free sample_a = true ∧ null_free sample_b = true ∧
  marker_free sample_a = true ∧ marker_free sample_b = true ∧
  (list_differences_main (difference sample_a sample_b) = [] ↔
   same_value sample_a sample_b).
Proof.
  repeat (split; [reflexivity|]).
  apply (no_row_iff_same_value sample_a sample_b); reflexivity.
Defined.

(** X7: a dictionary that has the key [A_SIDE] or [B_SIDE] itself is read
    as a marker: comparing such a document with itself prints one line,
    although nothing differs. *)
Theorem reserved_key_prints_row (d : gmap string json) :
  null_free (JDict d) = true → is_marker d = true →
  list_differences_main (difference (JDict d) (JDict d)) =
    [Row [] (get d B_SIDE) (get d A_SIDE)].
Proof.
  intros Hd Hm. rewrite difference_diag by done.
  rewrite list_differences_main_rows. cbn [rows_of]. by rewrite Hm.
Qed.

Lemma reserved_key_prints_row_witness :
  null_free (JDict sample_reserved) = true ∧ is_marker sample_reserved = true ∧
  list_differences_main
    (difference (JDict sample_reserved) (JDict sample_reserved)) =
    [Row [] (get sample_reserved B_SIDE) (get sample_reserved A_SIDE)].
Proof.
  split; [reflexivity|]. split; [reflexivity|].
  apply (reserved_key_prints_row sample_reserved); reflexivity.
Defined.

End JsonDiffProofs.

Module SKMeansProofs.
Import SKMeans.
Local Open Scope Z_scope.

(** *** Binary64 arithmetic *)

Lemma SFcompare_finite_refl s m e :
  SFcompare (S754_finite s m e) (S754_finite s m e) = Some Eq.
Proof.
  simpl. destruct s; by rewrite Z.compare_refl, Pos.compare_cont_refl.
Qed.

Lemma is_finite_spec x : PrimFloat.is_finite x = SFfinite (Prim2SF x).
Proof.
  unfold PrimFloat.is_finite, PrimFloat.is_nan, PrimFloat.is_infinity.
  rewrite !FloatAxioms.eqb_spec, FloatAxioms.abs_spec.
  change (Prim2SF infinity) with (S754_infinity false).
  destruct (Prim2SF x) as [s|s| |s m e]; try done.
  - by destruct s.
  - unfold SFeqb at 1. by rewrite SFcompare_finite_refl.
Qed.

Lemma is_finite_abs x :
  PrimFloat.is_finite x = true → PrimFloat.is_finite (PrimFloat.abs x) = true.
Proof. rewrite !is_finite_spec, FloatAxioms.abs_spec. by destruct (Prim2SF x). Qed.

Lemma abs_nonneg x :
  PrimFloat.is_finite x = true →
  SFfinite (Prim2SF (PrimFloat.abs x)) = true ∧
  SFnonneg (Prim2SF (PrimFloat.abs x)) = true.
Proof. rewrite is_finite_spec, FloatAxioms.abs_spec. by destruct (Prim2SF x). Qed.

(** Rounding keeps the sign of a mantissa. *)
Lemma shr_1_nonneg mrs : 0 ≤ shr_m mrs → 0 ≤ shr_m (shr_1 mrs).
Proof. destruct mrs as [[|[p|p|]|[p|p|]] r s]; simpl; lia. Qed.

Lemma iter_shr_1_nonneg p : ∀ mrs,
  0 ≤ shr_m mrs → 0 ≤ shr_m (SpecFloat.iter_pos shr_1 p mrs).
Proof.
  induction p as [p IH|p IH|]; intros mrs Hm; simpl.
  - by apply IH, IH, shr_1_nonneg.
  - by apply IH, IH.
  - by apply shr_1_nonneg.
Qed.

Lemma shr_fexp_nonneg m e l :
  0 ≤ m → 0 ≤ shr_m (fst (shr_fexp prec emax m e l)).
Proof.
  intros Hm. unfold shr_fexp, shr.
  assert (0 ≤ shr_m (shr_record_of_loc m l)) as Hrec by (by destruct l as [|[]]).
  destruct (_ - e); simpl; [done| |done]. by apply iter_shr_1_nonneg.
Qed.

Lemma round_nearest_even_nonneg m l : 0 ≤ m → 0 ≤ round_nearest_even m l.
Proof.
  intros Hm. destruct l as [|[]]; simpl; try lia. destruct (Z.even m); lia.
Qed.

Lemma binary_round_aux_nonneg m e l :
  0 ≤ m → SFnonneg (binary_round_aux prec emax false m e l) = true.
Proof.
  intros Hm. unfold binary_round_aux.
  pose proof (shr_fexp_nonneg m e l Hm) as H1.
  destruct (shr_fexp prec emax m e l) as [mrs' e']. simpl in H1.
  pose proof (shr_fexp_nonneg _ e' loc_Exact
                (round_nearest_even_nonneg _ (loc_of_shr_record mrs') H1)) as H2.
  destruct (shr_fexp prec emax _ e' loc_Exact) as [mrs'' e'']. simpl in H2.
  destruct (shr_m mrs''); [done| |lia]. by destruct (_ <=? _).
Qed.

(** The sign of a product, a sum, a square root and a quotient of floats
    that are not negative. *)
Lemma SFmul_nonneg x y :
  SFfinite x = true → SFnonneg x = true →
  SFfinite y = true → SFnonneg y = true →
  SFnonneg (SF64mul x y) = true.
Proof.
  destruct x as [sx|sx| |[] mx ex], y as [sy|sy| |[] my ey]; try done.
  intros _ _ _ _. by apply binary_round_aux_nonneg.
Qed.

Lemma SFadd_nonneg x y :
  SFnonneg x = true → SFnonneg y = true → SFnonneg (SF64add x y) = true.
Proof.
  destruct x as [[]|[]| |[] mx ex], y as [[]|[]| |[] my ey]; try done.
  intros _ _. unfold SF64add, SFadd. simpl.
  unfold binary_round.
  destruct (shl_align _ _ _) as [mz ez]. by apply binary_round_aux_nonneg.
Qed.

Lemma SFsqrt_nonneg x : SFnonneg x = true → SFnonneg (SF64sqrt x) = true.
Proof.
  destruct x as [[]|[]| |[] mx ex]; try done. intros _.
  unfold SF64sqrt, SFsqrt, SFsqrt_core_binary.
  set (s := ex - _). set (m' := match s with Z.pos _ => _ | _ => _ end).
  assert (0 ≤ m') as Hm'.
  { unfold m'. destruct s; try lia. apply Z.shiftl_nonneg. lia. }
  pose proof (Z.sqrtrem_spec m' Hm') as Hq.
  destruct (Z.sqrtrem m') as [q r]. apply binary_round_aux_nonneg. lia.
Qed.

Lemma SFdiv_nonneg x y :
  SFfinite x = true → SFnonneg x = true → SFpositive y = true →
  SFnonneg (SF64div x y) = true.
Proof.
  destruct x as [sx|sx| |[] mx ex], y as [sy|[]| |[] my ey]; try done.
  intros _ _ _. unfold SF64div, SFdiv, SFdiv_core_binary.
  set (s := _ - _ - _). set (m' := match s with Z.pos _ => _ | _ => _ end).
  assert (0 ≤ m') as Hm'.
  { unfold m'. destruct s; try lia. apply Z.shiftl_nonneg. lia. }
  pose proof (Z.div_pos m' (Z.pos my) Hm' ltac:(lia)) as Hq.
  unfold Z.div in Hq. destruct (Z.div_eucl m' (Z.pos my)) as [q r].
  by apply binary_round_aux_nonneg.
Qed.

Lemma nonneg_spec x : SFnonneg (Prim2SF x) = true → nonneg x = true.
Proof.
  unfold nonneg. rewrite FloatAxioms.leb_spec.
  change (Prim2SF 0) with (S754_zero false).
  by destruct (Prim2SF x) as [s|[]| |[] m e].
Qed.


(** *** The order of binary64 *)

(** [SFcompare] is the lexicographic order of the keys. *)
Lemma SFcompare_key x y :
  x ≠ S754_nan → y ≠ S754_nan →
  match SFcompare x y with
  | Some Lt => key_lt (SFkey x) (SFkey y)
  | Some Eq => SFkey x = SFkey y
  | Some Gt => key_lt (SFkey y) (SFkey x)
  | None => False
  end.
Proof.
  intros Hx Hy. unfold key_lt.
  destruct x as [sx|[]| |[] mx ex], y as [sy|[]| |[] my ey];
    try done; simpl; try lia.
  - destruct (Z.compare_spec ex ey) as [->|?|?]; simpl; try lia.
    change (Pos.compare_cont Eq mx my) with (Pos.compare mx my).
    destruct (Pos.compare_spec mx my) as [->|?|?]; simpl; [done|lia..].
  - destruct (Z.compare_spec ex ey) as [->|?|?]; simpl; try lia.
    change (Pos.compare_cont Eq mx my) with (Pos.compare mx my).
    destruct (Pos.compare_spec mx my) as [->|?|?]; simpl; [done|lia..].
Qed.

Lemma key_lt_irrefl a : ¬ key_lt a a.
Proof. unfold key_lt. lia. Qed.

Lemma key_lt_asym a b : key_lt a b → ¬ key_lt b a.
Proof. unfold key_lt. lia. Qed.

Lemma SFltb_key x y :
  x ≠ S754_nan → y ≠ S754_nan →
  SFltb x y = true ↔ key_lt (SFkey x) (SFkey y).
Proof.
  intros Hx Hy. pose proof (SFcompare_key x y Hx Hy) as Hc. unfold SFltb.
  destruct (SFcompare x y) as [[]|]; try done; split; try done.
  - intros Hlt. rewrite Hc in Hlt. by apply key_lt_irrefl in Hlt.
  - intros Hlt. by apply key_lt_asym in Hlt.
Qed.

Lemma SFleb_key x y :
  x ≠ S754_nan → y ≠ S754_nan →
  SFleb x y = true ↔ key_lt (SFkey x) (SFkey y) ∨ SFkey x = SFkey y.
Proof.
  intros Hx Hy. pose proof (SFcompare_key x y Hx Hy) as Hc. unfold SFleb.
  destruct (SFcompare x y) as [[]|]; try done; split; try done; auto.
  intros [Hlt|Heq].
  - by apply key_lt_asym in Hlt.
  - rewrite Heq in Hc. by apply key_lt_irrefl in Hc.
Qed.

Lemma is_nan_spec x : PrimFloat.is_nan x = false ↔ Prim2SF x ≠ S754_nan.
Proof.
  unfold PrimFloat.is_nan. rewrite FloatAxioms.eqb_spec.
  destruct (Prim2SF x) as [s|s| |s m e]; simpl; try done.
  - by destruct s.
  - unfold SFeqb. simpl. destruct s; rewrite Z.compare_refl, Pos.compare_cont_refl; done.
Qed.

Lemma leb_false_ltb x y :
  PrimFloat.is_nan x = false → PrimFloat.is_nan y = false →
  PrimFloat.leb x y = false → PrimFloat.ltb y x = true.
Proof.
  rewrite !is_nan_spec, FloatAxioms.leb_spec, FloatAxioms.ltb_spec.
  intros Hx Hy Hle. apply SFltb_key; [done..|].
  assert (¬ (key_lt (SFkey (Prim2SF x)) (SFkey (Prim2SF y)) ∨
             SFkey (Prim2SF x) = SFkey (Prim2SF y))) as Hn.
  { rewrite <-SFleb_key by done. congruence. }
  unfold key_lt in *.
  destruct (SFkey (Prim2SF x)) as [[a e] m], (SFkey (Prim2SF y)) as [[a' e'] m'].
  simpl in *.
  destruct (decide (a = a')), (decide (e = e')), (decide (m = m')); subst; try lia.
  exfalso. apply Hn. by right.
Qed.

Lemma leb_ltb_trans x y z :
  PrimFloat.is_nan x = false → PrimFloat.is_nan y = false →
  PrimFloat.is_nan z = false →
  PrimFloat.leb x y = true → PrimFloat.ltb y z = true → PrimFloat.ltb x z = true.
Proof.
  rewrite !is_nan_spec, FloatAxioms.leb_spec, !FloatAxioms.ltb_spec.
  intros Hx Hy Hz. rewrite SFleb_key, !SFltb_key by done.
  unfold key_lt. intros [Hlt|Heq] Hyz; [lia|]. by rewrite Heq.
Qed.

Lemma ltb_leb x y :
  PrimFloat.is_nan x = false → PrimFloat.is_nan y = false →
  PrimFloat.ltb x y = true → PrimFloat.leb x y = true.
Proof.
  rewrite !is_nan_spec, FloatAxioms.leb_spec, !FloatAxioms.ltb_spec.
  intros Hx Hy. rewrite SFleb_key, SFltb_key by done. auto.
Qed.

Lemma leb_refl x : PrimFloat.is_nan x = false → PrimFloat.leb x x = true.
Proof.
  rewrite is_nan_spec, FloatAxioms.leb_spec. intros Hx.
  apply SFleb_key; auto.
Qed.

(** *** Norms *)

Lemma length_normalize_row (v : vec) : length (normalize_row v) = length v.
Proof. unfold normalize_row. by rewrite length_fmap. Qed.

Lemma fsum_nonneg (xs : list float) : ∀ acc,
  SFnonneg (Prim2SF acc) = true →
  Forall (λ x, SFnonneg (Prim2SF x) = true) xs →
  SFnonneg (Prim2SF (foldl PrimFloat.add acc xs)) = true.
Proof.
  induction xs as [|x xs IH]; intros acc Hacc Hxs; [done|].
  apply Forall_cons in Hxs as [Hx Hxs]. simpl. apply IH; [|done].
  rewrite FloatAxioms.add_spec. by apply SFadd_nonneg.
Qed.

Lemma norm_nonneg (v : vec) :
  Forall (λ x, SFfinite (Prim2SF x) = true ∧ SFnonneg (Prim2SF x) = true) v →
  SFnonneg (Prim2SF (norm v)) = true.
Proof.
  intros Hv. unfold norm, sq_norm, dot, fsum.
  rewrite FloatAxioms.sqrt_spec. apply SFsqrt_nonneg, fsum_nonneg; [done|].
  induction Hv as [|x v [Hf Hn] _ IH]; simpl; constructor; [|done].
  rewrite FloatAxioms.mul_spec. by apply SFmul_nonneg.
Qed.

Lemma handle_zeros_in_scale_positive n :
  SFnonneg (Prim2SF n) = true →
  SFpositive (Prim2SF (handle_zeros_in_scale n)) = true.
Proof.
  intros Hn. unfold handle_zeros_in_scale.
  destruct (PrimFloat.ltb n tiny) eqn:Hlt; [done|].
  rewrite FloatAxioms.ltb_spec in Hlt.
  change (Prim2SF tiny) with (S754_finite false 5629499534213120 (-101)) in Hlt.
  by destruct (Prim2SF n) as [s|[]| |[] m e].
Qed.

(** The normalization of a row of finite floats that are not negative has
    no negative entry and no NaN. *)
Lemma normalize_row_nonneg (v : vec) :
  Forall (λ x, SFfinite (Prim2SF x) = true ∧ SFnonneg (Prim2SF x) = true) v →
  Forall (λ x, nonneg x = true) (normalize_row v).
Proof.
  intros Hv. unfold normalize_row. apply Forall_fmap.
  pose proof (handle_zeros_in_scale_positive _ (norm_nonneg v Hv)) as Hn.
  eapply Forall_impl; [done|]. intros x [Hf Hx]. simpl.
  apply nonneg_spec. rewrite FloatAxioms.div_spec. by apply SFdiv_nonneg.
Qed.





(** *** The NumPy operations on well-shaped arguments *)

Lemma slice_to_take {A} (n : Z) (a : list A) :
  0 ≤ n → slice_to n a = take (Z.to_nat n) a.
Proof. intros Hn. unfold slice_to. by rewrite bool_decide_eq_true_2. Qed.

Lemma py_index_in_range (len : nat) (i : Z) :
  0 ≤ i < Z.of_nat len → py_index len i = Ok (Z.to_nat i).
Proof. intros Hi. unfold py_index. by rewrite bool_decide_eq_true_2. Qed.

Lemma normalize_Ok (v : vec) :
  (0 < length v)%nat → finite_row v = true → normalize v = Ok (normalize_row v).
Proof. destruct v; simpl; [lia|]. by intros _ ->. Qed.

(** [normalize] returns for the rows of finite floats that have an entry,
    and for no other. *)
Lemma normalize_inv (v w : vec) :
  normalize v = Ok w →
  w = normalize_row v ∧ (0 < length v)%nat ∧ finite_row v = true.
Proof.
  unfold normalize. destruct v as [|x v]; [done|].
  destruct (finite_row (x :: v)); [|done]. intros [= <-]. simpl.
  repeat split; lia.
Qed.

Lemma normalize_Raise (v : vec) :
  finite_row v = false → normalize v = Raise ValueError.
Proof. destruct v; [done|]. unfold normalize. by intros ->. Qed.

Lemma assign_row_Ok (a : list vec) j old (v : vec) :
  a !! j = Some old → length v = length old →
  assign_row a j v = Ok (<[j := v]> a).
Proof.
  intros Hj Hlen. unfold assign_row, broadcast_row. rewrite Hj. simpl.
  by rewrite bool_decide_eq_true_2.
Qed.

Lemma set_item_Ok (a : list vec) (i : Z) old (v : vec) :
  0 ≤ i → a !! Z.to_nat i = Some old → length v = length old →
  set_item a i v = Ok (<[Z.to_nat i := v]> a).
Proof.
  intros Hi Hold Hlen. unfold set_item.
  rewrite py_index_in_range; [by eapply assign_row_Ok|].
  apply lookup_lt_Some in Hold. lia.
Qed.

Lemma Forall_rows_insert (n : nat) (a : list vec) j (v : vec) :
  Forall (λ r : vec, length r = n) a → length v = n →
  Forall (λ r : vec, length r = n) (<[j := v]> a).
Proof. intros Ha Hv. by apply Forall_insert. Qed.

Lemma for_each_app {A St} (body : A → St → result St) xs ys st :
  for_each body (xs ++ ys) st = st' ← for_each body xs st; for_each body ys st'.
Proof.
  revert st. induction xs as [|x xs IH]; intros st; simpl; [done|].
  destruct (body x st) as [st'|e]; simpl; [apply IH|done].
Qed.

(** A loop over [range(i0, i0 + n)] whose body keeps an invariant returns,
    and the invariant holds at the end. *)
Lemma for_each_seq_inv {St} (body : nat → St → result St)
    (P : nat → St → Prop) (n : nat) : ∀ (i0 : nat) (st : St),
  P i0 st →
  (∀ i st, (i0 ≤ i < i0 + n)%nat → P i st →
           ∃ st', body i st = Ok st' ∧ P (S i) st') →
  ∃ st', for_each body (seq i0 n) st = Ok st' ∧ P (i0 + n)%nat st'.
Proof.
  induction n as [|n IH]; intros i0 st Hst Hbody; simpl.
  - exists st. by rewrite Nat.add_0_r.
  - destruct (Hbody i0 st) as (st1 & -> & Hst1); [lia|done|]. simpl.
    destruct (IH (S i0) st1 Hst1) as (st' & -> & Hst').
    + intros i st2 Hi. apply Hbody. lia.
    + exists st'. split; [done|]. by replace (i0 + S n)%nat with (S i0 + n)%nat by lia.
Qed.

(** A loop over [range(i0, i0 + n)] that returns has kept every invariant
    that its body keeps when it returns. *)
Lemma for_each_seq_post {St} (body : nat → St → result St)
    (P : nat → St → Prop) (n : nat) : ∀ (i0 : nat) (st st' : St),
  P i0 st →
  (∀ i s s', (i0 ≤ i < i0 + n)%nat → P i s → body i s = Ok s' → P (S i) s') →
  for_each body (seq i0 n) st = Ok st' → P (i0 + n)%nat st'.
Proof.
  induction n as [|n IH]; intros i0 st st' Hst Hbody; simpl.
  - intros [= <-]. by rewrite Nat.add_0_r.
  - destruct (body i0 st) as [st1|] eqn:Hst1; [|done]. simpl. intros Hrun.
    replace (i0 + S n)%nat with (S i0 + n)%nat by lia.
    apply (IH (S i0) st1 st'); [|intros i s s' Hi; apply Hbody; lia|done].
    apply (Hbody i0 st st1); [lia|done..].
Qed.

Lemma assign_row_inv (a : list vec) j (v : vec) a' :
  assign_row a j v = Ok a' →
  ∃ old row, a !! j = Some old ∧ length row = length old ∧ a' = <[j := row]> a.
Proof.
  unfold assign_row, broadcast_row. destruct (a !! j) as [old|]; [|done].
  case_bool_decide as Hlen; simpl.
  - intros [= <-]. by exists old, v.
  - destruct v as [|x [|]]; try done. simpl. intros [= <-].
    exists old, (replicate (length old) x). by rewrite length_replicate.
Qed.

Lemma set_item_inv (a : list vec) (i : Z) (v : vec) a' :
  set_item a i v = Ok a' →
  ∃ j old row, a !! j = Some old ∧ length row = length old ∧ a' = <[j := row]> a.
Proof.
  unfold set_item. destruct (py_index (length a) i) as [j|]; [|done]. simpl.
  intros (old & row & ?)%assign_row_inv. by exists j, old, row.
Qed.

Lemma lookup_rows (n : nat) (a : list vec) j (r : vec) :
  Forall (λ r : vec, length r = n) a → a !! j = Some r → length r = n.
Proof.
  intros Ha Hj. rewrite Forall_forall in Ha. apply Ha.
  by eapply list_elem_of_lookup_2.
Qed.

(** *** Sums of rows *)

Lemma length_foldl_rows (n : nat) (rows : list vec) : ∀ acc : vec,
  length acc = n → Forall (λ r : vec, length r = n) rows →
  length (foldl (zip_with PrimFloat.add) acc rows) = n.
Proof.
  induction rows as [|r rows IH]; intros acc Hacc Hrows; [done|].
  apply Forall_cons in Hrows as [Hr Hrows]. simpl. apply IH; [|done].
  rewrite length_zip_with. lia.
Qed.

Lemma length_sum_axis0 (n : nat) (rows : list vec) :
  Forall (λ r : vec, length r = n) rows → length (sum_axis0 n rows) = n.
Proof. apply length_foldl_rows, length_replicate. Qed.

Lemma length_cluster_sum (n i : nat) (cls : list Z) (recs : list vec) :
  Forall (λ r : vec, length r = n) recs →
  length (cluster_sum n i cls recs) = n.
Proof.
  intros Hrecs. unfold cluster_sum. apply length_sum_axis0.
  revert cls. induction Hrecs as [|r recs Hr _ IH]; intros [|c cls]; simpl;
    try constructor; [by rewrite length_fmap|apply IH].
Qed.



(** *** Classification *)

Lemma argmax_from_lt (scores : list float) : ∀ best best_i i,
  (best_i < i)%nat → (argmax_from best best_i i scores < i + length scores)%nat.
Proof.
  induction scores as [|x scores IH]; intros best best_i i Hi; simpl; [lia|].
  destruct (PrimFloat.is_nan best); [lia|].
  destruct (negb _).
  - pose proof (IH x i (S i)). lia.
  - pose proof (IH best best_i (S i)). lia.
Qed.

Lemma argmax_lt (scores : list float) :
  scores ≠ [] → ∃ i, argmax scores = Ok i ∧ (i < length scores)%nat.
Proof.
  destruct scores as [|x scores]; [done|]. intros _. eexists. split; [done|].
  simpl. pose proof (argmax_from_lt scores x 0%nat 1%nat). lia.
Qed.

Lemma mapM_result_cons {A B} (f : A → result B) x l y ys :
  f x = Ok y → mapM f l = Ok ys → mapM f (x :: l) = Ok (y :: ys).
Proof. intros Hx Hl. cbn [mapM]. by rewrite Hx, Hl. Qed.

Lemma classify_Ok (recs meds : list vec) :
  meds ≠ [] →
  ∃ cs, classify recs meds = Ok cs ∧ length cs = length recs ∧
        Forall (λ c, 0 ≤ c < Z.of_nat (length meds)) cs.
Proof.
  intros Hmeds. unfold classify. destruct meds as [|m meds]; [done|].
  induction recs as [|r recs IH].
  - by exists [].
  - destruct IH as (cs & Hcs & Hlen & Hall).
    destruct (argmax_lt (dot r <$> m :: meds)) as (i & Hi & Hlt); [done|].
    exists (Z.of_nat i :: cs). split; [|split].
    + apply mapM_result_cons; [by rewrite Hi|done].
    + simpl. by rewrite Hlen.
    + constructor; [|done]. rewrite length_fmap in Hlt. lia.
Qed.

(** Among scores none of which is a NaN, [argmax] returns the first
    position of the greatest. *)
Lemma argmax_from_spec (scores : list float) : ∀ (prefix : list float) best best_i,
  Forall (λ x, PrimFloat.is_nan x = false) (prefix ++ scores) →
  prefix !! best_i = Some best →
  (∀ j x, prefix !! j = Some x →
          PrimFloat.leb x best = true ∧
          ((j < best_i)%nat → PrimFloat.ltb x best = true)) →
  ∃ s, (prefix ++ scores) !! argmax_from best best_i (length prefix) scores = Some s ∧
    ∀ j x, (prefix ++ scores) !! j = Some x →
      PrimFloat.leb x s = true ∧
      ((j < argmax_from best best_i (length prefix) scores)%nat →
       PrimFloat.ltb x s = true).
Proof.
  induction scores as [|y scores IH]; intros prefix best best_i Hnan Hbest Hmax.
  - rewrite app_nil_r. simpl. by exists best.
  - pose proof (lookup_lt_Some _ _ _ Hbest) as Hlt.
    rewrite Forall_forall in Hnan.
    assert (PrimFloat.is_nan best = false) as Hb.
    { apply Hnan, elem_of_app. left. by eapply list_elem_of_lookup_2. }
    assert (PrimFloat.is_nan y = false) as Hy.
    { apply Hnan, elem_of_app. right. left. }
    assert (∀ j x, prefix !! j = Some x → PrimFloat.is_nan x = false) as Hpre.
    { intros j x Hj. apply Hnan, elem_of_app. left.
      by eapply list_elem_of_lookup_2. }
    cbn [argmax_from]. rewrite Hb.
    rewrite (cons_middle y prefix scores), app_assoc.
    replace (S (length prefix)) with (length (prefix ++ [y]))
      by (rewrite length_app; simpl; lia).
    assert (Forall (λ x, PrimFloat.is_nan x = false) ((prefix ++ [y]) ++ scores))
      as Hnan'.
    { rewrite <-app_assoc. simpl. by apply Forall_forall. }
    destruct (PrimFloat.leb y best) eqn:Hle; simpl.
    + apply IH; [done|by rewrite lookup_app_l by done|].
      intros j x Hj. destruct (decide (j < length prefix)%nat) as [Hin|Hout].
      * rewrite lookup_app_l in Hj by done. by apply Hmax.
      * apply lookup_lt_Some in Hj as Hj'. rewrite length_app in Hj'.
        simpl in Hj'. assert (j = length prefix) as -> by lia.
        rewrite lookup_app_r, Nat.sub_diag in Hj by lia.
        injection Hj as <-. split; [done|lia].
    + apply IH; [done|by rewrite lookup_app_r, Nat.sub_diag by lia|].
      pose proof (leb_false_ltb y best Hy Hb Hle) as Hby.
      intros j x Hj. destruct (decide (j < length prefix)%nat) as [Hin|Hout].
      * rewrite lookup_app_l in Hj by done.
        destruct (Hmax j x Hj) as [Hxb _].
        pose proof (leb_ltb_trans x best y (Hpre j x Hj) Hb Hy Hxb Hby) as Hxy.
        split; [|done]. by apply ltb_leb; [apply (Hpre j x Hj)|..].
      * apply lookup_lt_Some in Hj as Hj'. rewrite length_app in Hj'.
        simpl in Hj'. assert (j = length prefix) as -> by lia.
        rewrite lookup_app_r, Nat.sub_diag in Hj by lia.
        injection Hj as <-. split; [by apply leb_refl|lia].
Qed.

Lemma argmax_spec (scores : list float) i :
  Forall (λ x, PrimFloat.is_nan x = false) scores →
  argmax scores = Ok i →
  ∃ s, scores !! i = Some s ∧
    ∀ j x, scores !! j = Some x →
      PrimFloat.leb x s = true ∧ ((j < i)%nat → PrimFloat.ltb x s = true).
Proof.
  destruct scores as [|y scores]; [done|]. intros Hnan [= <-].
  apply (argmax_from_spec scores [y] y 0%nat); [done..|].
  intros [|j] x Hj; [|done]. injection Hj as <-. split; [|lia].
  apply leb_refl. by apply Forall_cons in Hnan as [? _].
Qed.

Lemma classify_lookup (recs meds : list vec) : ∀ cs p r,
  classify recs meds = Ok cs → recs !! p = Some r →
  ∃ i, argmax (dot r <$> meds) = Ok i ∧ cs !! p = Some (Z.of_nat i).
Proof.
  unfold classify. destruct meds as [|m meds]; [done|].
  induction recs as [|r0 recs IH]; intros cs p r Hcs Hp; [done|].
  cbn [mapM] in Hcs.
  destruct (argmax (dot r0 <$> m :: meds)) as [i0|] eqn:Hi0; [|done].
  cbn [mbind result_bind] in Hcs.
  destruct (mapM _ recs) as [cs0|] eqn:Hcs0; [|done].
  injection Hcs as <-.
  destruct p as [|p].
  - injection Hp as <-. by exists i0.
  - by apply (IH cs0 p r).
Qed.

Section Methods.

Context (randn_stream : nat → sample).

Local Abbreviation features st := (Z.to_nat (num_features st)).

Lemma length_randn pos n : length (randn randn_stream pos n) = n.
Proof. unfold randn. by rewrite length_fmap, length_seq. Qed.

Lemma length_random_angle_at pos n :
  length (random_angle_at randn_stream pos n) = n.
Proof.
  unfold random_angle_at.
  by rewrite length_normalize_row, length_fmap, length_randn.
Qed.

Lemma finite_randn_abs pos n :
  finite_row (PrimFloat.abs <$> randn randn_stream pos n) = true.
Proof.
  unfold finite_row, randn. rewrite <-list_fmap_compose.
  generalize (seq pos n). intros l. induction l as [|i l IH]; [done|].
  rewrite fmap_cons. cbn [forallb]. rewrite IH, andb_true_r. simpl.
  apply is_finite_abs, sample_finite.
Qed.

(** A random angle has no negative coordinate and no NaN. *)
Lemma random_angle_at_nonneg pos n :
  Forall (λ x, nonneg x = true) (random_angle_at randn_stream pos n).
Proof.
  apply normalize_row_nonneg. unfold randn. rewrite <-list_fmap_compose.
  apply Forall_fmap, Forall_forall. intros i _. simpl.
  apply abs_nonneg, sample_finite.
Qed.

Lemma random_angle_Ok st :
  1 ≤ num_features st →
  _random_angle randn_stream st =
    Ok (random_angle_at randn_stream (drawn st) (features st),
        set_drawn (drawn st + features st)%nat st).
Proof.
  intros Hf. unfold _random_angle.
  rewrite bool_decide_eq_false_2 by lia.
  rewrite normalize_Ok; [done| |apply finite_randn_abs].
  rewrite length_fmap, length_randn. lia.
Qed.

Local Abbreviation randomized := (randomized randn_stream).

Lemma randomize_medoid_Ok i st :
  wf st → (i < length (_medoids st))%nat →
  randomize_medoid randn_stream i st = Ok (randomized i st).
Proof.
  intros Hwf Hi. unfold randomize_medoid.
  rewrite random_angle_Ok by apply Hwf. simpl.
  destruct (lookup_lt_is_Some_2 _ _ Hi) as [old Hold].
  erewrite assign_row_Ok; [done..|].
  rewrite length_random_angle_at.
  pose proof (wf_medoid_rows _ Hwf) as Hrows. rewrite Forall_forall in Hrows.
  symmetry. apply Hrows. by eapply list_elem_of_lookup_2.
Qed.

Lemma wf_set_medoids st (m : list vec) :
  wf st → length m = length (_medoids st) →
  Forall (λ r : vec, length r = features st) m →
  wf (set_medoids m st).
Proof.
  intros [] Hlen Hrows. constructor; simpl; try done. congruence.
Qed.

Lemma wf_set_drawn st n : wf st → wf (set_drawn n st).
Proof. intros []. by constructor. Qed.

Lemma wf_randomized i st : wf st → wf (randomized i st).
Proof.
  intros Hwf. unfold randomized. apply wf_set_medoids.
  - by apply wf_set_drawn.
  - simpl. apply length_insert.
  - simpl. apply Forall_rows_insert; [apply Hwf|apply length_random_angle_at].
Qed.

Lemma length_medoids st : wf st → length (medoids st) = Z.to_nat (k st).
Proof.
  intros Hwf. unfold medoids. pose proof (wf_k _ Hwf).
  rewrite slice_to_take, length_take, (wf_medoids _ Hwf) by lia. lia.
Qed.

Lemma length_records st : wf st → length (records st) = Z.to_nat (num_records st).
Proof.
  intros Hwf. unfold records. pose proof (wf_num_records _ Hwf).
  rewrite slice_to_take, length_take, (wf_records _ Hwf) by lia. lia.
Qed.

Lemma length_classes st : wf st → length (classes st) = Z.to_nat (num_records st).
Proof.
  intros Hwf. unfold classes. pose proof (wf_num_records _ Hwf).
  rewrite slice_to_take, length_take, (wf_classes _ Hwf) by lia. lia.
Qed.

Lemma same_data_refl st : same_data st st.
Proof. by destruct st. Qed.

Lemma same_data_randomized i st0 st :
  same_data st0 st → same_data st0 (randomized i st).
Proof. unfold same_data. intros ->. done. Qed.

(** *** [for medoid in self.medoids(): medoid[...] = self._random_angle()] *)

Lemma randomize_medoids_spec st :
  wf st →
  ∃ st', randomize_medoids randn_stream st = Ok st' ∧ wf st' ∧ same_data st st' ∧
    drawn st' = (drawn st + Z.to_nat (k st) * features st)%nat ∧
    (∀ j, (j < Z.to_nat (k st))%nat →
          _medoids st' !! j =
            Some (random_angle_at randn_stream (drawn st + j * features st)
                    (features st))) ∧
    (∀ j, (Z.to_nat (k st) ≤ j)%nat → _medoids st' !! j = _medoids st !! j).
Proof.
  intros Hwf. unfold randomize_medoids. rewrite length_medoids by done.
  destruct (for_each_seq_inv (randomize_medoid randn_stream)
    (λ i s, wf s ∧ same_data st s ∧
       drawn s = (drawn st + i * features st)%nat ∧
       (∀ j, (j < i)%nat →
          _medoids s !! j =
            Some (random_angle_at randn_stream (drawn st + j * features st)
                    (features st))) ∧
       (∀ j, (i ≤ j)%nat → _medoids s !! j = _medoids st !! j))
    (Z.to_nat (k st)) 0%nat st) as (st' & Hrun & Hst').
  - split; [done|]. split; [apply same_data_refl|].
    split; [lia|]. split; [lia|done].
  - intros i s Hi (Hs & Hsame & Hdrawn & Hlow & Hhigh).
    assert (i < length (_medoids s))%nat as Hlen.
    { rewrite Hsame in Hs. pose proof (wf_medoids _ Hs) as Hm.
      pose proof (wf_k _ Hwf). rewrite Hsame. simpl in *.
      rewrite Hm. lia. }
    exists (randomized i s). split; [by apply randomize_medoid_Ok|].
    split; [by apply wf_randomized|].
    split; [by apply same_data_randomized|].
    assert (num_features s = num_features st) as Hf by (by rewrite Hsame).
    simpl. rewrite Hf, Hdrawn. split; [lia|]. split.
    + intros j Hj. destruct (decide (j = i)) as [->|Hne].
      * by rewrite list_lookup_insert_eq.
      * rewrite list_lookup_insert_ne by done. apply Hlow. lia.
    + intros j Hj. rewrite list_lookup_insert_ne by lia. apply Hhigh. lia.
  - exists st'. destruct Hst' as (? & ? & ? & ? & ?). simpl in *. done.
Qed.
(** *** [set_k] *)

Lemma wf_set_k_field st v : wf st → 1 ≤ v ≤ max_k st → wf (set_k_field v st).
Proof. intros [] Hv. by constructor. Qed.

Lemma clamp_k_range max_k new_k : 1 ≤ max_k → 1 ≤ clamp_k max_k new_k ≤ max_k.
Proof. intros Hmax. unfold clamp_k. repeat case_bool_decide; lia. Qed.

Lemma set_k_field_id st : set_k_field (k st) st = st.
Proof. by destruct st. Qed.

Lemma set_k_shrink_spec new_k : ∀ budget st,
  (Z.to_nat (k st - new_k) ≤ budget)%nat →
  set_k_shrink budget new_k st = Ok (set_k_field (Z.min (k st) new_k) st).
Proof.
  induction budget as [|budget IH]; intros st Hb; simpl; case_bool_decide.
  - lia.
  - by rewrite Z.min_l, set_k_field_id by lia.
  - rewrite IH by (simpl; lia). simpl. f_equal.
    destruct st; unfold set_k_field; simpl in *. f_equal. lia.
  - by rewrite Z.min_l, set_k_field_id by lia.
Qed.

Lemma set_k_grow_spec new_k : ∀ budget st,
  wf st → new_k ≤ max_k st → (Z.to_nat (new_k - k st) ≤ budget)%nat →
  ∃ st', set_k_grow randn_stream budget new_k st = Ok st' ∧ wf st' ∧
    st' = set_k_field (Z.max (k st) new_k)
            (set_medoids (_medoids st') (set_drawn (drawn st') st)) ∧
    drawn st' = (drawn st + Z.to_nat (new_k - k st) * features st)%nat ∧
    (∀ j, k st ≤ j < new_k →
          _medoids st' !! Z.to_nat j =
            Some (random_angle_at randn_stream
                    (drawn st + Z.to_nat (j - k st) * features st)
                    (features st))) ∧
    (∀ j : nat, ¬ (k st ≤ Z.of_nat j < new_k) → _medoids st' !! j = _medoids st !! j).
Proof.
  induction budget as [|budget IH]; intros st Hwf Hmax Hb; simpl;
    case_bool_decide as Hk.
  - lia.
  - exists st. split; [done|]. split; [done|].
    split; [|split; [lia|split; [lia|done]]].
    rewrite Z.max_l by lia. by destruct st.
  - rewrite random_angle_Ok by apply Hwf. simpl.
    pose proof (wf_k _ Hwf) as Hkr. pose proof (wf_medoids _ Hwf) as Hlen.
    destruct (lookup_lt_is_Some_2 (_medoids st) (Z.to_nat (k st))) as [old Hold];
      [lia|].
    pose proof (lookup_rows _ _ _ _ (wf_medoid_rows _ Hwf) Hold) as Hrow.
    erewrite set_item_Ok; [|lia|done|by rewrite length_random_angle_at].
    simpl.
    set (st1 := set_k_field _ _).
    destruct (IH st1) as (st' & Hrun & Hwf' & Hst' & Hdrawn & Hnew & Hold').
    + apply wf_set_k_field; [|simpl; lia]. apply wf_set_medoids.
      * by apply wf_set_drawn.
      * simpl. apply length_insert.
      * simpl. apply Forall_rows_insert; [apply Hwf|apply length_random_angle_at].
    + done.
    + simpl. lia.
    + exists st'. split; [done|]. split; [done|]. simpl in *.
      split; [|split; [|split]].
      * rewrite Hst' at 1. unfold st1, set_k_field, set_medoids, set_drawn.
        simpl. f_equal. lia.
      * rewrite Hdrawn.
        replace (Z.to_nat (new_k - k st)) with (S (Z.to_nat (new_k - (k st + 1))))
          by lia.
        lia.
      * intros j Hj. destruct (decide (j = k st)) as [->|Hne].
        -- rewrite Hold' by lia. rewrite list_lookup_insert_eq by lia.
           do 2 f_equal. lia.
        -- rewrite Hnew by lia. do 2 f_equal.
           replace (Z.to_nat (j - k st)) with (S (Z.to_nat (j - (k st + 1)))) by lia.
           lia.
      * intros j Hj. rewrite Hold' by lia.
        apply list_lookup_insert_ne. lia.
  - exists st. split; [done|]. split; [done|].
    split; [|split; [lia|split; [lia|done]]].
    rewrite Z.max_l by lia. by destruct st.
Qed.

(** [set_k] returns: neither loop uses up its budget.  The centroids from
    the old [k] up to the new one are fresh random angles, all other rows
    keep their values. *)
Lemma set_k_spec st new_k :
  wf st →
  ∃ st', set_k randn_stream st new_k = Ok st' ∧ wf st' ∧
    st' = set_k_field (clamp_k (max_k st) new_k)
            (set_medoids (_medoids st') (set_drawn (drawn st') st)) ∧
    drawn st' =
      (drawn st + Z.to_nat (clamp_k (max_k st) new_k - k st) * features st)%nat ∧
    (∀ j, k st ≤ j < clamp_k (max_k st) new_k →
          _medoids st' !! Z.to_nat j =
            Some (random_angle_at randn_stream
                    (drawn st + Z.to_nat (j - k st) * features st)
                    (features st))) ∧
    (∀ j : nat, ¬ (k st ≤ Z.of_nat j < clamp_k (max_k st) new_k) →
          _medoids st' !! j = _medoids st !! j).
Proof.
  intros Hwf. unfold set_k. pose proof (wf_k _ Hwf) as Hk.
  pose proof (clamp_k_range (max_k st) new_k) as Hc.
  set (n := clamp_k (max_k st) new_k) in *.
  destruct (set_k_grow_spec n (Z.to_nat (n - k st)) st) as
    (st1 & -> & Hwf1 & Hst1 & Hdrawn & Hnew & Hold); [done|lia|lia|].
  simpl. assert (k st1 = Z.max (k st) n) as Hk1 by by rewrite Hst1.
  rewrite set_k_shrink_spec by lia.
  eexists. split; [done|]. split; [|split; [|split]].
  - apply wf_set_k_field; [done|]. rewrite Hst1. simpl. lia.
  - rewrite Hk1. replace ((k st `max` n) `min` n) with n by lia. simpl.
    rewrite Hst1 at 1. done.
  - done.
  - simpl. done.
Qed.

(** *** [add_record] *)

Lemma add_record_inv st record st' :
  wf st → add_record st record = Ok st' →
  wf st' ∧ k st' = k st ∧ max_k st' = max_k st ∧
  _classes st' = _classes st ∧ _medoids st' = _medoids st ∧
  (num_records st' = num_records st ∨
   num_records st' = num_records st + 1 ∧ num_records st < max_records st).
Proof.
  intros Hwf. unfold add_record.
  destruct (normalize record) as [nrecord|]; [|done]. simpl.
  destruct (set_item _ _ _) as [r|] eqn:Hr; [|done]. simpl.
  apply set_item_inv in Hr as (j & old & row & Hold & Hrow & ->).
  intros [= <-]. simpl. destruct Hwf. split; [|repeat split; try done].
  - constructor; simpl; try done.
    + repeat case_bool_decide; lia.
    + repeat case_bool_decide; lia.
    + by rewrite length_insert.
    + apply Forall_rows_insert; [done|]. rewrite Hrow.
      apply (lookup_rows _ _ j old wf_record_rows0 Hold).
    + case_bool_decide; [|done].
      replace (Z.to_nat (num_records st + 1)) with (S (Z.to_nat (num_records st)))
        by lia.
      apply Forall_forall. intros c Hc. rewrite Forall_forall in wf_inactive0.
      apply wf_inactive0. apply list_elem_of_lookup in Hc as [i Hi].
      rewrite lookup_drop in Hi. apply list_elem_of_lookup.
      exists (S i). rewrite lookup_drop. rewrite <-Hi. f_equal. lia.
  - case_bool_decide; [right|left]; done.
Qed.

Lemma next_cursor (c M : Z) :
  0 ≤ c < M → (if bool_decide (c + 1 >= M) then 0 else c + 1) = (c + 1) `mod` M.
Proof.
  intros Hc. case_bool_decide.
  - replace (c + 1) with M by lia. by rewrite Z.mod_same by lia.
  - by rewrite Z.mod_small by lia.
Qed.

(** The state in which [add_record] leaves a buffer of capacity at least
    one, for a record with as many features as the rows. *)
Lemma add_record_Ok st (record : vec) :
  wf st → 1 ≤ max_records st → length record = features st →
  finite_row record = true →
  add_record st record =
    Ok (State (k st) (Z.min (num_records st + 1) (max_records st))
          ((next_to_replace st + 1) `mod` max_records st)
          (num_features st) (max_records st) (max_k st)
          (<[Z.to_nat (next_to_replace st) := normalize_row record]> (_records st))
          (_medoids st) (_classes st) (drawn st)).
Proof.
  intros Hwf HM Hlen Hfin. unfold add_record.
  pose proof (wf_features _ Hwf). pose proof (wf_next _ Hwf).
  pose proof (wf_num_records _ Hwf). pose proof (wf_records _ Hwf) as Hrecs.
  rewrite normalize_Ok by (done || lia). simpl.
  destruct (lookup_lt_is_Some_2 (_records st) (Z.to_nat (next_to_replace st)))
    as [old Hold]; [lia|].
  pose proof (lookup_rows _ _ _ _ (wf_record_rows _ Hwf) Hold) as Hrow.
  erewrite set_item_Ok; [|lia|done|by rewrite length_normalize_row, Hlen].
  simpl. rewrite next_cursor by lia. do 2 f_equal.
  case_bool_decide; lia.
Qed.

(** Overwriting the slot under the cursor and advancing the cursor drops
    the oldest element of the ring and appends the new one. *)
Lemma rotate_insert_cursor {A} (l : list A) (c : nat) (x : A) :
  (c < length l)%nat →
  rotate ((c + 1) `mod` length l) (<[c := x]> l) = drop 1 (rotate c l) ++ [x].
Proof.
  intros Hc. destruct (lookup_lt_is_Some_2 l c Hc) as [y Hy].
  pose proof (take_drop_middle l c y Hy) as Hl.
  assert (length (take c l) = c) as Hpre by (rewrite length_take; lia).
  revert Hl Hpre. generalize (take c l) (drop (S c) l).
  intros pre tl <- Hpre. clear Hy Hc. unfold rotate.
  rewrite length_insert, Nat.Div0.mod_mod.
  rewrite insert_app_r_alt, Hpre, Nat.sub_diag by lia. simpl.
  rewrite length_app. simpl. subst c.
  rewrite (Nat.mod_small (length pre)) by lia.
  rewrite drop_app_length, take_app_length. simpl.
  destruct tl as [|z tl]; simpl.
  - rewrite Nat.Div0.mod_same. simpl. by rewrite drop_0, app_nil_r.
  - rewrite Nat.mod_small by lia.
    replace (pre ++ x :: z :: tl) with ((pre ++ [x]) ++ z :: tl)
      by by rewrite <-app_assoc.
    rewrite drop_app_length', take_app_length' by (rewrite length_app; simpl; lia).
    by rewrite app_assoc.
Qed.

(** The ring of records is a window of [max_records] rows sliding over the
    old contents followed by the normalized inputs. *)
Lemma add_records_ring (rs : list vec) : ∀ st,
  wf st → 1 ≤ max_records st →
  Forall (λ r : vec, length r = features st) rs →
  Forall (λ r : vec, finite_row r = true) rs →
  ∃ st', add_records st rs = Ok st' ∧ wf st' ∧
    num_features st' = num_features st ∧ max_records st' = max_records st ∧
    num_records st' =
      Z.min (num_records st + Z.of_nat (length rs)) (max_records st) ∧
    next_to_replace st' =
      (next_to_replace st + Z.of_nat (length rs)) `mod` max_records st ∧
    rotate (Z.to_nat (next_to_replace st')) (_records st') =
      drop (length rs)
        (rotate (Z.to_nat (next_to_replace st)) (_records st) ++
         (normalize_row <$> rs)).
Proof.
  induction rs as [|r rs IH]; intros st Hwf HM Hrs Hfin.
  - exists st. split; [done|]. split; [done|]. simpl.
    pose proof (wf_next _ Hwf). pose proof (wf_num_records _ Hwf).
    rewrite !Z.add_0_r, Z.mod_small, app_nil_r by lia.
    repeat split; try done; lia.
  - apply Forall_cons in Hrs as [Hr Hrs]. apply Forall_cons in Hfin as [Hfr Hfin].
    pose proof (add_record_Ok st r Hwf HM Hr Hfr) as Hadd.
    destruct (add_record_inv _ _ _ Hwf Hadd) as (Hwf1 & _).
    unfold add_records in *. cbn [for_each]. rewrite Hadd. simpl.
    set (st1 := State _ _ _ _ _ _ _ _ _ _) in *.
    destruct (IH st1 Hwf1 HM Hrs Hfin)
      as (st' & -> & Hwf' & Hf & HM' & Hn & Hc & Hrot).
    exists st'. split; [done|]. split; [done|]. simpl in *.
    pose proof (wf_next _ Hwf) as Hnext. pose proof (wf_records _ Hwf) as Hlen.
    repeat split; try done.
    + lia.
    + rewrite Hc, Zplus_mod_idemp_l. f_equal. lia.
    + rewrite Hrot. clear Hrot.
      rewrite Z2Nat.inj_mod, Z2Nat.inj_add by lia.
      replace (Z.to_nat (max_records st)) with (length (_records st)) by done.
      change (Z.to_nat 1) with 1%nat.
      rewrite rotate_insert_cursor by lia.
      assert (0 < length (rotate (Z.to_nat (next_to_replace st)) (_records st)))%nat
        as Hpos by (rewrite length_rotate; lia).
      destruct (rotate _ (_records st)) as [|y ring]; [simpl in Hpos; lia|].
      simpl. by rewrite drop_0, <-app_assoc.
Qed.

(** *** [iterate] *)

Lemma wf_set_classes st (c : list Z) :
  wf st → length c = length (_classes st) →
  Forall (λ c, c = 0) (drop (Z.to_nat (num_records st)) c) →
  wf (set_classes c st).
Proof. intros [] Hlen Hin. constructor; simpl; try done. congruence. Qed.

Lemma records_rows st :
  wf st → Forall (λ r : vec, length r = features st) (records st).
Proof.
  intros Hwf. unfold records. pose proof (wf_num_records _ Hwf).
  rewrite slice_to_take by lia. apply Forall_take, Hwf.
Qed.

Lemma same_data_trans st1 st2 st3 :
  same_data st1 st2 → same_data st2 st3 → same_data st1 st3.
Proof.
  destruct st1, st2, st3. unfold same_data, set_medoids, set_drawn. simpl.
  intros [= -> -> -> -> -> -> -> ->] [= -> -> -> -> -> -> -> ->]. done.
Qed.

Lemma same_data_fields st st' :
  same_data st st' →
  k st' = k st ∧ num_records st' = num_records st ∧
  next_to_replace st' = next_to_replace st ∧
  num_features st' = num_features st ∧ max_records st' = max_records st ∧
  max_k st' = max_k st ∧ _records st' = _records st ∧ _classes st' = _classes st.
Proof. unfold same_data. intros ->. done. Qed.

(** One turn of the loop over the centroids, when the sum of the cluster
    is finite: row [i] becomes the normalized sum, or a random angle when
    that is all zero. *)
Lemma update_medoid_Ok (cls : list Z) (recs : list vec) i st :
  wf st → (i < length (_medoids st))%nat →
  Forall (λ r : vec, length r = features st) recs →
  finite_row (cluster_sum (features st) i cls recs) = true →
  update_medoid randn_stream cls recs i st =
    Ok (let s := normalize_row (cluster_sum (features st) i cls recs) in
        let st1 := set_medoids (<[i := s]> (_medoids st)) st in
        if all_zero s then randomized i st1 else st1).
Proof.
  intros Hwf Hi Hrecs Hfin. unfold update_medoid.
  pose proof (wf_features _ Hwf).
  pose proof (length_cluster_sum (features st) i cls recs Hrecs) as Hlen.
  rewrite normalize_Ok by (done || lia). simpl.
  destruct (lookup_lt_is_Some_2 _ _ Hi) as [old Hold].
  pose proof (lookup_rows _ _ _ _ (wf_medoid_rows _ Hwf) Hold) as Hrow.
  erewrite assign_row_Ok; [|done|by rewrite length_normalize_row, Hlen].
  simpl. rewrite list_lookup_insert_eq by done. simpl.
  destruct (all_zero _); [|done].
  apply randomize_medoid_Ok; [|simpl; by rewrite length_insert].
  apply wf_set_medoids; [done|apply length_insert|].
  apply Forall_rows_insert; [apply Hwf|]. by rewrite length_normalize_row.
Qed.

(** The turn raises [ValueError] when the sum has a NaN or an infinity. *)
Lemma update_medoid_Raise (cls : list Z) (recs : list vec) i st :
  finite_row (cluster_sum (features st) i cls recs) = false →
  update_medoid randn_stream cls recs i st = Raise ValueError.
Proof. intros Hfin. unfold update_medoid. by rewrite normalize_Raise. Qed.

Lemma update_medoid_inv (cls : list Z) (recs : list vec) i st st' :
  wf st → (i < length (_medoids st))%nat →
  Forall (λ r : vec, length r = features st) recs →
  update_medoid randn_stream cls recs i st = Ok st' →
  finite_row (cluster_sum (features st) i cls recs) = true ∧
  st' = (let s := normalize_row (cluster_sum (features st) i cls recs) in
         let st1 := set_medoids (<[i := s]> (_medoids st)) st in
         if all_zero s then randomized i st1 else st1).
Proof.
  intros Hwf Hi Hrecs Hrun.
  destruct (finite_row (cluster_sum (features st) i cls recs)) eqn:Hfin.
  - rewrite update_medoid_Ok in Hrun by done. injection Hrun as <-. done.
  - by rewrite update_medoid_Raise in Hrun.
Qed.

Lemma update_medoid_wf (cls : list Z) (recs : list vec) i st st' :
  wf st → (i < length (_medoids st))%nat →
  Forall (λ r : vec, length r = features st) recs →
  update_medoid randn_stream cls recs i st = Ok st' →
  wf st' ∧ same_data st st' ∧
  (∀ j, j ≠ i → _medoids st' !! j = _medoids st !! j).
Proof.
  intros Hwf Hi Hrecs Hrun.
  destruct (update_medoid_inv _ _ _ _ _ Hwf Hi Hrecs Hrun) as [_ ->].
  set (s := normalize_row _).
  assert (wf (set_medoids (<[i := s]> (_medoids st)) st)) as Hwf1.
  { apply wf_set_medoids; [done|apply length_insert|].
    apply Forall_rows_insert; [apply Hwf|]. unfold s.
    rewrite length_normalize_row. by apply length_cluster_sum. }
  simpl. destruct (all_zero s).
  - split; [by apply wf_randomized|]. split.
    + apply same_data_randomized. unfold same_data. by destruct st.
    + intros j Hj. simpl. by rewrite !list_lookup_insert_ne.
  - split; [done|]. split.
    + unfold same_data. by destruct st.
    + intros j Hj. simpl. by rewrite list_lookup_insert_ne.
Qed.

Lemma classes_ok_prefix st (new : list Z) :
  wf st → length new = Z.to_nat (num_records st) →
  Forall (λ c, 0 ≤ c < k st) new →
  classes_ok (set_classes (new ++ drop (Z.to_nat (num_records st)) (_classes st)) st).
Proof.
  intros Hwf Hlen Hnew. unfold classes_ok, classes. simpl.
  pose proof (wf_num_records _ Hwf).
  rewrite slice_to_take by lia. by rewrite <-Hlen, take_app_length.
Qed.

(** The first statement of [iterate] stores the classes of the active
    records; the loop over the centroids follows. *)
Lemma iterate_unfold st :
  wf st →
  ∃ new,
    classify (records st) (medoids st) = Ok new ∧
    length new = Z.to_nat (num_records st) ∧
    Forall (λ c, 0 ≤ c < k st) new ∧
    let c := new ++ drop (Z.to_nat (num_records st)) (_classes st) in
    wf (set_classes c st) ∧
    classes (set_classes c st) = new ∧
    iterate randn_stream st =
      for_each (update_medoid randn_stream new (records st))
               (seq 0 (Z.to_nat (k st))) (set_classes c st).
Proof.
  intros Hwf.
  pose proof (wf_k _ Hwf) as Hk. pose proof (wf_num_records _ Hwf) as Hn.
  pose proof (length_medoids _ Hwf) as Hmeds.
  destruct (classify_Ok (records st) (medoids st)) as (new & Hclassify & Hlen & Hnew).
  { intros Hnil. rewrite Hnil in Hmeds. simpl in Hmeds. lia. }
  rewrite length_records in Hlen by done. rewrite Hmeds in Hnew.
  exists new. split; [done|]. split; [done|]. split.
  { eapply Forall_impl; [done|]. intros x. simpl. lia. }
  intros c.
  assert (classes (set_classes c st) = new) as Hcls.
  { unfold classes. simpl. rewrite slice_to_take by lia.
    unfold c. by rewrite take_app_length' by done. }
  split; [|split; [done|]].
  - apply wf_set_classes; [done| |].
    + unfold c. rewrite length_app, length_drop, Hlen, (wf_classes _ Hwf). lia.
    + unfold c. rewrite <-Hlen, drop_app_length, Hlen. apply Hwf.
  - unfold iterate. rewrite Hclassify. simpl. unfold assign_prefix.
    assert (length (slice_to (num_records st) (_classes st))
            = Z.to_nat (num_records st)) as Hview by by apply length_classes.
    rewrite Hview, bool_decide_eq_true_2 by done. simpl.
    fold c. rewrite Hcls. by rewrite <-Hmeds.
Qed.

Lemma empty_clusters_S n (cls : list Z) (recs : list vec) i :
  empty_clusters n cls recs (S i) =
    (empty_clusters n cls recs i +
     (if all_zero (normalize_row (cluster_sum n i cls recs)) then 1 else 0))%nat.
Proof.
  unfold empty_clusters. rewrite seq_S, filter_app, length_app. f_equal.
  simpl. rewrite filter_cons, filter_nil.
  destruct (all_zero _); case_decide; done.
Qed.

(** What a call of [iterate] that returns has computed: the classes, the
    centroids, and the samples it has drawn. *)
Lemma iterate_full st st' :
  wf st → iterate randn_stream st = Ok st' →
  ∃ new,
    classify (records st) (medoids st) = Ok new ∧
    length new = Z.to_nat (num_records st) ∧
    Forall (λ c, 0 ≤ c < k st) new ∧
    wf st' ∧
    same_data
      (set_classes (new ++ drop (Z.to_nat (num_records st)) (_classes st)) st) st' ∧
    classes st' = new ∧ records st' = records st ∧
    (∀ j, (j < Z.to_nat (k st))%nat →
       finite_row (cluster_sum (features st) j new (records st)) = true) ∧
    drawn st' =
      (drawn st +
       empty_clusters (features st) new (records st) (Z.to_nat (k st)) *
       features st)%nat ∧
    (∀ j, (j < Z.to_nat (k st))%nat →
       _medoids st' !! j =
         Some (let s := normalize_row
                          (cluster_sum (features st) j new (records st)) in
               if all_zero s
               then random_angle_at randn_stream
                      (drawn st +
                       empty_clusters (features st) new (records st) j *
                       features st) (features st)
               else s)) ∧
    (∀ j, (Z.to_nat (k st) ≤ j)%nat → _medoids st' !! j = _medoids st !! j).
Proof.
  intros Hwf Hrun.
  pose proof (wf_k _ Hwf) as Hk. pose proof (wf_num_records _ Hwf) as Hn.
  destruct (iterate_unfold st Hwf)
    as (new & Hclassify & Hlen & Hnew & Hwf1 & Hcls & Hiter).
  set (c := new ++ drop (Z.to_nat (num_records st)) (_classes st)) in *.
  rewrite Hiter in Hrun. exists new.
  set (e := empty_clusters (features st) new (records st)).
  pose proof (for_each_seq_post
    (update_medoid randn_stream new (records st))
    (λ i s, wf s ∧ same_data (set_classes c st) s ∧
       (∀ j, (j < i)%nat →
          finite_row (cluster_sum (features st) j new (records st)) = true) ∧
       drawn s = (drawn st + e i * features st)%nat ∧
       (∀ j, (i ≤ j)%nat → _medoids s !! j = _medoids st !! j) ∧
       (∀ j, (j < i)%nat →
          _medoids s !! j =
            Some (let sm := normalize_row
                              (cluster_sum (features st) j new (records st)) in
                  if all_zero sm
                  then random_angle_at randn_stream
                         (drawn st + e j * features st) (features st)
                  else sm)))
    (Z.to_nat (k st)) 0%nat (set_classes c st) st') as Hpost.
  destruct Hpost as (Hwf' & Hsame & Hfin & Hdrawn & Hhigh & Hlow); [| |done|].
  - split; [done|]. split; [apply same_data_refl|]. split; [intros j Hj; lia|].
    split; [simpl; lia|]. split; [done|]. intros j Hj. lia.
  - intros i s s' Hi (Hs & Hsame & Hfin & Hdrawn & Hhigh & Hlow) Hbody.
    assert (i < length (_medoids s))%nat as Hlt.
    { rewrite (wf_medoids _ Hs), Hsame. simpl. lia. }
    assert (features s = features st) as Hf by (by rewrite Hsame).
    assert (Forall (λ r : vec, length r = features s) (records st)) as Hrows.
    { rewrite Hf. by apply records_rows. }
    destruct (update_medoid_wf new (records st) i s s' Hs Hlt Hrows Hbody)
      as (Hs' & Hsame' & Hother).
    destruct (update_medoid_inv new (records st) i s s' Hs Hlt Hrows Hbody)
      as (Hfin' & Hexp).
    rewrite Hf in Hfin', Hexp. cbn zeta in Hexp.
    split; [done|]. split; [by eapply same_data_trans|].
    split; [|split; [|split]].
    + intros j Hj. destruct (decide (j = i)) as [->|Hne]; [done|].
      apply Hfin. lia.
    + unfold e. rewrite empty_clusters_S. fold e. rewrite Hexp.
      destruct (all_zero _); unfold randomized; simpl; rewrite ?Hf; lia.
    + intros j Hj. rewrite Hother by lia. apply Hhigh. lia.
    + intros j Hj. destruct (decide (j = i)) as [->|Hne].
      * rewrite Hexp. cbn zeta.
        destruct (all_zero _); unfold randomized; simpl.
        -- rewrite list_lookup_insert_eq by (by rewrite length_insert).
           by rewrite Hf, Hdrawn.
        -- by rewrite list_lookup_insert_eq by done.
      * rewrite Hother by done. apply Hlow. lia.
  - do 3 (split; [done|]). split; [done|]. split; [done|].
    split; [|split; [|split; [|split; [|split]]]].
    + unfold classes. rewrite Hsame. simpl. apply Hcls.
    + unfold records. by rewrite Hsame.
    + intros j Hj. apply Hfin. lia.
    + done.
    + intros j Hj. apply Hlow. lia.
    + intros j Hj. apply Hhigh. lia.
Qed.

(** [iterate] returns when the sum of every cluster is finite. *)
Lemma iterate_Ok st new :
  wf st → classify (records st) (medoids st) = Ok new →
  (∀ j, (j < Z.to_nat (k st))%nat →
     finite_row (cluster_sum (features st) j new (records st)) = true) →
  ∃ st', iterate randn_stream st = Ok st'.
Proof.
  intros Hwf Hclassify Hfin. pose proof (wf_k _ Hwf) as Hk.
  destruct (iterate_unfold st Hwf)
    as (new' & Hclassify' & Hlen & Hnew & Hwf1 & Hcls & Hiter).
  assert (new' = new) as -> by congruence.
  set (c := new ++ drop (Z.to_nat (num_records st)) (_classes st)) in *.
  rewrite Hiter.
  destruct (for_each_seq_inv
    (update_medoid randn_stream new (records st))
    (λ i s, wf s ∧ same_data (set_classes c st) s)
    (Z.to_nat (k st)) 0%nat (set_classes c st)) as (st' & Hrun & _).
  - split; [done|apply same_data_refl].
  - intros i s Hi (Hs & Hsame).
    assert (i < length (_medoids s))%nat as Hlt.
    { rewrite (wf_medoids _ Hs), Hsame. simpl. lia. }
    assert (features s = features st) as Hf by (by rewrite Hsame).
    assert (Forall (λ r : vec, length r = features s) (records st)) as Hrows.
    { rewrite Hf. by apply records_rows. }
    assert (finite_row (cluster_sum (features s) i new (records st)) = true)
      as Hfin' by (rewrite Hf; apply Hfin; lia).
    pose proof (update_medoid_Ok new (records st) i s Hs Hlt Hrows Hfin') as Hbody.
    destruct (update_medoid_wf new (records st) i s _ Hs Hlt Hrows Hbody)
      as (Hs' & Hsame' & _).
    eexists. split; [done|]. split; [done|]. by eapply same_data_trans.
  - by exists st'.
Qed.


(** *** [__init__] *)

Lemma init_spec (uninitialized : nat → nat → float) initial_k nf mk mr :
  1 ≤ nf → 1 ≤ mk → 0 ≤ mr →
  ∃ st0,
    init randn_stream uninitialized initial_k nf mk mr = Ok st0 ∧
    wf st0 ∧
    k st0 = clamp_k mk initial_k ∧ num_records st0 = 0 ∧
    next_to_replace st0 = 0 ∧ num_features st0 = nf ∧
    max_records st0 = mr ∧ max_k st0 = mk ∧
    _classes st0 = replicate (Z.to_nat mr) 0 ∧
    drawn st0 = (Z.to_nat (clamp_k mk initial_k) * Z.to_nat nf)%nat ∧
    (∀ j, (j < Z.to_nat (clamp_k mk initial_k))%nat →
          _medoids st0 !! j =
            Some (random_angle_at randn_stream (j * Z.to_nat nf) (Z.to_nat nf))) ∧
    (∀ j, (Z.to_nat (clamp_k mk initial_k) ≤ j < Z.to_nat mk)%nat →
          _medoids st0 !! j = Some (replicate (Z.to_nat nf) 0%float)).
Proof.
  intros Hf Hk HM. unfold init.
  rewrite bool_decide_eq_false_2 by lia.
  pose proof (clamp_k_range mk initial_k Hk) as Hc.
  set (st := State _ _ _ _ _ _ _ _ _ _).
  assert (wf st) as Hwf.
  { constructor; simpl; try lia.
    - by rewrite length_fmap, length_seq.
    - apply Forall_fmap, Forall_forall. intros i _. simpl.
      by rewrite length_fmap, length_seq.
    - apply length_replicate.
    - apply Forall_replicate, length_replicate.
    - apply length_replicate.
    - by apply Forall_replicate. }
  destruct (randomize_medoids_spec st Hwf)
    as (st0 & Hrun & Hwf0 & Hsame & Hdrawn & Hlow & Hhigh).
  exists st0. split; [done|]. split; [done|].
  apply same_data_fields in Hsame as (-> & -> & -> & -> & -> & -> & _ & ->).
  simpl in *. repeat split; try done.
  intros j Hj. rewrite Hhigh by lia. apply lookup_replicate_2. lia.
Qed.

(** *** Every call that returns keeps the state well-shaped *)

Lemma add_records_inv (rs : list vec) : ∀ st st',
  wf st → add_records st rs = Ok st' →
  wf st' ∧ k st' = k st ∧ max_k st' = max_k st.
Proof.
  unfold add_records.
  induction rs as [|r rs IH]; intros st st' Hwf; simpl.
  - by intros [= <-].
  - destruct (add_record st r) as [st1|] eqn:Hadd; [|done]. simpl.
    destruct (add_record_inv _ _ _ Hwf Hadd) as (Hwf1 & Hk & Hmax & _).
    intros Hrest. destruct (IH _ _ Hwf1 Hrest) as (? & ? & ?).
    split; [done|]. split; congruence.
Qed.

Lemma run_wf c st st' :
  wf st → run randn_stream c st = Ok st' → wf st' ∧ max_k st' = max_k st.
Proof.
  intros Hwf. destruct c as [|new_k| |r|rs]; simpl; intros Hrun.
  - destruct (iterate_full st st' Hwf Hrun)
      as (new & _ & _ & _ & Hwf2 & Hsame & _).
    split; [done|].
    by apply same_data_fields in Hsame as (_ & _ & _ & _ & _ & -> & _).
  - destruct (set_k_spec st new_k Hwf) as (st2 & Hset & Hwf2 & Hst2 & _).
    rewrite Hset in Hrun. injection Hrun as <-. split; [done|].
    by rewrite Hst2.
  - destruct (randomize_medoids_spec st Hwf) as (st2 & Hsh & Hwf2 & Hsame & _).
    unfold shuffle in Hrun. rewrite Hsh in Hrun. injection Hrun as <-.
    split; [done|].
    by apply same_data_fields in Hsame as (_ & _ & _ & _ & _ & -> & _).
  - by destruct (add_record_inv _ _ _ Hwf Hrun) as (? & _ & ? & _).
  - by destruct (add_records_inv _ _ _ Hwf Hrun) as (? & _ & ?).
Qed.

Lemma reachable_wf st0 st :
  wf st0 → reachable randn_stream st0 st → wf st ∧ max_k st = max_k st0.
Proof.
  intros Hwf0. induction 1 as [|st c st' _ [Hwf Hmax] Hrun]; [done|].
  destruct (run_wf _ _ _ Hwf Hrun) as [? ?]. split; [done|]. congruence.
Qed.

(** [__init__] raises [ValueError] for a negative dimension, and for rows
    without features when it has a centroid to draw. *)
Lemma init_invalid (uninitialized : nat → nat → float) initial_k nf mk mr :
  (mr < 0 ∨ nf < 0 ∨ mk < 0) ∨ (nf = 0 ∧ 1 ≤ mk) →
  init randn_stream uninitialized initial_k nf mk mr = Raise ValueError.
Proof.
  intros Hbad. unfold init. case_bool_decide as Hneg; [done|].
  destruct Hbad as [?|[-> Hk]]; [done|].
  pose proof (clamp_k_range mk initial_k Hk) as Hc.
  unfold randomize_medoids, medoids. cbn [k _medoids].
  rewrite slice_to_take, length_take, length_replicate by lia.
  replace (Z.to_nat (clamp_k mk initial_k) `min` Z.to_nat mk)%nat
    with (S (Z.to_nat (clamp_k mk initial_k) - 1)) by lia.
  done.
Qed.

(** An instance that [__init__] returns for [max_k >= 1] is well-shaped. *)
Lemma init_wf (uninitialized : nat → nat → float) initial_k nf mk mr st0 :
  1 ≤ mk → init randn_stream uninitialized initial_k nf mk mr = Ok st0 →
  wf st0 ∧ num_features st0 = nf ∧ max_records st0 = mr ∧ max_k st0 = mk ∧
  1 ≤ nf ∧ 0 ≤ mr.
Proof.
  intros Hk Hinit.
  assert (1 ≤ nf ∧ 0 ≤ mr) as [Hf HM].
  { destruct (decide (1 ≤ nf ∧ 0 ≤ mr)) as [|Hbad]; [done|].
    rewrite init_invalid in Hinit by lia. done. }
  destruct (init_spec uninitialized initial_k nf mk mr Hf Hk HM)
    as (st1 & Hinit1 & Hwf & _ & _ & _ & Hnf & Hmr & Hmk & _).
  assert (st1 = st0) as -> by congruence. done.
Qed.

(** ** Properties of the clusterer *)

(** C3, amended: when [set_k] lowers [k], every stored centroid, also those
    beyond the new bound, keeps its value in place; when a later [set_k]
    raises [k], each centroid from the old [k] up to the new one is
    overwritten with a fresh random angle, and the other rows are kept. *)
Theorem set_k_stored_medoids st new_k :
  wf st →
  ∃ st', set_k randn_stream st new_k = Ok st' ∧
    k st' = clamp_k (max_k st) new_k ∧
    (clamp_k (max_k st) new_k ≤ k st → _medoids st' = _medoids st) ∧
    (∀ j, k st ≤ j < clamp_k (max_k st) new_k →
          _medoids st' !! Z.to_nat j =
            Some (random_angle_at randn_stream
                    (drawn st + Z.to_nat (j - k st) * features st)
                    (features st))) ∧
    (∀ j : nat, ¬ (k st ≤ Z.of_nat j < clamp_k (max_k st) new_k) →
          _medoids st' !! j = _medoids st !! j).
Proof.
  intros Hwf.
  destruct (set_k_spec st new_k Hwf) as (st' & Hset & _ & Hst' & _ & Hnew & Hold).
  exists st'. split; [done|]. split; [by rewrite Hst'|].
  split; [|done]. intros Hle. apply list_eq. intros j. apply Hold. lia.
Qed.

Lemma lookup_medoids st j :
  wf st → (j < Z.to_nat (k st))%nat → medoids st !! j = _medoids st !! j.
Proof.
  intros Hwf Hj. pose proof (wf_k _ Hwf). unfold medoids.
  rewrite slice_to_take by lia. by apply lookup_take_lt.
Qed.


(** C6: after more than [max_records] calls of [add_record] with rows of
    finite floats, the number of active records is [max_records], the
    cursor has advanced modulo [max_records], and the ring read from the
    cursor, oldest row first, is the normalized last [max_records] inputs
    in their order. *)
Theorem add_records_fifo st (rs : list vec) :
  wf st → 1 ≤ max_records st →
  Forall (λ r : vec, length r = features st) rs →
  Forall (λ r : vec, finite_row r = true) rs →
  (Z.to_nat (max_records st) < length rs)%nat →
  ∃ st', add_records st rs = Ok st' ∧
    num_records st' = max_records st ∧
    next_to_replace st' =
      (next_to_replace st + Z.of_nat (length rs)) `mod` max_records st ∧
    rotate (Z.to_nat (next_to_replace st')) (_records st') =
      normalize_row <$> drop (length rs - Z.to_nat (max_records st)) rs.
Proof.
  intros Hwf HM Hrs Hfin Hmore.
  destruct (add_records_ring rs st Hwf HM Hrs Hfin)
    as (st' & Hrun & _ & _ & _ & Hn & Hc & Hrot).
  exists st'. split; [done|]. pose proof (wf_num_records _ Hwf).
  split; [lia|]. split; [done|]. rewrite Hrot.
  rewrite drop_app_ge by (rewrite length_rotate, (wf_records _ Hwf); lia).
  by rewrite length_rotate, (wf_records _ Hwf), fmap_drop.
Qed.

(** C7, amended: for [max_k >= 1], [__init__] returns when the other
    dimensions allow it and clamps [initial_k] into [1, max_k]; every state
    the instance reaches afterwards has [1 <= k <= max_k], and from each of
    them [set_k] returns for every requested value, negative, zero or above
    [max_k], and leaves [k] in that range. *)
Theorem k_in_range (uninitialized : nat → nat → float) initial_k nf mk mr :
  1 ≤ mk →
  (1 ≤ nf → 0 ≤ mr →
   ∃ st0, init randn_stream uninitialized initial_k nf mk mr = Ok st0) ∧
  ∀ st0, init randn_stream uninitialized initial_k nf mk mr = Ok st0 →
    k st0 = clamp_k mk initial_k ∧ 1 ≤ k st0 ≤ mk ∧
    ∀ st, reachable randn_stream st0 st →
      max_k st = mk ∧ 1 ≤ k st ≤ mk ∧
      ∀ new_k, ∃ st', set_k randn_stream st new_k = Ok st' ∧
        k st' = clamp_k mk new_k ∧ 1 ≤ k st' ≤ mk.
Proof.
  intros Hk. split.
  { intros Hf HM.
    destruct (init_spec uninitialized initial_k nf mk mr Hf Hk HM)
      as (st0 & Hinit & _). by exists st0. }
  intros st0 Hinit.
  destruct (init_wf _ _ _ _ _ _ Hk Hinit) as (Hwf0 & _ & _ & Hmax0 & Hf & HM).
  destruct (init_spec uninitialized initial_k nf mk mr Hf Hk HM)
    as (st1 & Hinit1 & _ & Hk0 & _).
  assert (st1 = st0) as -> by congruence.
  split; [done|]. pose proof (wf_k _ Hwf0) as Hrange0. split; [lia|].
  intros st Hreach. destruct (reachable_wf _ _ Hwf0 Hreach) as [Hwf Hmax].
  pose proof (wf_k _ Hwf). split; [congruence|]. split; [lia|].
  intros new_k.
  destruct (set_k_spec st new_k Hwf) as (st' & Hset & Hwf' & Hst' & _).
  exists st'. split; [done|]. pose proof (wf_k _ Hwf') as Hrange'.
  assert (max_k st' = max_k st) by (by rewrite Hst').
  split; [|lia]. rewrite Hst'. simpl. congruence.
Qed.

Lemma classes_ok_add_record st (r : vec) st' :
  wf st → classes_ok st → add_record st r = Ok st' → classes_ok st'.
Proof.
  intros Hwf Hok Hadd.
  destruct (add_record_inv _ _ _ Hwf Hadd) as (Hwf' & Hk & _ & Hcls & _ & Hn).
  unfold classes_ok, classes in *. rewrite Hk, Hcls.
  pose proof (wf_num_records _ Hwf). pose proof (wf_k _ Hwf).
  destruct Hn as [->|[-> Hlt]]; [done|].
  rewrite slice_to_take in * by lia.
  replace (Z.to_nat (num_records st + 1)) with (S (Z.to_nat (num_records st)))
    by lia.
  destruct (lookup_lt_is_Some_2 (_classes st) (Z.to_nat (num_records st)))
    as [c Hc]; [rewrite (wf_classes _ Hwf); lia|].
  erewrite take_S_r by done. apply Forall_app. split; [done|].
  apply Forall_singleton.
  pose proof (wf_inactive _ Hwf) as Hin. rewrite Forall_forall in Hin.
  rewrite (Hin c); [lia|]. apply list_elem_of_lookup. exists 0%nat.
  by rewrite lookup_drop, Nat.add_0_r.
Qed.

(** C8, amended: a call of [iterate] that returns leaves every active
    record assigned to an active centroid; [add_record] and [shuffle] keep
    it so.  [set_k] never rewrites the classification array: after it,
    every active record is assigned to an active centroid exactly when none
    was assigned to a centroid at or beyond the new [k], which is the case
    when [k] is not lowered. *)
Theorem classes_ok_calls st :
  wf st →
  (∀ st', iterate randn_stream st = Ok st' → classes_ok st') ∧
  (classes_ok st → ∀ r st', add_record st r = Ok st' → classes_ok st') ∧
  (classes_ok st → ∀ st', shuffle randn_stream st = Ok st' → classes_ok st') ∧
  (∀ new_k, ∃ st',
     set_k randn_stream st new_k = Ok st' ∧
     k st' = clamp_k (max_k st) new_k ∧
     _classes st' = _classes st ∧ classes st' = classes st ∧
     (classes_ok st' ↔
      Forall (λ c, 0 ≤ c < clamp_k (max_k st) new_k) (classes st))) ∧
  (classes_ok st → ∀ new_k,
     k st ≤ clamp_k (max_k st) new_k →
     Forall (λ c, 0 ≤ c < clamp_k (max_k st) new_k) (classes st)).
Proof.
  intros Hwf. split; [|split; [|split; [|split]]].
  - intros st' Hrun.
    destruct (iterate_full st st' Hwf Hrun)
      as (new & _ & _ & Hnew & _ & Hsame & Hcls & _).
    unfold classes_ok. rewrite Hcls.
    by apply same_data_fields in Hsame as (-> & _).
  - intros Hok r st'. by apply classes_ok_add_record.
  - intros Hok st' Hrun.
    destruct (randomize_medoids_spec st Hwf) as (st2 & Hsh & _ & Hsame & _).
    unfold shuffle in Hrun. rewrite Hsh in Hrun. injection Hrun as <-.
    unfold classes_ok, classes in *.
    by apply same_data_fields in Hsame as (-> & -> & _ & _ & _ & _ & _ & ->).
  - intros new_k.
    destruct (set_k_spec st new_k Hwf) as (st' & Hset & _ & Hst' & _).
    exists st'. split; [done|].
    assert (k st' = clamp_k (max_k st) new_k) as Hk by (by rewrite Hst').
    assert (_classes st' = _classes st) as Hcls by (by rewrite Hst').
    assert (classes st' = classes st) as Hact.
    { unfold classes. by rewrite Hst'. }
    do 3 (split; [done|]). unfold classes_ok. by rewrite Hact, Hk.
  - intros Hok new_k Hle. unfold classes_ok in Hok.
    eapply Forall_impl; [done|]. intros c. simpl. lia.
Qed.



End Methods.

(** *** The sample runs *)

Lemma sample_state_wf : wf sample_state.
Proof.
  constructor; simpl; try lia; try done; repeat constructor.
Qed.

Lemma sample_half_wf : wf sample_half.
Proof.
  constructor; simpl; try lia; try done; repeat constructor.
Qed.

Lemma sample_full_wf : wf sample_full.
Proof.
  constructor; simpl; try lia; try done; repeat constructor.
Qed.

(** C3, as stated, fails on the second half: an instance with the centroids
    (1, 0) and (0, 1) is lowered to [k = 1], which keeps (0, 1) in place, and
    raised back to [k = 2], which overwrites it with the next random angle,
    (1, 0). *)
Lemma set_k_raise_overwrites :
  ∃ st0 st1 st2,
    init sample_stream zero_memory 2 2 2 1 = Ok st0 ∧
    set_k sample_stream st0 1 = Ok st1 ∧
    set_k sample_stream st1 2 = Ok st2 ∧
    _medoids st0 !! 1%nat = Some [0; 1]%float ∧
    _medoids st1 !! 1%nat = Some [0; 1]%float ∧
    _medoids st2 !! 1%nat = Some [1; 0]%float ∧
    _medoids st2 !! 1%nat ≠ _medoids st1 !! 1%nat.
Proof.
  eexists _, _, _. split; [by vm_compute|]. split; [by vm_compute|].
  split; [by vm_compute|]. do 3 (split; [done|]).
  by intros [=].
Qed.

Lemma set_k_stored_medoids_witness :
  wf sample_state ∧
  ∃ st', set_k ones_stream sample_state 2 = Ok st' ∧
    k st' = clamp_k (max_k sample_state) 2 ∧
    (clamp_k (max_k sample_state) 2 ≤ k sample_state →
     _medoids st' = _medoids sample_state) ∧
    (∀ j, k sample_state ≤ j < clamp_k (max_k sample_state) 2 →
          _medoids st' !! Z.to_nat j =
            Some (random_angle_at ones_stream
                    (drawn sample_state + Z.to_nat (j - k sample_state) * 2) 2)) ∧
    (∀ j : nat, ¬ (k sample_state ≤ Z.of_nat j < clamp_k (max_k sample_state) 2) →
          _medoids st' !! j = _medoids sample_state !! j).
Proof.
  split; [apply sample_state_wf|].
  apply (set_k_stored_medoids ones_stream sample_state 2 sample_state_wf).
Defined.



Lemma add_records_fifo_witness :
  wf sample_state ∧ 1 ≤ max_records sample_state ∧
  Forall (λ r : vec, length r = 2%nat) sample_rows ∧
  Forall (λ r : vec, finite_row r = true) sample_rows ∧
  (Z.to_nat (max_records sample_state) < length sample_rows)%nat ∧
  ∃ st', add_records sample_state sample_rows = Ok st' ∧
    num_records st' = max_records sample_state ∧
    next_to_replace st' =
      (next_to_replace sample_state + Z.of_nat (length sample_rows))
        `mod` max_records sample_state ∧
    rotate (Z.to_nat (next_to_replace st')) (_records st') =
      normalize_row <$>
        drop (length sample_rows - Z.to_nat (max_records sample_state)) sample_rows.
Proof.
  assert (Forall (λ r : vec, length r = 2%nat) sample_rows) as Hrows
    by (repeat constructor).
  assert (Forall (λ r : vec, finite_row r = true) sample_rows) as Hfin
    by (repeat constructor).
  split; [apply sample_state_wf|]. split; [simpl; lia|].
  split; [done|]. split; [done|]. split; [simpl; lia|].
  apply (add_records_fifo sample_state sample_rows sample_state_wf);
    [simpl; lia|done|done|simpl; lia].
Defined.

(** C7, as stated, fails for [max_k = 0]: the constructor returns an
    instance with [k = 0], and [set_k] leaves it there. *)
Lemma init_max_k_zero :
  ∃ st0 st1,
    init ones_stream zero_memory 3 2 0 4 = Ok st0 ∧
    k st0 = 0 ∧ max_k st0 = 0 ∧ ¬ (1 ≤ k st0 ≤ max_k st0) ∧
    set_k ones_stream st0 1 = Ok st1 ∧
    k st1 = 0 ∧ ¬ (1 ≤ k st1 ≤ max_k st1).
Proof.
  eexists _, _. split; [by vm_compute|]. split; [done|]. split; [done|].
  split; [simpl; lia|]. split; [by vm_compute|]. split; [done|]. simpl. lia.
Qed.

Lemma k_in_range_witness :
  1 ≤ 3 ∧
  (1 ≤ 2 → 0 ≤ 4 → ∃ st0, init ones_stream zero_memory 0 2 3 4 = Ok st0) ∧
  ∀ st0, init ones_stream zero_memory 0 2 3 4 = Ok st0 →
    k st0 = clamp_k 3 0 ∧ 1 ≤ k st0 ≤ 3 ∧
    ∀ st, reachable ones_stream st0 st →
      max_k st = 3 ∧ 1 ≤ k st ≤ 3 ∧
      ∀ new_k, ∃ st', set_k ones_stream st new_k = Ok st' ∧
        k st' = clamp_k 3 new_k ∧ 1 ≤ k st' ≤ 3.
Proof.
  split; [lia|]. apply (k_in_range ones_stream zero_memory 0 2 3 4). lia.
Defined.

(** C8, as stated, fails for [set_k]: an instance with the centroids (1, 0)
    and (0, 1) receives the record (0, 1), which [iterate] assigns to
    centroid 1; [set_k(1)] then lowers [k] to 1 and leaves the class 1 of
    that record as it is. *)
Lemma set_k_breaks_classes :
  ∃ st0 st1 st2 st3,
    init sample_stream zero_memory 2 2 2 1 = Ok st0 ∧
    add_record st0 [0; 1]%float = Ok st1 ∧
    iterate sample_stream st1 = Ok st2 ∧
    set_k sample_stream st2 1 = Ok st3 ∧
    classes_ok st2 ∧
    classes st3 = [1] ∧ k st3 = 1 ∧ ¬ classes_ok st3.
Proof.
  eexists _, _, _, _. split; [by vm_compute|]. split; [by vm_compute|].
  split; [by vm_compute|]. split; [by vm_compute|].
  split; [repeat constructor; simpl; lia|]. split; [done|]. split; [done|].
  intros Hok. apply Forall_cons in Hok as [Hlt _]. simpl in Hlt. lia.
Qed.

Lemma classes_ok_calls_witness :
  wf sample_full ∧ classes_ok sample_full ∧
  (∀ st', iterate ones_stream sample_full = Ok st' → classes_ok st') ∧
  (classes_ok sample_full →
   ∀ r st', add_record sample_full r = Ok st' → classes_ok st') ∧
  (classes_ok sample_full →
   ∀ st', shuffle ones_stream sample_full = Ok st' → classes_ok st') ∧
  (∀ new_k, ∃ st',
     set_k ones_stream sample_full new_k = Ok st' ∧
     k st' = clamp_k (max_k sample_full) new_k ∧
     _classes st' = _classes sample_full ∧ classes st' = classes sample_full ∧
     (classes_ok st' ↔
      Forall (λ c, 0 ≤ c < clamp_k (max_k sample_full) new_k)
        (classes sample_full))) ∧
  (classes_ok sample_full → ∀ new_k,
     k sample_full ≤ clamp_k (max_k sample_full) new_k →
     Forall (λ c, 0 ≤ c < clamp_k (max_k sample_full) new_k)
       (classes sample_full)).
Proof.
  split; [apply sample_full_wf|].
  split; [repeat constructor; simpl; lia|].
  apply (classes_ok_calls ones_stream sample_full sample_full_wf).
Defined.





(** ** Further properties of the clusterer *)

Section MoreMethods.

Context (randn_stream : nat → sample).

Local Abbreviation features st := (Z.to_nat (num_features st)).

(** X8: [_random_angle] never raises when rows have a feature; it consumes
    [num_features] samples and returns the normalized row of their absolute
    values, a row of [num_features] coordinates none of which is negative
    or a NaN. *)
Theorem random_angle_row st :
  1 ≤ num_features st →
  ∃ v, _random_angle randn_stream st =
         Ok (v, set_drawn (drawn st + features st)%nat st) ∧
       v = normalize_row
             (PrimFloat.abs <$> randn randn_stream (drawn st) (features st)) ∧
       length v = features st ∧
       Forall (λ x, nonneg x = true) v.
Proof.
  intros Hf. rewrite random_angle_Ok by done. eexists. split; [done|].
  split; [done|]. split; [apply length_random_angle_at|].
  apply random_angle_at_nonneg.
Qed.

(** X9: [__init__] leaves an instance without records whose cursor is at
    slot 0, whose classes are all zero, whose first [k] centroids are
    random angles drawn one after the other and whose remaining centroid
    rows are zero. *)
Theorem init_state (uninitialized : nat → nat → float) initial_k nf mk mr :
  1 ≤ nf → 1 ≤ mk → 0 ≤ mr →
  ∃ st0,
    init randn_stream uninitialized initial_k nf mk mr = Ok st0 ∧
    k st0 = clamp_k mk initial_k ∧
    num_records st0 = 0 ∧ next_to_replace st0 = 0 ∧
    records st0 = [] ∧ classes st0 = [] ∧
    _classes st0 = replicate (Z.to_nat mr) 0 ∧
    length (_records st0) = Z.to_nat mr ∧
    length (_medoids st0) = Z.to_nat mk ∧
    (∀ j, (j < Z.to_nat (k st0))%nat →
          medoids st0 !! j =
            Some (random_angle_at randn_stream (j * Z.to_nat nf) (Z.to_nat nf))) ∧
    (∀ j, (Z.to_nat (k st0) ≤ j < Z.to_nat mk)%nat →
          _medoids st0 !! j = Some (replicate (Z.to_nat nf) 0%float)).
Proof.
  intros Hf Hk HM.
  destruct (init_spec randn_stream uninitialized initial_k nf mk mr Hf Hk HM)
    as (st0 & Hinit & Hwf & Hk0 & Hn & Hc & Hnf & Hmr & Hmk & Hcls & _ & Hlow & Hhigh).
  exists st0. split; [done|]. split; [done|]. split; [done|]. split; [done|].
  split; [unfold records; by rewrite Hn|].
  split; [unfold classes; by rewrite Hn|]. split; [done|].
  split; [by rewrite (wf_records _ Hwf), Hmr|].
  split; [by rewrite (wf_medoids _ Hwf), Hmk|].
  rewrite Hk0. split; [|done]. intros j Hj.
  unfold medoids. pose proof (clamp_k_range mk initial_k Hk).
  rewrite Hk0, slice_to_take by lia. rewrite lookup_take_lt by lia.
  by apply Hlow.
Qed.


(** X10: [__init__] raises [ValueError] for a negative [max_records],
    [num_features] or [max_k], which NumPy rejects as a dimension, and for
    [num_features = 0] with [max_k >= 1], which scikit-learn rejects when
    the first centroid is drawn. *)
Theorem init_raises (uninitialized : nat → nat → float) initial_k nf mk mr :
  (mr < 0 ∨ nf < 0 ∨ mk < 0) ∨ (nf = 0 ∧ 1 ≤ mk) →
  init randn_stream uninitialized initial_k nf mk mr = Raise ValueError.
Proof. apply init_invalid. Qed.

(** X11: the clamping of [__init__] needs [max_k >= 1]: with [max_k = 0]
    the constructor returns an instance without centroid rows whose [k] is
    0 for a positive [initial_k] and 1 otherwise, outside [1, max_k]. *)
Theorem init_without_centroids (uninitialized : nat → nat → float) initial_k nf mr :
  0 ≤ nf → 0 ≤ mr →
  ∃ st0,
    init randn_stream uninitialized initial_k nf 0 mr = Ok st0 ∧
    k st0 = (if bool_decide (initial_k > 0) then 0 else 1) ∧
    max_k st0 = 0 ∧ _medoids st0 = [] ∧ medoids st0 = [] ∧
    ¬ (1 ≤ k st0 ≤ max_k st0).
Proof.
  intros Hf HM. unfold init. rewrite bool_decide_eq_false_2 by lia.
  assert (∀ n : Z, slice_to n (@nil vec) = []) as Hslice.
  { intros n. unfold slice_to. case_bool_decide; apply take_nil. }
  unfold randomize_medoids, medoids. cbn [k _medoids].
  change (Z.to_nat 0) with 0%nat. cbn [replicate]. rewrite Hslice.
  eexists. split; [done|]. cbn [k max_k _medoids]. rewrite Hslice.
  unfold clamp_k. repeat case_bool_decide; repeat split; try done; lia.
Qed.

(** *** More on [add_record] *)

Lemma add_record_changes st (record : vec) st' :
  wf st → add_record st record = Ok st' →
  1 ≤ max_records st ∧
  ∃ row : vec,
    st' = State (k st) (Z.min (num_records st + 1) (max_records st))
            ((next_to_replace st + 1) `mod` max_records st)
            (num_features st) (max_records st) (max_k st)
            (<[Z.to_nat (next_to_replace st) := row]> (_records st))
            (_medoids st) (_classes st) (drawn st) ∧
    length row = features st.
Proof.
  intros Hwf. unfold add_record.
  destruct (normalize record) as [nrecord|]; [|done]. simpl.
  pose proof (wf_next _ Hwf) as Hnext. pose proof (wf_records _ Hwf) as Hlen.
  pose proof (wf_num_records _ Hwf) as Hn.
  unfold set_item, py_index. rewrite Hlen.
  destruct (decide (max_records st = 0)) as [HM|HM].
  { rewrite HM in *.
    rewrite (bool_decide_eq_false_2 (0 ≤ _ < Z.of_nat _)) by lia.
    rewrite (bool_decide_eq_false_2 (- _ ≤ _ < 0)) by lia. done. }
  rewrite (bool_decide_eq_true_2 (0 ≤ _ < Z.of_nat _)) by lia. simpl.
  destruct (assign_row _ _ _) as [r|] eqn:Hr; [|done]. simpl.
  apply assign_row_inv in Hr as (old & row & Hold & Hrow & ->).
  intros [= <-]. split; [lia|]. exists row. split.
  - rewrite next_cursor by lia. f_equal. case_bool_decide; lia.
  - rewrite Hrow. by apply (lookup_rows _ _ _ _ (wf_record_rows _ Hwf) Hold).
Qed.

(** X12: [add_record] raises [ValueError] for an empty record and for a
    record with a NaN or an infinity; for a record of finite floats it
    raises [IndexError] when the instance has no room for records; and it
    raises [ValueError] for a record of several entries whose number is not
    [num_features]. *)
Theorem add_record_raises st (record : vec) :
  wf st →
  (record = [] → add_record st record = Raise ValueError) ∧
  (finite_row record = false → add_record st record = Raise ValueError) ∧
  (record ≠ [] → finite_row record = true → max_records st = 0 →
   add_record st record = Raise IndexError) ∧
  (1 ≤ max_records st → (1 < length record)%nat →
   length record ≠ features st → add_record st record = Raise ValueError).
Proof.
  intros Hwf. pose proof (wf_next _ Hwf) as Hnext.
  pose proof (wf_records _ Hwf) as Hlen. split; [by intros ->|].
  split; [|split].
  - intros Hnan. unfold add_record. by rewrite normalize_Raise.
  - intros Hne Hfin HM. unfold add_record.
    rewrite normalize_Ok; [|destruct record; simpl; [done|lia]|done]. simpl.
    unfold set_item, py_index. rewrite Hlen, HM in *.
    rewrite (bool_decide_eq_false_2 (0 ≤ _ < Z.of_nat _)) by lia.
    by rewrite (bool_decide_eq_false_2 (- _ ≤ _ < 0)) by lia.
  - intros HM Hlong Hwrong. unfold add_record.
    destruct (finite_row record) eqn:Hfin; [|by rewrite normalize_Raise].
    rewrite normalize_Ok by (done || lia). simpl.
    unfold set_item. rewrite py_index_in_range by lia. simpl.
    destruct (lookup_lt_is_Some_2 (_records st) (Z.to_nat (next_to_replace st)))
      as [old Hold]; [lia|].
    pose proof (lookup_rows _ _ _ _ (wf_record_rows _ Hwf) Hold) as Hrow.
    unfold assign_row, broadcast_row. rewrite Hold.
    rewrite (bool_decide_eq_false_2 (length _ = _))
      by (rewrite length_normalize_row; lia).
    destruct record as [|x [|y record]]; simpl in Hlong; try lia. done.
Qed.

(** X13: a record of one finite entry is broadcast: [add_record] stores
    the row that repeats the normalized entry in every one of the
    [num_features] coordinates. *)
Theorem add_record_broadcast st (x : float) :
  wf st → 1 ≤ max_records st → PrimFloat.is_finite x = true →
  ∃ st' y, add_record st [x] = Ok st' ∧
    normalize_row [x] = [y] ∧
    _records st' !! Z.to_nat (next_to_replace st) =
      Some (replicate (features st) y).
Proof.
  intros Hwf HM Hx. unfold add_record.
  rewrite normalize_Ok; [|simpl; lia|simpl; by rewrite Hx].
  set (y := PrimFloat.div x (handle_zeros_in_scale (norm [x]))).
  change (normalize_row [x]) with [y]. simpl.
  pose proof (wf_next _ Hwf) as Hnext. pose proof (wf_records _ Hwf) as Hlen.
  unfold set_item. rewrite py_index_in_range by lia. simpl.
  destruct (lookup_lt_is_Some_2 (_records st) (Z.to_nat (next_to_replace st)))
    as [old Hold]; [lia|].
  pose proof (lookup_rows _ _ _ _ (wf_record_rows _ Hwf) Hold) as Hrow.
  unfold assign_row, broadcast_row. rewrite Hold, Hrow.
  assert ((if bool_decide (length [y] = features st)
           then Ok [y] else Ok (replicate (features st) y))
          = Ok (replicate (features st) y)) as ->.
  { case_bool_decide as Hone; [|done]. simpl in Hone. by rewrite <-Hone. }
  simpl. eexists _, y. split; [done|]. split; [done|]. simpl.
  apply list_lookup_insert_eq. lia.
Qed.

(** X14: a call of [add_record] that returns overwrites the slot under the
    cursor with a row of [num_features] entries and nothing else: the other
    slots, the centroids, the classes, [k] and the random generator are
    untouched; the count grows by one up to [max_records] and the cursor
    advances modulo [max_records]. *)
Theorem add_record_frame st (record : vec) st' :
  wf st → add_record st record = Ok st' →
  k st' = k st ∧ max_k st' = max_k st ∧ num_features st' = num_features st ∧
  max_records st' = max_records st ∧ _medoids st' = _medoids st ∧
  _classes st' = _classes st ∧ drawn st' = drawn st ∧
  length (_records st') = length (_records st) ∧
  (∀ j, j ≠ Z.to_nat (next_to_replace st) → _records st' !! j = _records st !! j) ∧
  (∃ row : vec, _records st' !! Z.to_nat (next_to_replace st) = Some row ∧
                length row = features st) ∧
  num_records st' = Z.min (num_records st + 1) (max_records st) ∧
  next_to_replace st' = (next_to_replace st + 1) `mod` max_records st.
Proof.
  intros Hwf Hadd.
  destruct (add_record_changes _ _ _ Hwf Hadd) as (HM & row & -> & Hrow).
  simpl. repeat split; try done.
  - apply length_insert.
  - intros j Hj. by apply list_lookup_insert_ne.
  - exists row. split; [|done]. apply list_lookup_insert_eq.
    pose proof (wf_next _ Hwf). rewrite (wf_records _ Hwf). lia.
Qed.

Lemma rotate_0 {A} (l : list A) : rotate 0 l = l.
Proof. unfold rotate. rewrite Nat.Div0.mod_0_l. simpl. apply app_nil_r. Qed.

(** X16: as long as the ring is not full nothing is evicted: after at most
    [max_records] calls of [add_record], with rows of finite floats, on an
    instance without records,
    [records()] is the list of the normalized inputs in their order. *)
Theorem add_records_below_capacity st (rs : list vec) :
  wf st → num_records st = 0 → next_to_replace st = 0 →
  Forall (λ r : vec, length r = features st) rs →
  Forall (λ r : vec, finite_row r = true) rs →
  (length rs ≤ Z.to_nat (max_records st))%nat →
  ∃ st', add_records st rs = Ok st' ∧
    num_records st' = Z.of_nat (length rs) ∧
    records st' = normalize_row <$> rs.
Proof.
  intros Hwf Hn Hc Hrs Hfin Hroom.
  destruct rs as [|r0 rs0] eqn:Hshape.
  { exists st. split; [done|]. split; [done|]. unfold records. by rewrite Hn. }
  rewrite <-Hshape in *. assert (0 < length rs)%nat as Hpos by (rewrite Hshape; simpl; lia).
  clear Hshape r0 rs0.
  assert (1 ≤ max_records st) as HM by lia.
  destruct (add_records_ring rs st Hwf HM Hrs Hfin)
    as (st' & Hrun & Hwf' & _ & HM' & Hn' & Hc' & Hrot).
  exists st'. split; [done|]. rewrite Hn in Hn'. rewrite Hc in Hc', Hrot.
  split; [lia|].
  change (Z.to_nat 0) with 0%nat in Hrot. rewrite rotate_0 in Hrot.
  pose proof (wf_records _ Hwf) as Hlen. pose proof (wf_records _ Hwf') as Hlen'.
  rewrite HM' in Hlen'.
  unfold records. rewrite slice_to_take by lia.
  replace (Z.to_nat (num_records st')) with (length rs) by lia.
  destruct (decide (length rs = Z.to_nat (max_records st))) as [Hfull|Hless].
  - rewrite Hc', Hfull, Z2Nat.id, Z.add_0_l, Z.mod_same in Hrot by lia.
    change (Z.to_nat 0) with 0%nat in Hrot. rewrite rotate_0 in Hrot.
    rewrite <-Hlen in Hrot. rewrite drop_app_length in Hrot.
    rewrite take_ge by lia. done.
  - rewrite Hc', Z.add_0_l, Z.mod_small, Nat2Z.id in Hrot by lia.
    unfold rotate in Hrot. rewrite Hlen', Nat.mod_small in Hrot by lia.
    rewrite drop_app_le in Hrot by lia.
    apply app_inj_1 in Hrot as [_ Htake]; [done|].
    rewrite !length_drop. lia.
Qed.

(** *** More on [iterate] *)

(** X17: a call of [iterate] that returns has assigned every record to the
    active centroid, taken as it is before the update, with which the
    record has the greatest dot product, and to the first such centroid
    when several tie; this is so whenever none of the dot products of the
    record is a NaN. *)
Theorem iterate_classes_argmax st st' :
  wf st → iterate randn_stream st = Ok st' →
  length (classes st') = length (records st) ∧
  ∀ p (r : vec) c, records st !! p = Some r → classes st' !! p = Some c →
    0 ≤ c < k st ∧
    ∃ m : vec, medoids st !! Z.to_nat c = Some m ∧
      (Forall (λ m' : vec, PrimFloat.is_nan (dot r m') = false) (medoids st) →
       ∀ j (m' : vec), medoids st !! j = Some m' →
         PrimFloat.leb (dot r m') (dot r m) = true ∧
         ((j < Z.to_nat c)%nat → PrimFloat.ltb (dot r m') (dot r m) = true)).
Proof.
  intros Hwf Hrun.
  destruct (iterate_full randn_stream st st' Hwf Hrun)
    as (new & Hclassify & Hlen & Hnew & _ & _ & Hcls & _).
  rewrite Hcls. split.
  { by rewrite Hlen, length_records. }
  intros p r c Hr Hc.
  destruct (classify_lookup _ _ _ _ _ Hclassify Hr) as (i & Hi & Hp).
  assert (c = Z.of_nat i) as -> by congruence.
  split. { by apply (Forall_lookup_1 _ _ _ _ Hnew Hp). }
  destruct (argmax_lt (dot r <$> medoids st)) as (i' & Hi' & Hlt).
  { intros Hnil. by rewrite Hnil in Hi. }
  assert (i' = i) as -> by congruence. rewrite length_fmap in Hlt.
  destruct (lookup_lt_is_Some_2 _ _ Hlt) as [m Hm].
  exists m. rewrite Nat2Z.id. split; [done|]. intros Hnan.
  destruct (argmax_spec _ _ (proj2 (Forall_fmap _ _ _) Hnan) Hi)
    as (s & Hs & Hmax).
  rewrite list_lookup_fmap, Hm in Hs. injection Hs as <-.
  intros j m' Hm'. apply Hmax. by rewrite list_lookup_fmap, Hm'.
Qed.

(** X18: after a call of [iterate] that returns, an active centroid is the
    normalized sum of the records assigned to it, unless every coordinate
    of that row is zero, as when no record is assigned to it; it is then a
    random angle, made of the next [num_features] samples in the order of
    the centroids.  The call draws samples for those centroids only. *)
Theorem iterate_centroids st st' :
  wf st → iterate randn_stream st = Ok st' →
  drawn st' =
    (drawn st +
     empty_clusters (features st) (classes st') (records st) (Z.to_nat (k st)) *
     features st)%nat ∧
  ∀ j, (j < Z.to_nat (k st))%nat →
    let s := normalize_row
               (cluster_sum (features st) j (classes st') (records st)) in
    (all_zero s = false → medoids st' !! j = Some s) ∧
    (all_zero s = true →
     medoids st' !! j =
       Some (random_angle_at randn_stream
               (drawn st +
                empty_clusters (features st) (classes st') (records st) j *
                features st) (features st))).
Proof.
  intros Hwf Hrun.
  destruct (iterate_full randn_stream st st' Hwf Hrun)
    as (new & _ & _ & _ & Hwf' & Hsame & Hcls & _ & _ & Hdrawn & Hlow & _).
  rewrite Hcls. split; [done|].
  intros j Hj s.
  assert (k st' = k st) as Hk by (by rewrite Hsame).
  rewrite lookup_medoids by (done || lia). rewrite (Hlow j Hj). cbn zeta. fold s.
  by destruct (all_zero s).
Qed.

(** X19: a call of [iterate] that returns has rewritten the classes of the
    active records and the active centroids and nothing else: the records,
    their number, the cursor, [k], the classes beyond [num_records] and the
    centroids beyond [k] are as before, and the random generator has only
    moved forward. *)
Theorem iterate_frame st st' :
  wf st → iterate randn_stream st = Ok st' →
  k st' = k st ∧ num_records st' = num_records st ∧
  next_to_replace st' = next_to_replace st ∧
  num_features st' = num_features st ∧ max_records st' = max_records st ∧
  max_k st' = max_k st ∧ _records st' = _records st ∧
  drop (Z.to_nat (num_records st)) (_classes st') =
    drop (Z.to_nat (num_records st)) (_classes st) ∧
  (∀ j, (Z.to_nat (k st) ≤ j)%nat → _medoids st' !! j = _medoids st !! j) ∧
  (drawn st ≤ drawn st')%nat.
Proof.
  intros Hwf Hrun.
  destruct (iterate_full randn_stream st st' Hwf Hrun)
    as (new & _ & Hlen & _ & _ & Hsame & _ & _ & _ & Hdrawn & _ & Hhigh).
  destruct (same_data_fields _ _ Hsame)
    as (Hk & Hn & Hc & Hf & HM & HK & Hrecs & Hcls).
  simpl in *. do 7 (split; [done|]). split; [|split; [done|lia]].
  rewrite Hcls. by rewrite drop_app_length' by done.
Qed.

(** Every turn of a loop whose body returns or raises [ValueError] does
    one or the other. *)
Lemma for_each_seq_cases {St} (body : nat → St → result St)
    (P : nat → St → Prop) (n : nat) : ∀ (i0 : nat) (st : St),
  P i0 st →
  (∀ i s, (i0 ≤ i < i0 + n)%nat → P i s →
          (∃ s', body i s = Ok s' ∧ P (S i) s') ∨ body i s = Raise ValueError) →
  (∃ st', for_each body (seq i0 n) st = Ok st') ∨
  for_each body (seq i0 n) st = Raise ValueError.
Proof.
  induction n as [|n IH]; intros i0 st Hst Hbody; simpl.
  - left. by exists st.
  - destruct (Hbody i0 st) as [(st1 & -> & Hst1)| ->]; [lia|done| |by right].
    simpl. apply (IH (S i0) st1 Hst1). intros i s Hi. apply Hbody. lia.
Qed.

(** X25: [iterate] returns exactly when the sum of the records of every
    active cluster, taken with the new classes, has no NaN and no infinity;
    otherwise it raises [ValueError]. *)
Theorem iterate_returns st :
  wf st →
  ∃ new, classify (records st) (medoids st) = Ok new ∧
    ((∃ st', iterate randn_stream st = Ok st') ↔
     ∀ j, (j < Z.to_nat (k st))%nat →
       finite_row (cluster_sum (features st) j new (records st)) = true) ∧
    ((∃ st', iterate randn_stream st = Ok st') ∨
     iterate randn_stream st = Raise ValueError).
Proof.
  intros Hwf. pose proof (wf_k _ Hwf) as Hk.
  destruct (iterate_unfold randn_stream st Hwf)
    as (new & Hclassify & Hlen & Hnew & Hwf1 & Hcls & Hiter).
  exists new. split; [done|]. split; [split|].
  - intros [st' Hrun].
    destruct (iterate_full randn_stream st st' Hwf Hrun)
      as (new' & Hclassify' & _ & _ & _ & _ & _ & _ & Hfin & _).
    by assert (new' = new) as -> by congruence.
  - by apply iterate_Ok.
  - rewrite Hiter.
    set (c := new ++ drop (Z.to_nat (num_records st)) (_classes st)) in *.
    apply (for_each_seq_cases _ (λ i s, wf s ∧ same_data (set_classes c st) s)).
    { split; [done|apply same_data_refl]. }
    intros i s Hi (Hs & Hsame).
    assert (i < length (_medoids s))%nat as Hlt.
    { rewrite (wf_medoids _ Hs), Hsame. simpl. lia. }
    assert (Forall (λ r : vec, length r = features s) (records st)) as Hrows.
    { replace (features s) with (features st) by (by rewrite Hsame).
      by apply records_rows. }
    destruct (finite_row (cluster_sum (features s) i new (records st))) eqn:Hfin.
    + left.
      pose proof (update_medoid_Ok randn_stream new (records st) i s
                    Hs Hlt Hrows Hfin) as Hbody.
      destruct (update_medoid_wf randn_stream new (records st) i s _
                  Hs Hlt Hrows Hbody) as (Hs' & Hsame' & _).
      eexists. split; [done|]. split; [done|]. by eapply same_data_trans.
    + right. by apply update_medoid_Raise.
Qed.

(** *** [shuffle] and [set_k] *)

(** X20: [shuffle] replaces every active centroid by a random angle, made
    of consecutive samples in the order of the centroids; the centroids
    beyond [k], the records and the classes stay as they are. *)
Theorem shuffle_centroids st :
  wf st →
  ∃ st', shuffle randn_stream st = Ok st' ∧
    k st' = k st ∧ records st' = records st ∧ classes st' = classes st ∧
    next_to_replace st' = next_to_replace st ∧
    drawn st' = (drawn st + Z.to_nat (k st) * features st)%nat ∧
    (∀ j, (j < Z.to_nat (k st))%nat →
       medoids st' !! j =
         Some (random_angle_at randn_stream (drawn st + j * features st)
                 (features st))) ∧
    (∀ j, (Z.to_nat (k st) ≤ j)%nat → _medoids st' !! j = _medoids st !! j).
Proof.
  intros Hwf. unfold shuffle.
  destruct (randomize_medoids_spec randn_stream st Hwf)
    as (st' & Hrun & Hwf' & Hsame & Hdrawn & Hlow & Hhigh).
  exists st'. split; [done|].
  destruct (same_data_fields _ _ Hsame)
    as (Hk & Hn & Hc & Hf & HM & HK & Hrecs & Hcls).
  split; [done|]. unfold records, classes. rewrite Hn, Hrecs, Hcls.
  do 4 (split; [done|]). split; [|done].
  intros j Hj. rewrite lookup_medoids by (done || lia). by apply Hlow.
Qed.

Lemma set_k_no_growth st new_k :
  wf st → clamp_k (max_k st) new_k ≤ k st →
  set_k randn_stream st new_k = Ok (set_k_field (clamp_k (max_k st) new_k) st).
Proof.
  intros Hwf Hle.
  destruct (set_k_spec randn_stream st new_k Hwf)
    as (st' & Hset & Hwf' & Hst' & Hdrawn & _ & Hold).
  rewrite Hset. f_equal. rewrite Hst'.
  replace (Z.to_nat (clamp_k (max_k st) new_k - k st)) with 0%nat in Hdrawn by lia.
  assert (_medoids st' = _medoids st) as ->.
  { apply list_eq. intros j. apply Hold. lia. }
  replace (drawn st') with (drawn st) by lia. by destruct st.
Qed.

(** X21: a call of [set_k] that does not raise [k] changes [k] and nothing
    else, and draws no sample; calling [set_k] a second time with the same
    argument changes nothing at all. *)
Theorem set_k_idempotent st new_k :
  wf st →
  ∃ st', set_k randn_stream st new_k = Ok st' ∧
    (clamp_k (max_k st) new_k ≤ k st →
     st' = set_k_field (clamp_k (max_k st) new_k) st) ∧
    set_k randn_stream st' new_k = Ok st'.
Proof.
  intros Hwf.
  destruct (set_k_spec randn_stream st new_k Hwf)
    as (st' & Hset & Hwf' & Hst' & _).
  exists st'. split; [done|]. split.
  - intros Hle. rewrite (set_k_no_growth st new_k Hwf Hle) in Hset. congruence.
  - assert (max_k st' = max_k st) as HK by (by rewrite Hst').
    assert (k st' = clamp_k (max_k st) new_k) as Hk by (by rewrite Hst').
    rewrite set_k_no_growth by (done || rewrite HK; lia).
    rewrite HK, <-Hk. by destruct st'.
Qed.

(** *** Invariants of the reachable states *)

Lemma add_records_frame (rs : list vec) : ∀ st st',
  wf st → add_records st rs = Ok st' →
  wf st' ∧ k st' = k st ∧ max_k st' = max_k st ∧
  num_features st' = num_features st ∧ max_records st' = max_records st ∧
  _medoids st' = _medoids st ∧ _classes st' = _classes st ∧
  drawn st' = drawn st ∧ num_records st ≤ num_records st'.
Proof.
  induction rs as [|r rs IH]; intros st st' Hwf Hrun.
  - injection Hrun as <-. by split_and!.
  - cbn [add_records for_each] in Hrun.
    destruct (add_record st r) as [st1|] eqn:Hadd; [|done].
    cbn [mbind result_bind] in Hrun.
    destruct (add_record_inv _ _ _ Hwf Hadd) as (Hwf1 & _).
    destruct (add_record_changes _ _ _ Hwf Hadd) as (HM & row & Hst1 & _).
    destruct (IH st1 st' Hwf1 Hrun)
      as (Hwf' & Hk & HK & Hf & HM' & Hmed & Hcls & Hdrawn & Hn).
    rewrite Hst1 in Hk, HK, Hf, HM', Hmed, Hcls, Hdrawn, Hn. simpl in *.
    pose proof (wf_num_records _ Hwf). split_and!; try done; try lia.
Qed.

(** A call that returns keeps the shape of the instance and never drops a
    record; only [add_record] and [add_records] write to the records. *)
Lemma run_frame c st st' :
  wf st → run randn_stream c st = Ok st' →
  num_features st' = num_features st ∧ max_records st' = max_records st ∧
  num_records st ≤ num_records st' ∧
  ((∀ r, c ≠ AddRecord r) → (∀ rs, c ≠ AddRecords rs) →
   _records st' = _records st ∧ num_records st' = num_records st ∧
   next_to_replace st' = next_to_replace st) ∧
  ((∀ new_k, c ≠ SetK new_k) → k st' = k st).
Proof.
  intros Hwf Hrun. destruct c as [|new_k| |r|rs]; simpl in Hrun.
  - destruct (iterate_full randn_stream st st' Hwf Hrun)
      as (new & _ & _ & _ & _ & Hsame & _).
    destruct (same_data_fields _ _ Hsame) as (? & Hn & ? & ? & ? & ? & ? & ?).
    simpl in *. rewrite Hn. split_and!; try done; try lia.
  - destruct (set_k_spec randn_stream st new_k Hwf) as (st1 & Hset & _ & Hst1 & _).
    assert (st1 = st') as -> by congruence.
    rewrite Hst1. simpl. split_and!; try done; try lia.
    intros Hne. by destruct (Hne new_k).
  - destruct (randomize_medoids_spec randn_stream st Hwf)
      as (st1 & Hsh & _ & Hsame & _).
    unfold shuffle in Hrun. assert (st1 = st') as -> by congruence.
    destruct (same_data_fields _ _ Hsame) as (? & Hn & ? & ? & ? & ? & ? & ?).
    rewrite Hn. split_and!; try done; try lia.
  - destruct (add_record_changes _ _ _ Hwf Hrun) as (HM & row & -> & _).
    pose proof (wf_num_records _ Hwf). simpl. split_and!; try done; try lia.
    all: intros Hne; by destruct (Hne r).
  - destruct (add_records_frame _ _ _ Hwf Hrun)
      as (_ & Hk & _ & Hf & HM & _ & _ & _ & Hn).
    split_and!; try done.
    all: intros _ Hne; by destruct (Hne rs).
Qed.

Lemma reachable_inv st0 st :
  wf st0 → reachable randn_stream st0 st →
  wf st ∧ num_features st = num_features st0 ∧
  max_records st = max_records st0 ∧ max_k st = max_k st0 ∧
  num_records st0 ≤ num_records st.
Proof.
  intros Hwf0 Hreach. induction Hreach as [|st c st' Hreach IH Hrun].
  - by split_and!.
  - destruct IH as (Hwf & Hf & HM & HK & Hn).
    destruct (run_wf randn_stream c st st' Hwf Hrun) as [Hwf' HK'].
    destruct (run_frame c st st' Hwf Hrun) as (Hf' & HM' & Hn' & _).
    split_and!; try done; try congruence; try lia.
Qed.

(** X23: for an instance made with [max_k >= 1], in every state it goes
    through, the dimensions are those given to [__init__], [k] is in
    [1, max_k], [records()] and [classes()] have [num_records] rows, at
    most [max_records], [medoids()] has [k] rows, every row has
    [num_features] entries, the cursor is a slot of the ring, or 0 when the
    ring has no slot, and the classes of the unused slots are zero; the
    state is well-shaped, which is what the theorems on the methods ask of
    the state they start from. *)
Theorem reachable_shape (uninitialized : nat → nat → float)
    initial_k nf mk mr st0 st :
  1 ≤ mk →
  init randn_stream uninitialized initial_k nf mk mr = Ok st0 →
  reachable randn_stream st0 st →
  wf st ∧
  num_features st = nf ∧ 1 ≤ nf ∧ max_records st = mr ∧ 0 ≤ mr ∧
  max_k st = mk ∧ 1 ≤ k st ≤ mk ∧
  0 ≤ num_records st ≤ mr ∧
  (mr = 0 → next_to_replace st = 0) ∧
  (1 ≤ mr → 0 ≤ next_to_replace st < mr) ∧
  length (records st) = Z.to_nat (num_records st) ∧
  length (classes st) = Z.to_nat (num_records st) ∧
  length (medoids st) = Z.to_nat (k st) ∧
  Forall (λ r : vec, length r = Z.to_nat nf) (records st) ∧
  Forall (λ m : vec, length m = Z.to_nat nf) (_medoids st) ∧
  Forall (λ c, c = 0) (drop (Z.to_nat (num_records st)) (_classes st)).
Proof.
  intros Hmk Hinit Hreach.
  destruct (init_wf randn_stream _ _ _ _ _ _ Hmk Hinit)
    as (Hwf0 & Hf0 & HM0 & HK0 & Hnf & Hmr).
  destruct (reachable_inv st0 st Hwf0 Hreach) as (Hwf & Hf & HM & HK & _).
  pose proof (wf_next _ Hwf) as Hnext. pose proof (wf_k _ Hwf) as Hk.
  pose proof (wf_num_records _ Hwf) as Hn.
  rewrite <-Hf0, <-HM0, <-HK0, <-Hf, <-HM, <-HK in *.
  split; [done|].
  split; [done|]. split; [done|]. split; [done|]. split; [done|].
  split; [done|]. split; [done|]. split; [done|].
  split; [lia|]. split; [lia|].
  split; [by apply length_records|]. split; [by apply length_classes|].
  split; [by apply length_medoids|]. split; [by apply records_rows|].
  split; [apply (wf_medoid_rows _ Hwf)|apply (wf_inactive _ Hwf)].
Qed.

(** X24: no call removes a record: a call that returns never lowers
    [num_records]; [iterate], [set_k] and [shuffle] leave the records and
    the cursor as they are, and only [set_k] changes [k]. *)
Theorem run_keeps_records c st st' :
  wf st → run randn_stream c st = Ok st' →
  num_records st ≤ num_records st' ∧
  ((∀ r, c ≠ AddRecord r) → (∀ rs, c ≠ AddRecords rs) →
   records st' = records st ∧ next_to_replace st' = next_to_replace st) ∧
  ((∀ new_k, c ≠ SetK new_k) → k st' = k st).
Proof.
  intros Hwf Hrun.
  destruct (run_frame c st st' Hwf Hrun) as (_ & _ & Hn & Hrecs & Hk).
  split; [done|]. split; [|done]. intros Hr Hrs.
  destruct (Hrecs Hr Hrs) as (Hsame & Hnum & Hc).
  unfold records. by rewrite Hsame, Hnum.
Qed.


End MoreMethods.

Lemma random_angle_row_witness :
  1 ≤ num_features sample_state ∧
  ∃ v, _random_angle ones_stream sample_state =
         Ok (v, set_drawn (drawn sample_state + 2)%nat sample_state) ∧
       v = normalize_row
             (PrimFloat.abs <$> randn ones_stream (drawn sample_state) 2) ∧
       length v = 2%nat ∧
       Forall (λ x, nonneg x = true) v.
Proof.
  split; [simpl; lia|].
  apply (random_angle_row ones_stream sample_state). simpl. lia.
Defined.

Lemma init_state_witness :
  1 ≤ 2 ∧ 1 ≤ 3 ∧ 0 ≤ 4 ∧
  ∃ st0,
    init ones_stream zero_memory 7 2 3 4 = Ok st0 ∧
    k st0 = clamp_k 3 7 ∧
    num_records st0 = 0 ∧ next_to_replace st0 = 0 ∧
    records st0 = [] ∧ classes st0 = [] ∧
    _classes st0 = replicate (Z.to_nat 4) 0 ∧
    length (_records st0) = Z.to_nat 4 ∧
    length (_medoids st0) = Z.to_nat 3 ∧
    (∀ j, (j < Z.to_nat (k st0))%nat →
          medoids st0 !! j =
            Some (random_angle_at ones_stream (j * Z.to_nat 2) (Z.to_nat 2))) ∧
    (∀ j, (Z.to_nat (k st0) ≤ j < Z.to_nat 3)%nat →
          _medoids st0 !! j = Some (replicate (Z.to_nat 2) 0%float)).
Proof.
  split; [lia|]. split; [lia|]. split; [lia|].
  apply (init_state ones_stream zero_memory 7 2 3 4); lia.
Defined.

Lemma init_raises_witness :
  ((4 < 0 ∨ 0 < 0 ∨ 3 < 0) ∨ (0 = 0 ∧ 1 ≤ 3)) ∧
  init ones_stream zero_memory 1 0 3 4 = Raise ValueError.
Proof.
  assert ((4 < 0 ∨ 0 < 0 ∨ 3 < 0) ∨ (0 = 0 ∧ 1 ≤ 3)) as Hbad by (right; lia).
  split; [done|].
  apply (init_raises ones_stream zero_memory 1 0 3 4 Hbad).
Defined.

Lemma init_without_centroids_witness :
  0 ≤ 2 ∧ 0 ≤ 4 ∧
  ∃ st0,
    init ones_stream zero_memory 5 2 0 4 = Ok st0 ∧
    k st0 = (if bool_decide (5 > 0) then 0 else 1) ∧
    max_k st0 = 0 ∧ _medoids st0 = [] ∧ medoids st0 = [] ∧
    ¬ (1 ≤ k st0 ≤ max_k st0).
Proof.
  split; [lia|]. split; [lia|].
  apply (init_without_centroids ones_stream zero_memory 5 2 4); lia.
Defined.

Lemma add_record_raises_witness :
  wf sample_state ∧
  add_record sample_state [] = Raise ValueError ∧
  add_record sample_state [1; nan]%float = Raise ValueError ∧
  add_record sample_state [1; 2; 3]%float = Raise ValueError.
Proof.
  split; [apply sample_state_wf|]. split; [|split].
  - destruct (add_record_raises sample_state [] sample_state_wf) as (Hempty & _).
    by apply Hempty.
  - destruct (add_record_raises sample_state [1; nan]%float sample_state_wf)
      as (_ & Hnan & _).
    by apply Hnan.
  - destruct (add_record_raises sample_state [1; 2; 3]%float sample_state_wf)
      as (_ & _ & _ & Hlong).
    apply Hlong; simpl; lia.
Defined.

Lemma add_record_broadcast_witness :
  wf sample_state ∧ 1 ≤ max_records sample_state ∧
  PrimFloat.is_finite 5 = true ∧
  ∃ st' y, add_record sample_state [5]%float = Ok st' ∧
    normalize_row [5]%float = [y] ∧
    _records st' !! Z.to_nat (next_to_replace sample_state) =
      Some (replicate 2 y).
Proof.
  split; [apply sample_state_wf|]. split; [simpl; lia|]. split; [done|].
  apply (add_record_broadcast sample_state 5%float sample_state_wf);
    [simpl; lia|done].
Defined.

Lemma add_record_frame_witness :
  wf sample_state ∧
  ∃ st', add_record sample_state [3; 4]%float = Ok st' ∧
    k st' = 1 ∧ max_k st' = 2 ∧ num_features st' = 2 ∧ max_records st' = 2 ∧
    _medoids st' = _medoids sample_state ∧
    _classes st' = _classes sample_state ∧ drawn st' = drawn sample_state ∧
    length (_records st') = length (_records sample_state) ∧
    (∀ j, j ≠ 0%nat → _records st' !! j = _records sample_state !! j) ∧
    (∃ row : vec, _records st' !! 0%nat = Some row ∧ length row = 2%nat) ∧
    num_records st' = 1 ∧ next_to_replace st' = 1.
Proof.
  split; [apply sample_state_wf|].
  assert (1 ≤ max_records sample_state) as HM by (simpl; lia).
  pose proof (add_record_Ok sample_state [3; 4]%float sample_state_wf HM
                eq_refl eq_refl) as Hadd.
  eexists. split; [exact Hadd|].
  apply (add_record_frame sample_state [3; 4]%float _ sample_state_wf Hadd).
Defined.

Lemma add_records_below_capacity_witness :
  wf sample_state ∧ num_records sample_state = 0 ∧
  next_to_replace sample_state = 0 ∧
  Forall (λ r : vec, length r = 2%nat) [[3; 4]; [0; 2]]%float ∧
  Forall (λ r : vec, finite_row r = true) [[3; 4]; [0; 2]]%float ∧
  (length [[3; 4]; [0; 2]]%float ≤ Z.to_nat (max_records sample_state))%nat ∧
  ∃ st', add_records sample_state [[3; 4]; [0; 2]]%float = Ok st' ∧
    num_records st' = Z.of_nat (length [[3; 4]; [0; 2]]%float) ∧
    records st' = normalize_row <$> [[3; 4]; [0; 2]]%float.
Proof.
  assert (Forall (λ r : vec, length r = 2%nat) [[3; 4]; [0; 2]]%float) as Hrows
    by (repeat constructor).
  assert (Forall (λ r : vec, finite_row r = true) [[3; 4]; [0; 2]]%float) as Hfin
    by (repeat constructor).
  split; [apply sample_state_wf|]. split; [reflexivity|]. split; [reflexivity|].
  split; [done|]. split; [done|]. split; [simpl; lia|].
  apply (add_records_below_capacity sample_state [[3; 4]; [0; 2]]%float
           sample_state_wf); [reflexivity|reflexivity|done|done|simpl; lia].
Defined.

Lemma iterate_classes_argmax_witness :
  wf sample_half ∧
  ∃ st', iterate ones_stream sample_half = Ok st' ∧
    length (classes st') = length (records sample_half) ∧
    ∀ p (r : vec) c,
      records sample_half !! p = Some r → classes st' !! p = Some c →
      0 ≤ c < k sample_half ∧
      ∃ m : vec, medoids sample_half !! Z.to_nat c = Some m ∧
        (Forall (λ m' : vec, PrimFloat.is_nan (dot r m') = false)
           (medoids sample_half) →
         ∀ j (m' : vec), medoids sample_half !! j = Some m' →
           PrimFloat.leb (dot r m') (dot r m) = true ∧
           ((j < Z.to_nat c)%nat → PrimFloat.ltb (dot r m') (dot r m) = true)).
Proof.
  split; [apply sample_half_wf|]. eexists. split; [by vm_compute|].
  apply (iterate_classes_argmax ones_stream sample_half _ sample_half_wf).
  by vm_compute.
Defined.

Lemma iterate_centroids_witness :
  wf sample_half ∧
  ∃ st', iterate ones_stream sample_half = Ok st' ∧
    drawn st' =
      (drawn sample_half +
       empty_clusters 2 (classes st') (records sample_half) 2 * 2)%nat ∧
    ∀ j, (j < 2)%nat →
      let s := normalize_row
                 (cluster_sum 2 j (classes st') (records sample_half)) in
      (all_zero s = false → medoids st' !! j = Some s) ∧
      (all_zero s = true →
       medoids st' !! j =
         Some (random_angle_at ones_stream
                 (drawn sample_half +
                  empty_clusters 2 (classes st') (records sample_half) j * 2)
                 2)).
Proof.
  split; [apply sample_half_wf|]. eexists. split; [by vm_compute|].
  apply (iterate_centroids ones_stream sample_half _ sample_half_wf).
  by vm_compute.
Defined.

Lemma iterate_frame_witness :
  wf sample_half ∧
  ∃ st', iterate ones_stream sample_half = Ok st' ∧
    k st' = 2 ∧ num_records st' = 1 ∧ next_to_replace st' = 1 ∧
    num_features st' = 2 ∧ max_records st' = 2 ∧ max_k st' = 2 ∧
    _records st' = _records sample_half ∧
    drop 1 (_classes st') = drop 1 (_classes sample_half) ∧
    (∀ j, (2 ≤ j)%nat → _medoids st' !! j = _medoids sample_half !! j) ∧
    (drawn sample_half ≤ drawn st')%nat.
Proof.
  split; [apply sample_half_wf|]. eexists. split; [by vm_compute|].
  apply (iterate_frame ones_stream sample_half _ sample_half_wf).
  by vm_compute.
Defined.

Lemma iterate_returns_witness :
  wf sample_half ∧
  ∃ new, classify (records sample_half) (medoids sample_half) = Ok new ∧
    ((∃ st', iterate ones_stream sample_half = Ok st') ↔
     ∀ j, (j < 2)%nat →
       finite_row (cluster_sum 2 j new (records sample_half)) = true) ∧
    ((∃ st', iterate ones_stream sample_half = Ok st') ∨
     iterate ones_stream sample_half = Raise ValueError).
Proof.
  split; [apply sample_half_wf|].
  apply (iterate_returns ones_stream sample_half sample_half_wf).
Defined.

Lemma shuffle_centroids_witness :
  wf sample_full ∧
  ∃ st', shuffle ones_stream sample_full = Ok st' ∧
    k st' = 2 ∧ records st' = records sample_full ∧
    classes st' = classes sample_full ∧ next_to_replace st' = 0 ∧
    drawn st' = (drawn sample_full + 2 * 2)%nat ∧
    (∀ j, (j < 2)%nat →
       medoids st' !! j =
         Some (random_angle_at ones_stream (drawn sample_full + j * 2) 2)) ∧
    (∀ j, (2 ≤ j)%nat → _medoids st' !! j = _medoids sample_full !! j).
Proof.
  split; [apply sample_full_wf|].
  apply (shuffle_centroids ones_stream sample_full sample_full_wf).
Defined.

Lemma set_k_idempotent_witness :
  wf sample_full ∧
  ∃ st', set_k ones_stream sample_full 1 = Ok st' ∧
    (clamp_k (max_k sample_full) 1 ≤ k sample_full →
     st' = set_k_field (clamp_k (max_k sample_full) 1) sample_full) ∧
    set_k ones_stream st' 1 = Ok st'.
Proof.
  split; [apply sample_full_wf|].
  apply (set_k_idempotent ones_stream sample_full 1 sample_full_wf).
Defined.

Lemma reachable_shape_witness :
  1 ≤ 3 ∧
  ∃ st0 st, init ones_stream zero_memory 2 2 3 4 = Ok st0 ∧
    reachable ones_stream st0 st ∧
    num_records st = 1 ∧
    wf st ∧
    num_features st = 2 ∧ 1 ≤ 2 ∧ max_records st = 4 ∧ 0 ≤ 4 ∧
    max_k st = 3 ∧ 1 ≤ k st ≤ 3 ∧
    0 ≤ num_records st ≤ 4 ∧
    (4 = 0 → next_to_replace st = 0) ∧
    (1 ≤ 4 → 0 ≤ next_to_replace st < 4) ∧
    length (records st) = Z.to_nat (num_records st) ∧
    length (classes st) = Z.to_nat (num_records st) ∧
    length (medoids st) = Z.to_nat (k st) ∧
    Forall (λ r : vec, length r = Z.to_nat 2) (records st) ∧
    Forall (λ m : vec, length m = Z.to_nat 2) (_medoids st) ∧
    Forall (λ c, c = 0) (drop (Z.to_nat (num_records st)) (_classes st)).
Proof.
  assert (1 ≤ 3) as Hmk by lia. split; [done|].
  destruct (init_spec ones_stream zero_memory 2 2 3 4)
    as (st0 & Hinit & Hwf0 & _ & Hn0 & _ & Hnf & Hmr & _); [lia..|].
  assert (1 ≤ max_records st0) as HM by (rewrite Hmr; lia).
  assert (length [3; 4]%float = Z.to_nat (num_features st0)) as Hlen
    by (by rewrite Hnf).
  pose proof (add_record_Ok st0 [3; 4]%float Hwf0 HM Hlen eq_refl) as Hadd.
  assert (reachable ones_stream st0
            (State (k st0) (Z.min (num_records st0 + 1) (max_records st0))
               ((next_to_replace st0 + 1) `mod` max_records st0)
               (num_features st0) (max_records st0) (max_k st0)
               (<[Z.to_nat (next_to_replace st0) := normalize_row [3; 4]%float]>
                  (_records st0))
               (_medoids st0) (_classes st0) (drawn st0))) as Hreach
    by (by apply (reachable_call _ _ st0 (AddRecord [3; 4]%float)); [constructor|]).
  eexists st0, _. split; [done|]. split; [exact Hreach|].
  split; [simpl; rewrite Hn0, Hmr; reflexivity|].
  apply (reachable_shape ones_stream zero_memory 2 2 3 4 st0 _ Hmk Hinit Hreach).
Defined.

Lemma run_keeps_records_witness :
  wf sample_full ∧
  ∃ st', run ones_stream Shuffle sample_full = Ok st' ∧
    num_records sample_full ≤ num_records st' ∧
    ((∀ r, Shuffle ≠ AddRecord r) → (∀ rs, Shuffle ≠ AddRecords rs) →
     records st' = records sample_full ∧
     next_to_replace st' = next_to_replace sample_full) ∧
    ((∀ new_k, Shuffle ≠ SetK new_k) → k st' = k sample_full).
Proof.
  split; [apply sample_full_wf|]. eexists. split; [by vm_compute|].
  apply (run_keeps_records ones_stream Shuffle sample_full _ sample_full_wf).
  by vm_compute.
Defined.

End SKMeansProofs.
